(** * Fragmented-tag reconstruction for DOCX templates

    A shallow embedding of [scripts/clean_docx_fragments.py] (the delimiter
    reconstructor, the container rewrite pass and the command line) and of
    parts of [app/main.py] (the tag census, the normalisation step of
    [process_document], the download names, the template ids, the quotas
    and the administration of keys), followed by the properties proved of
    them.

    Layout: Python strings are lists of code points ([N]); byte strings are
    lists of [Byte.byte]; the regular expressions of the source are terms
    of a small syntax run by a backtracking matcher with the priorities of
    Python's [re] module; the zip container is the ordered list of its
    entries, each with its content or with the damage that makes it
    unreadable, and with a name table for reads by name; the file system
    is a finite map from paths to files.  In that file system a path
    names a file and two paths name two files; directories, links and
    permissions are not part of it, so that a file can be created at
    every path. *)

From Stdlib Require Import NArith ZArith List String Ascii Strings.Byte Lia
  Bool.
From stdpp Require Import base option list gmap strings.
Import ListNotations.

Open Scope N_scope.
Open Scope nat_scope.

(** ** Characters and strings *)

Abbreviation text := (list N).
Abbreviation bytes := (list byte).

Definition chr (a : ascii) : N := N_of_ascii a.
Definition str (s : string) : text := map chr (list_ascii_of_string s).

Definition in_range (lo hi c : N) : bool := (lo <=? c)%N && (c <=? hi)%N.

(** [\s] on a [str] pattern: the code points for which CPython's
    [Py_UNICODE_ISSPACE] holds. *)
Definition is_space (c : N) : bool :=
  in_range 9 13 c || in_range 28 32 c || N.eqb c 133 || N.eqb c 160
  || N.eqb c 5760 || in_range 8192 8202 c || N.eqb c 8232 || N.eqb c 8233
  || N.eqb c 8239 || N.eqb c 8287 || N.eqb c 12288.

(** [[A-Za-z_]] and [[A-Za-z0-9_-]]. *)
Definition is_name_start (c : N) : bool :=
  in_range 65 90 c || in_range 97 122 c || N.eqb c 95.
Definition is_name_char (c : N) : bool :=
  in_range 65 90 c || in_range 97 122 c || in_range 48 57 c
  || N.eqb c 95 || N.eqb c 45.

(** ** Regular expressions, as Python's [re] runs them *)

Module Re.

Inductive regex : Type :=
| Chr (p : N -> bool)               (* one character of a class *)
| Cat (r1 r2 : regex)               (* r1 r2 *)
| Alt (r1 r2 : regex)               (* r1|r2, r1 tried first *)
| Star (greedy : bool) (r : regex)  (* r* (greedy) or r*? (lazy) *)
| Group (r : regex)                 (* ( r ), capture group 1 *)
| Dollar.                           (* $ without MULTILINE *)

(** What is left of the subject, and the text of group 1 if it has
    taken part in the match so far. *)
Record mstate : Type := MState { rest : text; grp : option text }.

Definition orelse {A} (x y : option A) : option A :=
  match x with Some _ => x | None => y end.

Section Iterate.
Variable body : (mstate -> option mstate) -> mstate -> option mstate.
Variable greedy : bool.
Variable k : mstate -> option mstate.

(** Repetition.  A greedy star tries one more round before the
    continuation, a lazy one the continuation first.  A round that
    consumes nothing ends the repetition, so the number of rounds
    is bounded by the length of the subject. *)
Fixpoint iterate (fuel : nat) (st : mstate) : option mstate :=
  match fuel with
  | O => k st
  | S fuel' =>
      let again :=
        body (fun st' =>
                if length (rest st') <? length (rest st)
                then iterate fuel' st' else None) st in
      if greedy then orelse again (k st) else orelse (k st) again
  end.
End Iterate.

(** The backtracking matcher, in continuation-passing style: [run r k st]
    is the first success, in priority order, of matching [r] at [st] and
    then doing [k]. *)
Fixpoint run (r : regex) (k : mstate -> option mstate) (st : mstate)
  : option mstate :=
  match r with
  | Chr p =>
      match rest st with
      | c :: s' => if p c then k (MState s' (grp st)) else None
      | [] => None
      end
  | Cat r1 r2 => run r1 (run r2 k) st
  | Alt r1 r2 => orelse (run r1 k st) (run r2 k st)
  | Star g r' => iterate (run r') g k (length (rest st)) st
  | Group r' =>
      run r'
        (fun st' =>
           k (MState (rest st')
                (Some (firstn (length (rest st) - length (rest st'))
                         (rest st))))) st
  | Dollar =>
      match rest st with
      | [] => k st
      | [c] => if N.eqb c 10 then k st else None
      | _ => None
      end
  end.

(** A match object: [group(0)] and [group(1)]. *)
Record rmatch : Type := RMatch { group0 : text; group1 : option text }.

(** The match of [pat] that starts exactly at the head of [s]. *)
Definition match_at (pat : regex) (s : text) : option rmatch :=
  match run pat Some (MState s None) with
  | Some st =>
      Some (RMatch (firstn (length s - length (rest st)) s) (grp st))
  | None => None
  end.

(** [pat.subn(repl, s)]: leftmost matches, left to right, not
    overlapping; each match is replaced by [repl] of it and counted.
    [skip] is the number of characters still covered by the last match.
    (None of the patterns below matches the empty string.) *)
Fixpoint subn_go (pat : regex) (repl : rmatch -> text) (skip : nat)
  (s : text) : text * nat :=
  match s with
  | [] =>
      match skip, match_at pat [] with
      | O, Some mt => (repl mt, 1)
      | _, _ => ([], 0)
      end
  | c :: s' =>
      match skip with
      | S skip' => subn_go pat repl skip' s'
      | O =>
          match match_at pat s with
          | Some mt =>
              match length (group0 mt) with
              | S len' =>
                  let '(out, n) := subn_go pat repl len' s' in
                  (repl mt ++ out, S n)
              | O =>
                  let '(out, n) := subn_go pat repl 0 s' in
                  (repl mt ++ c :: out, S n)
              end
          | None =>
              let '(out, n) := subn_go pat repl 0 s' in (c :: out, n)
          end
      end
  end.

Definition subn (pat : regex) (repl : rmatch -> text) (s : text)
  : text * nat := subn_go pat repl 0 s.

(** [re.sub(pat, repl, s)] with a constant replacement. *)
Definition sub (pat : regex) (repl : text) (s : text) : text :=
  fst (subn pat (fun _ => repl) s).

(** [re.finditer(pat, s)]: the same scan, yielding the matches. *)
Fixpoint finditer_go (pat : regex) (skip : nat) (s : text) : list rmatch :=
  match s with
  | [] =>
      match skip, match_at pat [] with
      | O, Some mt => [mt]
      | _, _ => []
      end
  | c :: s' =>
      match skip with
      | S skip' => finditer_go pat skip' s'
      | O =>
          match match_at pat s with
          | Some mt =>
              mt :: finditer_go pat (pred (length (group0 mt))) s'
          | None => finditer_go pat 0 s'
          end
      end
  end.

Definition finditer (pat : regex) (s : text) : list rmatch :=
  finditer_go pat 0 s.

(** [re.match(pat, s)]: a match at position 0, where [^] holds. *)
Definition rematch (pat : regex) (s : text) : option rmatch :=
  match_at pat s.

Definition lit (a : ascii) : regex := Chr (N.eqb (chr a)).
Definition not_lit (a : ascii) : regex :=
  Chr (fun c => negb (N.eqb (chr a) c)).
Definition any : regex := Chr (fun _ => true).     (* . under DOTALL *)
Definition plus (r : regex) : regex := Cat r (Star true r).
Definition space : regex := Chr is_space.

End Re.
Import Re.

(** ** [str.replace] *)

Fixpoint is_prefix (p s : text) : bool :=
  match p, s with
  | [], _ => true
  | a :: p', b :: s' => N.eqb a b && is_prefix p' s'
  | _ :: _, [] => false
  end.

Fixpoint replace_go (old new : text) (skip : nat) (s : text) : text :=
  match s with
  | [] => []
  | c :: s' =>
      match skip with
      | S skip' => replace_go old new skip' s'
      | O =>
          if is_prefix old s
          then new ++ replace_go old new (pred (length old)) s'
          else c :: replace_go old new 0 s'
      end
  end.

(** [s.replace(old, new)] for a non-empty [old]. *)
Definition replace (old new s : text) : text := replace_go old new 0 s.

(** ** The delimiter reconstructor ([clean_docx_fragments.py]) *)

(** [<[^>]+>] *)
Definition tag : regex := Cat (lit "<") (Cat (plus (not_lit ">")) (lit ">")).

(** [(?:TAG|\s)*], TAG being the pattern above. *)
Definition noise : regex := Star true (Alt tag space).

(** The identifier grammar: [^(NAME)$] with NAME = [[A-Za-z_][A-Za-z0-9_-]*]. *)
Definition name_pattern : regex :=
  Cat (Group (Cat (Chr is_name_start) (Star true (Chr is_name_char)))) Dollar.

(** The three statements of [repl_curly] and [repl_square] that clean the
    captured interior. *)
Definition clean (inner : text) : text :=
  let cleaned := sub tag [] inner in
  let cleaned :=
    replace (str "&amp;") (str "&")
      (replace (str "&gt;") (str ">")
         (replace (str "&lt;") (str "<") cleaned)) in
  sub (plus space) [] cleaned.

Inductive family : Type := Curly | Square.

Definition open_char (f : family) : ascii :=
  match f with Curly => "{" | Square => "[" end%char.
Definition close_char (f : family) : ascii :=
  match f with Curly => "}" | Square => "]" end%char.

Section Family.
Variable f : family.

(** [o NOISE o (.*?) (?: c NOISE c )] under DOTALL, for the opening
    character [o] and the closing character [c] of the family. *)
Definition pattern_of : regex :=
  Cat (lit (open_char f))
    (Cat noise
       (Cat (lit (open_char f))
          (Cat (Group (Star false any))
             (Cat (lit (close_char f))
                (Cat noise (lit (close_char f))))))).

Definition canonical (var : text) : text :=
  [chr (open_char f); chr (open_char f)] ++ var
    ++ [chr (close_char f); chr (close_char f)].

Definition repl_of (m : rmatch) : text :=
  let inner := default [] (group1 m) in
  let cleaned := clean inner in
  match rematch name_pattern cleaned with
  | None => group0 m
  | Some mname =>
      let var := default [] (group1 mname) in
      canonical var
  end.

Definition normalize_of (xml_text : text) : text * nat :=
  subn pattern_of repl_of xml_text.
End Family.

Definition pattern_curly : regex := pattern_of Curly.
Definition repl_curly : rmatch -> text := repl_of Curly.
Definition _normalize_jinja_curly (xml_text : text) : text * nat :=
  let '(new_text, n) := subn pattern_curly repl_curly xml_text in
  (new_text, n).

Definition pattern_square : regex := pattern_of Square.
Definition repl_square : rmatch -> text := repl_of Square.
Definition _normalize_jinja_square (xml_text : text) : text * nat :=
  let '(new_text, n) := subn pattern_square repl_square xml_text in
  (new_text, n).

(** ** UTF-8, as [bytes.decode('utf-8', 'ignore')] and [str.encode('utf-8')] *)

Definition is_continuation (b : N) : bool := in_range 128 191 b.

(** One pass of CPython's UTF-8 decoder over the byte values: [Some cp] for
    a decoded code point, [None] for a span the decoder reports as
    undecodable (an invalid start byte, a lead byte whose continuation is
    missing or out of range, or a sequence cut off by the end of the
    data).  Decoding resumes right after the reported span. *)
Fixpoint utf8_scan (s : list N) : list (option N) :=
  match s with
  | [] => []
  | b0 :: s1 =>
      if (b0 <? 128)%N then Some b0 :: utf8_scan s1
      else if (b0 <? 194)%N then None :: utf8_scan s1
      else if (b0 <? 224)%N then
        match s1 with
        | [] => [None]
        | b1 :: s2 =>
            if is_continuation b1
            then Some (N.shiftl b0 6 + b1 - (N.shiftl 192 6 + 128))%N
                   :: utf8_scan s2
            else None :: utf8_scan s1
        end
      else if (b0 <? 240)%N then
        match s1 with
        | [] => [None]
        | b1 :: s2 =>
            if negb (is_continuation b1)
               || (if (b1 <? 160)%N then (b0 =? 224)%N else (b0 =? 237)%N)
            then None :: utf8_scan s1
            else
              match s2 with
              | [] => [None]
              | b2 :: s3 =>
                  if is_continuation b2
                  then Some (N.shiftl b0 12 + N.shiftl b1 6 + b2
                             - (N.shiftl 224 12 + N.shiftl 128 6 + 128))%N
                         :: utf8_scan s3
                  else None :: utf8_scan s2
              end
        end
      else if (b0 <? 245)%N then
        match s1 with
        | [] => [None]
        | b1 :: s2 =>
            if negb (is_continuation b1)
               || (if (b1 <? 144)%N then (b0 =? 240)%N else (b0 =? 244)%N)
            then None :: utf8_scan s1
            else
              match s2 with
              | [] => [None]
              | b2 :: s3 =>
                  if negb (is_continuation b2) then None :: utf8_scan s2
                  else
                    match s3 with
                    | [] => [None]
                    | b3 :: s4 =>
                        if is_continuation b3
                        then Some (N.shiftl b0 18 + N.shiftl b1 12
                                   + N.shiftl b2 6 + b3
                                   - (N.shiftl 240 18 + N.shiftl 128 12
                                      + N.shiftl 128 6 + 128))%N
                               :: utf8_scan s4
                        else None :: utf8_scan s3
                    end
              end
        end
      else None :: utf8_scan s1
  end.

(** [data.decode('utf-8', 'ignore')]: undecodable spans are dropped. *)
Definition decode_ignore (data : bytes) : text :=
  omap id (utf8_scan (map Byte.to_N data)).

(** The data for which the strict decoder would not raise. *)
Definition valid_utf8 (data : bytes) : bool :=
  forallb (fun o => match o with Some _ => true | None => false end)
    (utf8_scan (map Byte.to_N data)).

(** The cast to [char] of the encoder. *)
Definition byte_of (n : N) : byte := default x00 (Byte.of_N (n mod 256)%N).

Definition is_surrogate (ch : N) : bool := in_range 55296 57343 ch.

Definition encode_char (ch : N) : option bytes :=
  if (ch <? 128)%N then Some [byte_of ch]
  else if (ch <? 2048)%N then
    Some [byte_of (N.lor 192 (N.shiftr ch 6));
          byte_of (N.lor 128 (N.land ch 63))]
  else if is_surrogate ch then None
  else if (ch <? 65536)%N then
    Some [byte_of (N.lor 224 (N.shiftr ch 12));
          byte_of (N.lor 128 (N.land (N.shiftr ch 6) 63));
          byte_of (N.lor 128 (N.land ch 63))]
  else
    Some [byte_of (N.lor 240 (N.shiftr ch 18));
          byte_of (N.lor 128 (N.land (N.shiftr ch 12) 63));
          byte_of (N.lor 128 (N.land (N.shiftr ch 6) 63));
          byte_of (N.lor 128 (N.land ch 63))].

(** [text.encode('utf-8')]; [None] stands for [UnicodeEncodeError]. *)
Fixpoint encode (s : text) : option bytes :=
  match s with
  | [] => Some []
  | ch :: s' =>
      match encode_char ch, encode s' with
      | Some b, Some bs => Some (b ++ bs)
      | _, _ => None
      end
  end.

(** ** Outcomes, zip containers and the file system *)

Inductive exn : Type :=
  FileNotFoundError | BadZipFile | KeyError | RuntimeError.

Inductive outcome (A : Type) : Type :=
| Returned (a : A)
| Raised (e : exn).
Arguments Returned {A} a.
Arguments Raised {A} e.

(** The identity of a zip entry: its name and the archive metadata that
    [writestr] copies from the [ZipInfo] it is given. *)
Record ZipInfo : Type := {
  filename : string;
  date_time : list N;
  compress_type : N;
  external_attr : N;
  comment : bytes
}.

(** Why an entry of a container cannot be read: its data or its header
    is corrupt (a bad CRC, a bad or truncated header), or the entry is
    encrypted.  [read] raises [BadZipFile] on the first and
    [RuntimeError] on the second. *)
Inductive damage : Type := Corrupt | Encrypted.

Definition raised_by (why : damage) : exn :=
  match why with
  | Corrupt => BadZipFile
  | Encrypted => RuntimeError
  end.

(** What an entry holds: content that decompresses and checks, or
    damage. *)
Inductive content : Type :=
| Data (data : bytes)
| Damaged (why : damage).

(** A container: its entries in central-directory order.  In an
    [archive] every entry is given by its decompressed content; in a
    [container] an entry may be one that cannot be read.  The
    compression method of an entry is one that [zipfile] supports. *)
Abbreviation archive := (list (ZipInfo * bytes)).
Abbreviation container := (list (ZipInfo * content)).

Definition intact (z : archive) : container :=
  map (fun e => (fst e, Data (snd e))) z.

Definition infolist {A : Type} (z : list (ZipInfo * A)) : list ZipInfo :=
  map fst z.

(** The name table a [ZipFile] builds while it reads the directory: a later
    entry of the same name replaces the earlier one. *)
Definition NameToInfo {A : Type} (z : list (ZipInfo * A))
  : gmap string (ZipInfo * A) :=
  foldl (fun m e => <[filename (fst e) := e]> m) ∅ z.

(** [z.read(name)] goes through the name table, and raises when the entry
    found there cannot be read. *)
Definition read (z : container) (name : string) : outcome bytes :=
  match NameToInfo z !! name with
  | Some (_, Data data) => Returned data
  | Some (_, Damaged why) => Raised (raised_by why)
  | None => Raised KeyError
  end.

Inductive file : Type :=
| Zip (z : container)        (* a zip container *)
| OtherFile (raw : bytes).   (* anything else *)

(** A zip container whose entries can all be read. *)
Definition ZipFile (z : archive) : file := Zip (intact z).

(** [zout.writestr(item, data)]: the entry is appended with the name and
    the metadata of [item], except that an [external_attr] of 0 is
    replaced by the permissions [0o600 << 16]. *)
Definition stored_info (item : ZipInfo) : ZipInfo :=
  if N.eqb (external_attr item) 0
  then {| filename := filename item; date_time := date_time item;
          compress_type := compress_type item;
          external_attr := N.shiftl 384 16; comment := comment item |}
  else item.

Definition writestr (zout : archive) (item : ZipInfo) (data : bytes)
  : archive :=
  zout ++ [(stored_info item, data)].

(** What is left to a reader when the file it was opened on is emptied:
    the directory that was read, of which no entry can be read any more
    (the header of an entry is found truncated). *)
Definition truncated (z : container) : container :=
  map (fun e => (fst e, Damaged Corrupt)) z.

Definition startswith (s p : string) : bool := String.prefix p s.
Definition endswith (s p : string) : bool :=
  let n := String.length s in
  let k := String.length p in
  (k <=? n) && String.eqb (String.substring (n - k) k s) p.

(** [name.startswith('word/') and name.endswith('.xml')] *)
Definition qualifying (name : string) : bool :=
  startswith name "word/" && endswith name ".xml".

(** ** The container rewrite pass ([normalize_docx]) *)

(** The [try] block of the loop body: [data] and [total] on entry, and on
    exit.  When encoding raises, [data] keeps the original content while
    the counts already added to [total] stay. *)
Definition rewrite_part (enable_square : bool) (data : bytes) (total : nat)
  : bytes * nat :=
  let text := decode_ignore data in
  let '(text, n1) := _normalize_jinja_curly text in
  let total := total + n1 in
  let '(text, total) :=
    if enable_square
    then let '(text, n2) := _normalize_jinja_square text in
         (text, total + n2)
    else (text, total) in
  match encode text with
  | Some data' => (data', total)
  | None => (data, total)
  end.

(** The [for item in zin.infolist()] loop, threading the destination
    written so far and the running total. *)
Fixpoint rewrite_items (zin : container) (enable_square : bool)
  (items : list ZipInfo) (zout : archive) (total : nat)
  : archive * outcome nat :=
  match items with
  | [] => (zout, Returned total)
  | item :: items' =>
      match read zin (filename item) with
      | Raised e => (zout, Raised e)
      | Returned data =>
          let '(data, total) :=
            if qualifying (filename item)
            then rewrite_part enable_square data total
            else (data, total) in
          rewrite_items zin enable_square items' (writestr zout item data)
            total
      end
  end.

(** [normalize_docx(input_path, output_path, enable_square)] on a file
    system: the outcome of the call and the file system it leaves.  The
    source is opened (and its directory read) before the destination is
    created or, when it exists, emptied; when the destination is the
    file that the source was opened on, the reads of the loop find that
    file emptied.  When a read raises, the destination is closed with
    the entries written so far. *)
Definition normalize_docx (fs : gmap string file)
  (input_path output_path : string) (enable_square : bool)
  : outcome nat * gmap string file :=
  match fs !! input_path with
  | None => (Raised FileNotFoundError, fs)
  | Some (OtherFile _) => (Raised BadZipFile, fs)
  | Some (Zip zin) =>
      let zin :=
        if String.eqb output_path input_path then truncated zin else zin in
      let '(zout, res) :=
        rewrite_items zin enable_square (infolist zin) [] 0 in
      (res, <[output_path := ZipFile zout]> fs)
  end.

(** ** The tag census ([_detect_tags] in [main.py]) *)

(** Two opening braces, [\s*], the group (NAME), [\s*], two closing
    braces; NAME as in [name_pattern]. *)
Definition census_pattern : regex :=
  Cat (lit "{") (Cat (lit "{")
    (Cat (Star true space)
       (Cat (Group (Cat (Chr is_name_start) (Star true (Chr is_name_char))))
          (Cat (Star true space) (Cat (lit "}") (lit "}")))))).

(** The body of the inner [for m in re.finditer(...)] loop. *)
Definition note_match (acc : list text * gset text) (m : rmatch)
  : list text * gset text :=
  let '(found, seen) := acc in
  let var := default [] (group1 m) in
  if decide (var ∈ seen) then (found, seen)
  else (found ++ [var], {[var]} ∪ seen).

Definition scan_text (acc : list text * gset text) (t : text)
  : list text * gset text :=
  foldl note_match acc (finditer census_pattern t).

Fixpoint scan_items (z : container) (items : list ZipInfo)
  (acc : list text * gset text) : outcome (list text * gset text) :=
  match items with
  | [] => Returned acc
  | item :: items' =>
      if qualifying (filename item) then
        match read z (filename item) with
        | Raised e => Raised e
        | Returned data =>
            scan_items z items' (scan_text acc (decode_ignore data))
        end
      else scan_items z items' acc
  end.

(** The [try] block of [_detect_tags]. *)
Definition detect_body (fs : gmap string file) (docx_path : string)
  : outcome (list text) :=
  match fs !! docx_path with
  | None => Raised FileNotFoundError
  | Some (OtherFile _) => Raised BadZipFile
  | Some (Zip z) =>
      match scan_items z (infolist z) ([], ∅) with
      | Returned (found, _) => Returned found
      | Raised e => Raised e
      end
  end.

(** [_detect_tags(docx_path)]: the outcome of the call, and the exception
    reported through [logger.warning], if any. *)
Definition _detect_tags (fs : gmap string file) (docx_path : string)
  : outcome (list text) * option exn :=
  match detect_body fs docx_path with
  | Returned found => (Returned found, None)
  | Raised e => (Returned [], Some e)
  end.

(** ** Specification-level notions *)

(** What a successful run has consumed: [derives r w after g g'] says that
    [r] matches the word [w] when [after] follows it, turning the capture
    [g] into [g'].  A round of a star consumes at least one character. *)
Inductive derives : regex -> text -> text -> option text -> option text -> Prop :=
| D_chr p c after g : p c = true -> derives (Chr p) [c] after g g
| D_cat r1 r2 w1 w2 after g g' g'' :
    derives r1 w1 (w2 ++ after) g g' -> derives r2 w2 after g' g'' ->
    derives (Cat r1 r2) (w1 ++ w2) after g g''
| D_alt_l r1 r2 w after g g' :
    derives r1 w after g g' -> derives (Alt r1 r2) w after g g'
| D_alt_r r1 r2 w after g g' :
    derives r2 w after g g' -> derives (Alt r1 r2) w after g g'
| D_star_stop gr r after g : derives (Star gr r) [] after g g
| D_star_more gr r w1 w2 after g g' g'' :
    w1 <> [] ->
    derives r w1 (w2 ++ after) g g' -> derives (Star gr r) w2 after g' g'' ->
    derives (Star gr r) (w1 ++ w2) after g g''
| D_group r w after g g' :
    derives r w after g g' -> derives (Group r) w after g (Some w)
| D_dollar after g :
    after = [] \/ after = [10%N] -> derives Dollar [] after g g.

(** A matcher for [r] is sound when each of its successes has consumed a
    word that [r] derives. *)
Definition sound (body : (mstate -> option mstate) -> mstate -> option mstate)
  (r : regex) : Prop :=
  forall k st res, body k st = Some res ->
    exists w st', rest st = w ++ rest st' /\
                  derives r w (rest st') (grp st) (grp st') /\
                  k st' = Some res.

(** The identifier grammar, as a test. *)
Definition is_identifier (name : text) : bool :=
  match name with
  | c :: r => is_name_start c && forallb is_name_char r
  | [] => false
  end.

(** A run of inline markup tags and white space. *)
Inductive noise_seq : text -> Prop :=
| noise_nil : noise_seq []
| noise_space c w : is_space c = true -> noise_seq w -> noise_seq (c :: w)
| noise_tag body w :
    body <> [] -> Forall (fun ch => ch <> chr ">") body -> noise_seq w ->
    noise_seq (chr "<" :: body ++ chr ">" :: w).

Definition stops (p : N -> bool) (s : text) : Prop :=
  match s with [] => True | c :: _ => p c = false end.

(** Noise stops in front of anything that is neither [<] nor white. *)
Definition solid (s : text) : Prop :=
  match s with [] => True | c :: _ => c <> chr "<" /\ is_space c = false end.

(** A fragmented placeholder: the two opening characters torn apart by
    [n1], the interior, the two closing characters torn apart by [n4]. *)
Definition fragment (f : family) (n1 inner n4 : text) : text :=
  chr (open_char f) :: n1 ++ chr (open_char f) :: inner
    ++ chr (close_char f) :: n4 ++ [chr (close_char f)].

(** One inline markup tag, and what its body may be. *)
Definition markup (body : text) : text := chr "<" :: body ++ [chr ">"].

Definition tag_body (b : text) : bool :=
  match b with
  | [] => false
  | _ => forallb (fun ch => negb (N.eqb ch (chr ">"))) b
  end.

Definition free_of (a : ascii) (b : text) : bool :=
  forallb (fun ch => negb (N.eqb ch (chr a))) b.

(** The reconstructor of a family, by name. *)
Definition normalizer (f : family) : text -> text * nat :=
  match f with
  | Curly => _normalize_jinja_curly
  | Square => _normalize_jinja_square
  end.

(** [template f t t']: the text [t] consists of characters other than the
    opening character of [f] and of (possibly fragmented) placeholders,
    whose interior holds no closing character of [f]; [t'] is [t] with
    each placeholder whose cleaned interior is an identifier in canonical
    form, the others as they are. *)
Inductive template (f : family) : text -> text -> Prop :=
| tpl_end : template f [] []
| tpl_plain ch s s' :
    ch <> chr (open_char f) -> template f s s' ->
    template f (ch :: s) (ch :: s')
| tpl_placeholder n1 inner n4 name s s' :
    noise_seq n1 -> noise_seq n4 ->
    Forall (fun ch => ch <> chr (close_char f)) inner ->
    clean inner = name -> is_identifier name = true ->
    template f s s' ->
    template f (fragment f n1 inner n4 ++ s) (canonical f name ++ s')
| tpl_rejected n1 inner n4 s s' :
    noise_seq n1 -> noise_seq n4 ->
    Forall (fun ch => ch <> chr (close_char f)) inner ->
    rematch name_pattern (clean inner) = None ->
    template f s s' ->
    template f (fragment f n1 inner n4 ++ s) (fragment f n1 inner n4 ++ s').

(** The reconstruction applied to one textual part: curly always, square
    when enabled, the counts added. *)
Definition reconstruct (enable_square : bool) (t : text) : text * nat :=
  let '(t, n1) := _normalize_jinja_curly t in
  if enable_square
  then let '(t, n2) := _normalize_jinja_square t in (t, n1 + n2)
  else (t, n1).

(** What [read] returns for an entry of a container whose entries can
    all be read. *)
Definition entry_data (z : archive) (item : ZipInfo) : bytes :=
  match read (intact z) (filename item) with
  | Returned d => d
  | Raised _ => []
  end.

(** The content written for an entry and the count it adds. *)
Definition entry_step (z : archive) (sq : bool) (item : ZipInfo)
  : bytes * nat :=
  if qualifying (filename item)
  then rewrite_part sq (entry_data z item) 0
  else (entry_data z item, 0).

Definition entry_count (z : archive) (sq : bool) (item : ZipInfo) : nat :=
  if qualifying (filename item)
  then snd (reconstruct sq (decode_ignore (entry_data z item)))
  else 0.

(** Code points that [encode] accepts. *)
Definition scalar (ch : N) : Prop := is_surrogate ch = false.

(** First-seen order without duplicates. *)
Fixpoint first_seen (l : list text) : list text :=
  match l with
  | [] => []
  | x :: l' => x :: filter (fun y => y <> x) (first_seen l')
  end.

Definition var_of (m : rmatch) : text := default [] (group1 m).

(** The names matched in one text, in match order, and in the qualifying
    entries of a container, in entry order. *)
Definition names_in (t : text) : list text :=
  map var_of (finditer census_pattern t).

Definition census_names (z : archive) : list text :=
  flat_map (fun item =>
              if qualifying (filename item)
              then names_in (decode_ignore (entry_data z item))
              else []) (infolist z).

(** Two opening braces, white space, a name, white space, two closing
    braces. *)
Definition placeholder (ws1 name ws2 : text) : text :=
  str "{{" ++ ws1 ++ name ++ ws2 ++ str "}}".

(** [sub in s], on strings. *)
Fixpoint contains (s sub : text) : bool :=
  is_prefix sub s
  || match s with [] => false | _ :: s' => contains s' sub end.

(** A delimiter of the family. *)
Definition is_delimiter (f : family) (ch : N) : bool :=
  N.eqb ch (chr (open_char f)) || N.eqb ch (chr (close_char f)).

(** [tags_plain f false t]: no tag shape of [t] holds a delimiter of [f];
    that is, after a [<] there is no delimiter before the next [>] (or
    before the end of the text, when no [>] follows).  [in_tag] tells
    whether a [<] is open. *)
Fixpoint tags_plain (f : family) (in_tag : bool) (s : text) : bool :=
  match s with
  | [] => true
  | ch :: s' =>
      if in_tag then
        if N.eqb ch (chr ">") then tags_plain f false s'
        else negb (is_delimiter f ch) && tags_plain f true s'
      else tags_plain f (N.eqb ch (chr "<")) s'
  end.

(** [s] starts with the character [a], a run of noise and [a] again,
    and goes on with [s2]. *)
Definition bracket_at (a : ascii) (s s2 : text) : Prop :=
  exists n, s = chr a :: n ++ chr a :: s2 /\ noise_seq n.

Definition opener_at (f : family) (s s2 : text) : Prop :=
  bracket_at (open_char f) s s2.

Definition closer_at (f : family) (s s2 : text) : Prop :=
  bracket_at (close_char f) s s2.

Definition has_closer (f : family) (s : text) : Prop :=
  exists i s1 p, s = i ++ s1 /\ closer_at f s1 p.

(** No closing pair starts inside [inner] when [after] follows it. *)
Definition first_closer (f : family) (inner after : text) : Prop :=
  forall i1 x i2 p, inner = i1 ++ x :: i2 -> ~ closer_at f (x :: i2 ++ after) p.

(** The graph of the scan of [subn] with the pattern and the replacement
    of a family: characters at which nothing matches are copied, a match
    is replaced and the scan goes on after it. *)
Inductive rewrites (f : family) : text -> text -> Prop :=
| rw_end : rewrites f [] []
| rw_copy ch s s' :
    match_at (pattern_of f) (ch :: s) = None ->
    rewrites f s s' -> rewrites f (ch :: s) (ch :: s')
| rw_match m ch w s s' :
    match_at (pattern_of f) (ch :: w ++ s) = Some m -> group0 m = ch :: w ->
    rewrites f s s' -> rewrites f (ch :: w ++ s) (repl_of f m ++ s').

(** ** Sample inputs *)

Definition entry_info (name : string) : ZipInfo :=
  {| filename := name; date_time := [1980; 1; 1; 0; 0; 0]%N;
     compress_type := 8; external_attr := 0; comment := [] |}.

Definition utf8 (s : string) : bytes := list_byte_of_string s.

Definition sample_word_tag : text := str "/w:t".

(** Code points of Unicode. *)
Definition in_unicode (ch : N) : Prop := (ch < 1114112)%N.

(** A character that satisfies [P], or one of the three characters that
    the entities decoded by [clean] stand for. *)
Definition or_entity (P : N -> Prop) (ch : N) : Prop :=
  P ch \/ ch = chr "<" \/ ch = chr ">" \/ ch = chr "&".

(** ** The normalisation step of [process_document] ([main.py]) *)

(** [os.path.exists] *)
Definition exists_path (fs : gmap string file) (p : string) : bool :=
  bool_decide (is_Some (fs !! p)).

(** The [try] statement around [normalize_docx(file_path, normalized_path,
    enable_square=False)]: the effective path, the exception reported
    through [logger.warning], if any, and the file system left. *)
Definition normalize_upload (fs : gmap string file)
  (file_path normalized_path : string)
  : string * option exn * gmap string file :=
  match normalize_docx fs file_path normalized_path false with
  | (Returned _, fs') =>
      (if exists_path fs' normalized_path then normalized_path else file_path,
       None, fs')
  | (Raised e, fs') => (file_path, Some e, fs')
  end.

(** The same statement followed by [detected = _detect_tags(effective_path)]:
    the effective path, the detected names and the file system left. *)
Definition detect_upload (fs : gmap string file)
  (file_path normalized_path : string)
  : string * outcome (list text) * gmap string file :=
  let '(effective_path, _, fs') :=
    normalize_upload fs file_path normalized_path in
  (effective_path, fst (_detect_tags fs' effective_path), fs').

(** ** The command line of the reconstructor ([main] in
    [clean_docx_fragments.py]) *)

(** What [parser.parse_args()] returns. *)
Record Namespace : Type := {
  arg_input : string;
  arg_output : option string;
  arg_inplace : bool;
  arg_enable_square : bool
}.

(** The lines printed: the usage error goes to [stderr], the two reports
    to [stdout]; a report carries the count and the path it names. *)
Inductive printed : Type :=
| usage_error
| done_inplace (count : nat) (path : string)
| done_output (count : nat) (path : string).

(** How [main] ends: it returns, [sys.exit(code)] is called, or an
    exception leaves it. *)
Inductive ending : Type :=
| Completed
| SystemExit (code : nat)
| Uncaught (e : exn).

(** [os.path.join(d, name)] for a relative [name]. *)
Definition path_join (d name : string) : string := d +:+ "/" +:+ name.

(** The path [p] lies below the directory [d]. *)
Definition under (d p : string) : bool := String.prefix (d +:+ "/") p.

(** Leaving [with tempfile.TemporaryDirectory() as td]: the directory and
    what it holds are removed. *)
Definition cleanup (td : string) (fs : gmap string file) : gmap string file :=
  filter (fun e => under td (fst e) = false) fs.

(** [shutil.move(src, dst)] of a file onto a file path. *)
Definition move (fs : gmap string file) (src dst : string)
  : outcome (gmap string file) :=
  match fs !! src with
  | Some f => Returned (<[dst := f]> (delete src fs))
  | None => Raised FileNotFoundError
  end.

(** The truth value of an optional string, such as [args.output]: given
    and not empty. *)
Definition given (o : option string) : bool :=
  match o with
  | Some s => negb (String.eqb s "")
  | None => false
  end.

(** [main()], for the parsed arguments [args] and the directory [td] that
    [tempfile.TemporaryDirectory()] creates, where the directory of the
    output path exists.  Paths are names of files and directories are
    not part of the file system here: the call
    [os.makedirs(os.path.dirname(out) or '.', exist_ok=True)] of the
    output mode, which has nothing to do when the directory exists and
    otherwise makes it or raises, has no counterpart. *)
Definition main (td : string) (args : Namespace) (fs : gmap string file)
  : ending * list printed * gmap string file :=
  if negb (given (arg_output args)) && negb (arg_inplace args)
  then (SystemExit 2, [usage_error], fs)
  else if arg_inplace args then
    let tmp_out := path_join td "normalized.docx" in
    match normalize_docx fs (arg_input args) tmp_out (arg_enable_square args) with
    | (Returned count, fs1) =>
        match move fs1 tmp_out (arg_input args) with
        | Returned fs2 =>
            (Completed, [done_inplace count (arg_input args)], cleanup td fs2)
        | Raised e => (Uncaught e, [], cleanup td fs1)
        end
    | (Raised e, fs1) => (Uncaught e, [], cleanup td fs1)
    end
  else
    let out := default ""%string (arg_output args) in
    match normalize_docx fs (arg_input args) out (arg_enable_square args) with
    | (Returned count, fs1) => (Completed, [done_output count out], fs1)
    | (Raised e, fs1) => (Uncaught e, [], fs1)
    end.

(** ** Download names ([_build_filename] and [_sanitize_filename] in
    [main.py]) *)

(** [s.strip()]: white space, in the sense of [str.isspace], is removed at
    both ends. *)
Fixpoint lstrip (s : text) : text :=
  match s with
  | c :: s' => if is_space c then lstrip s' else s
  | [] => []
  end.

Definition rstrip (s : text) : text := rev (lstrip (rev s)).

Definition strip (s : text) : text := rstrip (lstrip s).

(** [s.rfind(c)]: the last index of [c] in [s], or -1. *)
Fixpoint rfind_from (c : N) (s : text) (i found : Z) : Z :=
  match s with
  | [] => found
  | x :: s' => rfind_from c s' (i + 1)%Z (if N.eqb x c then i else found)
  end.

Definition rfind (c : N) (s : text) : Z := rfind_from c s 0%Z (-1)%Z.

(** [s[i:j]] and [s[i:]] for indices that are not negative. *)
Definition slice (s : text) (i j : Z) : text :=
  take (Z.to_nat j - Z.to_nat i) (drop (Z.to_nat i) s).

Definition slice_from (s : text) (i : Z) : text := drop (Z.to_nat i) s.

(** [os.path.basename(p)], as [posixpath] defines it. *)
Definition basename (p : text) : text :=
  let i := (rfind (chr "/") p + 1)%Z in
  slice_from p i.

(** The loop of [genericpath._splitext] that skips leading dots: whether
    some character of the slice is not a dot. *)
Fixpoint not_only_dots (l : text) : bool :=
  match l with
  | [] => false
  | c :: l' => if negb (N.eqb c (chr ".")) then true else not_only_dots l'
  end.

(** [os.path.splitext(p)], as [posixpath] defines it. *)
Definition splitext (p : text) : text * text :=
  let sepIndex := rfind (chr "/") p in
  let dotIndex := rfind (chr ".") p in
  if (sepIndex <? dotIndex)%Z then
    let filenameIndex := (sepIndex + 1)%Z in
    if not_only_dots (slice p filenameIndex dotIndex)
    then (slice p 0 dotIndex, slice_from p dotIndex)
    else (p, [])
  else (p, []).

(** [s.endswith(suffix)] *)
Definition ends_with (s suffix : text) : bool :=
  is_prefix (rev suffix) (rev s).

(** [[A-Za-z0-9._-]] *)
Definition is_filename_char (c : N) : bool :=
  in_range 65 90 c || in_range 97 122 c || in_range 48 57 c
  || N.eqb c 46 || N.eqb c 95 || N.eqb c 45.

(** The complement of that class, once or more. *)
Definition unsafe_run : regex :=
  plus (Chr (fun c => negb (is_filename_char c))).

(** [requested or default_name] *)
Definition or_default (requested : option text) (default_name : text) : text :=
  match requested with
  | Some (c :: r) => c :: r
  | _ => default_name
  end.

Section Filenames.
(** [str.lower], the case mapping of the Unicode database. *)
Variable lower : text -> text.

Definition _build_filename (requested : option text) (ext default_name : text)
  : text :=
  let name := strip (or_default requested default_name) in
  let name := basename name in
  let name :=
    if negb (ends_with (lower name) ext)
    then fst (splitext name) ++ ext
    else name in
  let name := sub unsafe_run (str "_") name in
  if bool_decide (name = []) || bool_decide (name = str ".")
     || bool_decide (name = str "..")
  then default_name
  else name.

Definition _sanitize_filename (requested : option text) : text :=
  let name := strip (or_default requested (str "merged.pdf")) in
  let name := basename name in
  let name :=
    if negb (ends_with (lower name) (str ".pdf"))
    then fst (splitext name) ++ str ".pdf"
    else name in
  let name := sub unsafe_run (str "_") name in
  if bool_decide (name = []) || bool_decide (name = str ".")
     || bool_decide (name = str "..")
  then str "merged.pdf"
  else name.
End Filenames.

(** A name that is safe to hand out: not empty, not a dot name, made of
    characters of the class only. *)
Definition safe_name (name : text) : Prop :=
  name <> [] /\ name <> str "." /\ name <> str ".." /\
  Forall (fun c => is_filename_char c = true) name.

(** [str.lower] on ASCII text: the letters A to Z are mapped, the other
    characters are kept. *)
Definition lower_letter (c : N) : N :=
  if in_range 65 90 c then (c + 32)%N else c.

Definition ascii_lower (s : text) : text := map lower_letter s.

(** ** Template ids and blob names ([main.py]) *)

(** [s.split(sep)] for a separator of one character. *)
Fixpoint split_go (sep : N) (s cur : text) : list text :=
  match s with
  | [] => [cur]
  | c :: s' =>
      if N.eqb c sep then cur :: split_go sep s' []
      else split_go sep s' (cur ++ [c])
  end.

Definition split (sep : N) (s : text) : list text := split_go sep s [].

(** The name under which a template is stored: the API key, a slash,
    the template id and [.docx]. *)
Definition blob_name (api_key template_id : text) : text :=
  api_key ++ str "/" ++ template_id ++ str ".docx".

(** The id shown for a stored name: the last piece of the name split at
    slashes, without its last five characters. *)
Definition listed_id (name : text) : text :=
  let piece := List.last (split (chr "/") name) [] in
  take (length piece - 5) piece.

(** ** Quotas ([PLANS], [check_quota_or_raise] and
    [consume_quota_transaction] in [main.py]) *)

(** The values of the fields of a document of the collection [api_keys]:
    those that the service writes (strings, integers, booleans and a
    time stamp), and [None]. *)
Inductive value : Type :=
| VNone
| VBool (b : bool)
| VInt (n : Z)
| VStr (s : string)
| VTime (t : Z).

Abbreviation document := (gmap string value).

(** The collection: documents by id. *)
Abbreviation collection := (gmap string document).

Inductive error : Type :=
| HTTPException (status_code : nat)
| TypeError
| ValueError
| FieldKeyError      (* [KeyError], for a field that the snapshot lacks *)
| NotFound.          (* of [google.api_core.exceptions] *)

(** The monthly quota of each plan; [None] is no quota. *)
Definition PLANS : gmap string (option Z) :=
  {[ "gratuit"%string := Some 50%Z; "starter"%string := Some 500%Z;
     "pro"%string := Some 5000%Z; "illimite"%string := None ]}.

(** [PLANS.get(k)]: [None] for the plan without quota and for what is
    not a plan. *)
Definition PLANS_get (k : value) : option Z :=
  match k with
  | VStr s => mjoin (PLANS !! s)
  | _ => None
  end.

(** The truth value of a field. *)
Definition truthy (v : value) : bool :=
  match v with
  | VNone => false
  | VBool b => b
  | VInt n => negb (n =? 0)%Z
  | VStr s => negb (String.eqb s "")
  | VTime _ => true
  end.

Definition int_of_bool (b : bool) : Z := if b then 1%Z else 0%Z.

(** [v >= q] for an integer [q]; [None] stands for [TypeError]. *)
Definition ge_int (v : value) (q : Z) : option bool :=
  match v with
  | VInt n => Some (q <=? n)%Z
  | VBool b => Some (q <=? int_of_bool b)%Z
  | _ => None
  end.

(** [v + 1]; [None] stands for [TypeError]. *)
Definition add_one (v : value) : option value :=
  match v with
  | VInt n => Some (VInt (n + 1))
  | VBool b => Some (VInt (int_of_bool b + 1))
  | _ => None
  end.

(** [check_quota_or_raise(api_key)], for the flag [GCP_DISABLED] and the
    client [db] ([None] when Firestore could not be initialised): [None]
    when the call returns, the exception otherwise. *)
Definition check_quota_or_raise (GCP_DISABLED : bool)
  (db : option collection) (api_key : string) : option error :=
  if GCP_DISABLED then None
  else
    match db with
    | None => Some (HTTPException 503)
    | Some keys =>
        match keys !! api_key with
        | None => Some (HTTPException 401)
        | Some data =>
            if negb (truthy (default (VBool true) (data !! "is_active"%string)))
            then Some (HTTPException 403)
            else
              match PLANS_get (default (VStr "gratuit")
                                 (data !! "plan"%string)) with
              | None => None
              | Some quota =>
                  match ge_int (default (VInt 0)
                                  (data !! "quota_used"%string)) quota with
                  | None => Some TypeError
                  | Some true => Some (HTTPException 429)
                  | Some false => None
                  end
              end
        end
    end.

(** [consume_quota_transaction(transaction, key_ref)] on the collection:
    the collection after the update, or the exception. *)
Definition consume_quota_transaction (keys : collection) (api_key : string)
  : collection + error :=
  match keys !! api_key with
  | None => inr ValueError
  | Some data =>
      match data !! "quota_used"%string with
      | None => inr FieldKeyError
      | Some v =>
          match add_one v with
          | None => inr TypeError
          | Some new_usage =>
              inl (<[api_key := <["quota_used"%string := new_usage]> data]> keys)
          end
      end
  end.

(** [plan or "gratuit"] *)
Definition or_gratuit (plan : option string) : string :=
  match plan with
  | Some p => if String.eqb p "" then "gratuit" else p
  | None => "gratuit"
  end.

(** The document that the action [create_key] of [clients_manager]
    stores for a new key. *)
Definition create_key_data (name : string) (plan : option string) (now : Z)
  : document :=
  {[ "name"%string := VStr name;
     "plan"%string := VStr (or_gratuit plan);
     "quota_used"%string := VInt 0;
     "is_active"%string := VBool true;
     "created_at"%string := VTime now ]}.

(** What [process_document] and [merge_pdf] do with the quota when the
    work in between succeeds: the check first, the consumption last. *)
Definition use_once (keys : collection) (api_key : string)
  : collection + error :=
  match check_quota_or_raise false (Some keys) api_key with
  | Some e => inr e
  | None => consume_quota_transaction keys api_key
  end.

Fixpoint use_times (n : nat) (keys : collection) (api_key : string)
  : collection + error :=
  match n with
  | O => inl keys
  | S n' =>
      match use_once keys api_key with
      | inl keys' => use_times n' keys' api_key
      | inr e => inr e
      end
  end.

(** ** The administration of keys ([admin_required] and
    [clients_manager] in [main.py]) *)

Definition is_ascii_string (s : string) : bool :=
  forallb (fun a => (N_of_ascii a <? 128)%N) (list_ascii_of_string s).

(** [secrets.compare_digest(a, b)] on two [str]; [None] stands for the
    [TypeError] raised when one of them is not ASCII. *)
Definition compare_digest (a b : string) : option bool :=
  if is_ascii_string a && is_ascii_string b
  then Some (String.eqb a b)
  else None.

(** [admin_required(request)], for the configured [ADMIN_TOKEN] and the
    value of the header [X-Admin-Token]: [None] when the call returns. *)
Definition admin_required (ADMIN_TOKEN token : option string) : option error :=
  if negb (given ADMIN_TOKEN) then Some (HTTPException 503)
  else if negb (given token) then Some (HTTPException 401)
  else
    match compare_digest (default ""%string token)
            (default ""%string ADMIN_TOKEN) with
    | None => Some TypeError
    | Some true => None
    | Some false => Some (HTTPException 401)
    end.

(** The answers of [clients_manager]. *)
Inductive reply : Type :=
| created_key (api_key : string) (details : document)
| listed_keys (keys : gmap string document)
| key_details (details : document)
| status (s : string).

(** The entry of [list_keys] for a document: five fields, with their
    defaults. *)
Definition key_summary (data : document) : document :=
  {[ "name"%string := default (VStr "Client inconnu") (data !! "name"%string);
     "plan"%string := default (VStr "gratuit") (data !! "plan"%string);
     "quota_used"%string := default (VInt 0) (data !! "quota_used"%string);
     "is_active"%string := default (VBool true) (data !! "is_active"%string);
     "created_at"%string := default VNone (data !! "created_at"%string) ]}.

(** The fields that [update_key] changes: those of [plan] and
    [is_active] that are not [None]. *)
Definition update_fields (plan : option string) (is_active : option bool)
  : list (string * value) :=
  match plan with Some p => [("plan"%string, VStr p)] | None => [] end
  ++ match is_active with
     | Some b => [("is_active"%string, VBool b)]
     | None => []
     end.

(** [doc_ref.update(fields)] on a document that exists. *)
Definition update_document (fields : list (string * value)) (data : document)
  : document :=
  foldl (fun d kv => <[fst kv := snd kv]> d) data fields.

(** [clients_manager], for the configuration, the token of the request,
    the hexadecimal form of the UUID drawn for a new key, the time, and
    the form fields: the answer or the exception, and the collection
    left.  Document ids hold no slash. *)
Definition clients_manager (ADMIN_TOKEN token : option string)
  (db : option collection) (uuid_hex : string) (now : Z)
  (action : string) (client_api_key plan : option string)
  (is_active : option bool) (name : option string)
  : (reply + error) * option collection :=
  match admin_required ADMIN_TOKEN token with
  | Some e => (inr e, db)
  | None =>
      match db with
      | None => (inr (HTTPException 503), db)
      | Some keys =>
          if String.eqb action "create_key" then
            if negb (given name) then (inr (HTTPException 400), db)
            else
              let new_key := ("sk_" +:+ uuid_hex)%string in
              let data := create_key_data (default ""%string name) plan now in
              (inl (created_key new_key data), Some (<[new_key := data]> keys))
          else if String.eqb action "list_keys" then
            (inl (listed_keys (key_summary <$> keys)), db)
          else if negb (given client_api_key) then
            (inr (HTTPException 400), db)
          else
            let k := default ""%string client_api_key in
            if String.eqb action "get_details" then
              match keys !! k with
              | None => (inr (HTTPException 404), db)
              | Some d => (inl (key_details d), db)
              end
            else if String.eqb action "update_key" then
              match update_fields plan is_active with
              | [] => (inr (HTTPException 400), db)
              | fields =>
                  match keys !! k with
                  | None => (inr NotFound, db)
                  | Some d =>
                      (inl (status "updated"),
                       Some (<[k := update_document fields d]> keys))
                  end
              end
            else if String.eqb action "delete_key" then
              (inl (status "deleted"), Some (delete k keys))
            else if String.eqb action "reset_quota" then
              match keys !! k with
              | None => (inr NotFound, db)
              | Some d =>
                  (inl (status "quota_reset"),
                   Some (<[k := <["quota_used"%string := VInt 0]> d]> keys))
              end
            else (inr (HTTPException 400), db)
      end
  end.

(** The state of a key: active, on plan [p], with [used] documents
    consumed. *)
Definition key_state (keys : collection) (k p : string) (used : Z) : Prop :=
  exists d, keys !! k = Some d /\
            d !! "is_active"%string = Some (VBool true) /\
            d !! "plan"%string = Some (VStr p) /\
            d !! "quota_used"%string = Some (VInt used).

(** ** More sample inputs *)

(** A textual part without candidates: ASCII, a two-byte character and
    square brackets that do not pair up. *)
Definition sample_plain_part : bytes :=
  utf8 "<w:t>caf" ++ [xc3; xa9] ++ utf8 " [x] }</w:t>".

Definition sample_plain_docx : archive :=
  [(entry_info "word/document.xml", sample_plain_part);
   (entry_info "word/media/image1.png", [x89; x50; x4e; x47; xff])].

Definition sample_fragmented_docx : archive :=
  [(entry_info "word/document.xml", utf8 "<w:t>{</w:t><w:t>{a}}</w:t>");
   (entry_info "word/media/image1.png", [x89; x50; x4e; x47; xff]);
   (entry_info "docProps/app.xml", utf8 "{<b>{z}}")].

(** ** The matcher: extensionality, soundness, unfolding of the star *)

Lemma orelse_Some {A} (x y : option A) (r : A) :
  orelse x y = Some r -> x = Some r \/ (x = None /\ y = Some r).
Proof. destruct x; simpl; intros H; [left | right]; auto. Qed.

Lemma orelse_None_r {A} (x : option A) : orelse x None = x.
Proof. now destruct x. Qed.

Section IterateFacts.
Variable body : (mstate -> option mstate) -> mstate -> option mstate.
Hypothesis body_ext : forall k k' st,
    (forall st', k st' = k' st') -> body k st = body k' st.

Lemma iterate_ext g k k' n st :
  (forall st', k st' = k' st') -> iterate body g k n st = iterate body g k' n st.
Proof.
  intros Hk. revert st. induction n as [|n IH]; intros st; simpl; [apply Hk|].
  rewrite (Hk st).
  rewrite (body_ext _ (fun st' => if length (rest st') <? length (rest st)
                                  then iterate body g k' n st' else None) st).
  - reflexivity.
  - intros st'. destruct (_ <? _); [apply IH | reflexivity].
Qed.
End IterateFacts.

Lemma run_ext r : forall k k' st,
    (forall st', k st' = k' st') -> run r k st = run r k' st.
Proof.
  induction r as [p | r1 IH1 r2 IH2 | r1 IH1 r2 IH2 | g r IH | r IH | ];
    intros k k' st Hk; simpl.
  - destruct (rest st) as [|c s']; [reflexivity|]. destruct (p c); [apply Hk | reflexivity].
  - apply IH1. intros st'. now apply IH2.
  - now rewrite (IH1 k k' st Hk), (IH2 k k' st Hk).
  - now apply iterate_ext.
  - apply IH. intros st'. apply Hk.
  - destruct (rest st) as [|c [|c' s']]; [apply Hk | | reflexivity].
    destruct (N.eqb c 10); [apply Hk | reflexivity].
Qed.

Lemma iterate_sound body r g :
  sound body r ->
  forall n k st res, iterate body g k n st = Some res ->
    exists w st', rest st = w ++ rest st' /\
                  derives (Star g r) w (rest st') (grp st) (grp st') /\
                  k st' = Some res.
Proof.
  intros Hb n k. induction n as [|n IH]; intros st res H; simpl in H.
  - exists [], st. repeat split; auto. constructor.
  - assert (Hagain :
      body (fun st' => if length (rest st') <? length (rest st)
                       then iterate body g k n st' else None) st = Some res ->
      exists w st', rest st = w ++ rest st' /\
                    derives (Star g r) w (rest st') (grp st) (grp st') /\
                    k st' = Some res).
    { intros Ha. apply Hb in Ha. destruct Ha as (w1 & st1 & E1 & D1 & K1).
      destruct (_ <? _) eqn:Hlt; [|discriminate].
      apply Nat.ltb_lt in Hlt.
      apply IH in K1. destruct K1 as (w2 & st2 & E2 & D2 & K2).
      exists (w1 ++ w2), st2. repeat split; auto.
      - rewrite E1, E2. now rewrite app_assoc.
      - econstructor; [| |exact D2].
        + intros ->. rewrite E1 in Hlt. simpl in Hlt. lia.
        + now rewrite <- E2. }
    assert (Hstop : k st = Some res ->
      exists w st', rest st = w ++ rest st' /\
                    derives (Star g r) w (rest st') (grp st) (grp st') /\
                    k st' = Some res).
    { intros Hk. exists [], st. repeat split; auto. constructor. }
    destruct g; apply orelse_Some in H; destruct H as [H | [_ H]]; auto.
Qed.

Lemma run_sound r : sound (run r) r.
Proof.
  induction r as [p | r1 IH1 r2 IH2 | r1 IH1 r2 IH2 | g r IH | r IH | ];
    intros k st res H; simpl in H.
  - destruct st as [s g]; simpl in *. destruct s as [|c s']; [discriminate|].
    destruct (p c) eqn:Hp; [|discriminate].
    exists [c], (MState s' g). repeat split; auto. now constructor.
  - apply IH1 in H. destruct H as (w1 & st1 & E1 & D1 & K1).
    apply IH2 in K1. destruct K1 as (w2 & st2 & E2 & D2 & K2).
    exists (w1 ++ w2), st2. repeat split; auto.
    + rewrite E1, E2. now rewrite app_assoc.
    + econstructor; [|exact D2]. now rewrite <- E2.
  - apply orelse_Some in H. destruct H as [H | [_ H]].
    + apply IH1 in H. destruct H as (w & st' & E & D & K).
      exists w, st'. repeat split; auto. now apply D_alt_l.
    + apply IH2 in H. destruct H as (w & st' & E & D & K).
      exists w, st'. repeat split; auto. now apply D_alt_r.
  - eapply iterate_sound; eauto.
  - apply IH in H. destruct H as (w & st' & E & D & K). simpl in K.
    eexists w, (MState (rest st') (Some _)). simpl. repeat split; eauto.
    replace (firstn _ _) with w.
    + econstructor; eauto.
    + rewrite E, length_app. replace (_ + _ - _) with (length w) by lia.
      now rewrite firstn_app, Nat.sub_diag, firstn_all, firstn_O, app_nil_r.
  - destruct st as [s g]; simpl in *.
    destruct s as [|c [|c' s']]; [| |discriminate].
    + exists [], (MState [] g). repeat split; auto. constructor. now left.
    + destruct (N.eqb c 10) eqn:Hc; [|discriminate].
      apply N.eqb_eq in Hc. subst c.
      exists [], (MState [10%N] g). repeat split; auto. constructor. now right.
Qed.

Lemma run_none r st : run r (fun _ => None) st = None.
Proof.
  destruct (run r (fun _ => None) st) eqn:H; [|reflexivity].
  apply run_sound in H. destruct H as (? & ? & _ & _ & H). discriminate.
Qed.

Lemma match_at_sound pat s mt :
  match_at pat s = Some mt ->
  exists after, s = group0 mt ++ after /\
                derives pat (group0 mt) after None (group1 mt).
Proof.
  unfold match_at. destruct (run pat Some (MState s None)) as [st|] eqn:H; [|discriminate].
  intros [= <-]. simpl.
  apply run_sound in H. destruct H as (w & st' & E & D & [= ->]). simpl in *.
  exists (rest st). subst s.
  rewrite length_app. replace (_ + _ - _) with (length w) by lia.
  rewrite firstn_app, Nat.sub_diag, firstn_all, firstn_O, app_nil_r. auto.
Qed.

Lemma iterate_fuel r g k : forall n m st,
    length (rest st) <= n -> length (rest st) <= m ->
    iterate (run r) g k n st = iterate (run r) g k m st.
Proof.
  assert (Hzero : forall m st, length (rest st) = 0 ->
            iterate (run r) g k m st = k st).
  { intros [|m] st Hl; simpl; [reflexivity|].
    rewrite (run_ext r _ (fun _ => None)).
    - rewrite run_none. destruct g; simpl; [reflexivity | apply orelse_None_r].
    - intros st'. rewrite Hl. reflexivity. }
  induction n as [|n IH]; intros m st Hn Hm.
  - rewrite !Hzero by lia. reflexivity.
  - destruct m as [|m]; [rewrite !Hzero by lia; reflexivity|].
    simpl.
    rewrite (run_ext r _ (fun st' => if length (rest st') <? length (rest st)
                                     then iterate (run r) g k m st' else None)).
    + reflexivity.
    + intros st'. destruct (_ <? _) eqn:Hlt; [|reflexivity].
      apply Nat.ltb_lt in Hlt. apply IH; lia.
Qed.

(** One round of a star, whatever the subject. *)
Lemma run_star g r k st :
  run (Star g r) k st =
    let again := run r (fun st' => if length (rest st') <? length (rest st)
                                   then run (Star g r) k st' else None) st in
    if g then orelse again (k st) else orelse (k st) again.
Proof.
  cbv zeta. change (run (Star g r) k st)
    with (iterate (run r) g k (length (rest st)) st).
  rewrite (iterate_fuel r g k _ (S (length (rest st)))) by lia.
  simpl.
  rewrite (run_ext r _ (fun st' => if length (rest st') <? length (rest st)
                                   then iterate (run r) g k (length (rest st')) st'
                                   else None)).
  - reflexivity.
  - intros st'. destruct (_ <? _) eqn:Hlt; [|reflexivity].
    apply Nat.ltb_lt in Hlt. apply iterate_fuel; lia.
Qed.

(** ** Scanning: what [subn] does at a match, off a match, under a match *)

Lemma subn_go_zero pat repl : forall s skip out,
    subn_go pat repl skip s = (out, 0) -> out = skipn skip s.
Proof.
  induction s as [|c s IH]; intros skip out H; simpl in H.
  - destruct skip; [destruct (match_at pat [])|]; inversion H; now rewrite ?skipn_nil.
  - destruct skip as [|skip]; [|now apply IH].
    destruct (match_at pat (c :: s)) as [mt|].
    + destruct (length (group0 mt));
        destruct (subn_go pat repl _ s); inversion H.
    + destruct (subn_go pat repl 0 s) as [out' n'] eqn:E.
      inversion H; subst. now rewrite (IH 0 out' E).
Qed.

Lemma subn_go_skip pat repl w s :
  subn_go pat repl (length w) (w ++ s) = subn_go pat repl 0 s.
Proof. induction w as [|c w IH]; simpl; auto. Qed.

Lemma subn_go_off pat repl c s :
  match_at pat (c :: s) = None ->
  subn_go pat repl 0 (c :: s) =
    (c :: fst (subn_go pat repl 0 s), snd (subn_go pat repl 0 s)).
Proof. intros H. simpl. rewrite H. now destruct (subn_go pat repl 0 s). Qed.

Lemma subn_go_at pat repl c w s mt :
  match_at pat (c :: w ++ s) = Some mt -> group0 mt = c :: w ->
  subn_go pat repl 0 (c :: w ++ s) =
    (repl mt ++ fst (subn_go pat repl 0 s), S (snd (subn_go pat repl 0 s))).
Proof.
  intros H E. simpl. rewrite H, E. simpl. rewrite subn_go_skip.
  now destruct (subn_go pat repl 0 s).
Qed.

Lemma subn_go_run pat repl w s :
  (forall w1 c w2, w = w1 ++ c :: w2 -> match_at pat (c :: w2 ++ s) = None) ->
  subn_go pat repl 0 (w ++ s) =
    (w ++ fst (subn_go pat repl 0 s), snd (subn_go pat repl 0 s)).
Proof.
  induction w as [|c w IH]; intros H; cbn [app].
  - now destruct (subn_go pat repl 0 s).
  - rewrite subn_go_off by (apply (H [] c w); reflexivity).
    rewrite IH; [reflexivity|].
    intros w1 c' w2 ->. apply (H (c :: w1) c' w2). reflexivity.
Qed.

(** ** Running the pieces of the patterns *)

Lemma run_chr_cons p k c s g :
  run (Chr p) k (MState (c :: s) g) = if p c then k (MState s g) else None.
Proof. reflexivity. Qed.

Lemma run_lit_hit a k s g : run (lit a) k (MState (chr a :: s) g) = k (MState s g).
Proof. unfold lit. rewrite run_chr_cons. now rewrite N.eqb_refl. Qed.

Lemma run_lit_miss a k c s g :
  c <> chr a -> run (lit a) k (MState (c :: s) g) = None.
Proof.
  intros H. unfold lit. rewrite run_chr_cons.
  destruct (N.eqb_spec (chr a) c); congruence.
Qed.

Lemma shorter_tail {A} (c : A) (s : list A) : (length s <? length (c :: s)) = true.
Proof. apply Nat.ltb_lt. simpl. lia. Qed.

Lemma run_class_stop g p k s gr :
  stops p s -> run (Star g (Chr p)) k (MState s gr) = k (MState s gr).
Proof.
  intros H. rewrite run_star. cbv zeta.
  destruct s as [|c s]; simpl in H.
  - change (run (Chr p) _ (MState [] gr)) with (@None mstate).
    destruct g; simpl; [reflexivity | apply orelse_None_r].
  - rewrite run_chr_cons, H. destruct g; simpl; [reflexivity | apply orelse_None_r].
Qed.

Lemma run_class_greedy p k w s g res :
  Forall (fun c => p c = true) w ->
  run (Star true (Chr p)) k (MState s g) = Some res ->
  run (Star true (Chr p)) k (MState (w ++ s) g) = Some res.
Proof.
  intros Hw Hs. induction Hw as [|c w Hc _ IH]; [exact Hs|].
  cbn [app]. rewrite run_star. cbv zeta.
  rewrite run_chr_cons, Hc. cbn [rest]. rewrite shorter_tail. rewrite IH. reflexivity.
Qed.

Lemma run_not_lit_pass a k c s g :
  c <> chr a -> run (not_lit a) k (MState (c :: s) g) = k (MState s g).
Proof.
  intros H. unfold not_lit. rewrite run_chr_cons.
  destruct (N.eqb_spec (chr a) c); [congruence | reflexivity].
Qed.

Lemma run_until_gt k body s g :
  Forall (fun ch => ch <> chr ">") body ->
  run (Star true (not_lit ">")) (run (lit ">") k)
    (MState (body ++ chr ">" :: s) g) = k (MState s g).
Proof.
  intros Hb. induction Hb as [|b body Hne _ IH]; cbn [app].
  - unfold not_lit. rewrite run_class_stop; [apply run_lit_hit | reflexivity].
  - rewrite run_star. cbv zeta.
    rewrite run_not_lit_pass by assumption.
    cbn [rest]. rewrite shorter_tail, IH.
    rewrite run_lit_miss by assumption. apply orelse_None_r.
Qed.

Lemma run_tag k body s g :
  body <> [] -> Forall (fun ch => ch <> chr ">") body ->
  run tag k (MState (chr "<" :: body ++ chr ">" :: s) g) = k (MState s g).
Proof.
  intros Hne Hb. destruct body as [|b body]; [congruence|].
  inversion Hb as [|? ? Hb1 Hb2]; subst.
  unfold tag, plus.
  change (run (Cat ?a ?b) ?k ?st) with (run a (run b k) st).
  rewrite run_lit_hit. cbn [app].
  change (run (Cat ?a ?b) ?k ?st) with (run a (run b k) st).
  change (run (Cat ?a ?b) ?k ?st) with (run a (run b k) st).
  rewrite run_not_lit_pass by assumption.
  now apply run_until_gt.
Qed.

Lemma run_space_hit k c s g :
  is_space c = true -> run space k (MState (c :: s) g) = k (MState s g).
Proof. intros H. unfold space. now rewrite run_chr_cons, H. Qed.

Lemma run_space_miss k c s g :
  is_space c = false -> run space k (MState (c :: s) g) = None.
Proof. intros H. unfold space. now rewrite run_chr_cons, H. Qed.

Lemma run_tag_miss k c s g :
  c <> chr "<" -> run tag k (MState (c :: s) g) = None.
Proof.
  intros H. unfold tag.
  change (run (Cat ?a ?b) ?k ?st) with (run a (run b k) st).
  now apply run_lit_miss.
Qed.

Lemma run_alt r1 r2 k st :
  run (Alt r1 r2) k st = orelse (run r1 k st) (run r2 k st).
Proof. reflexivity. Qed.

Lemma run_noise_stop k s g :
  solid s -> run noise k (MState s g) = k (MState s g).
Proof.
  intros H. unfold noise. rewrite run_star. cbv zeta. rewrite run_alt.
  destruct s as [|c s]; [reflexivity|]. destruct H as [H1 H2].
  now rewrite run_tag_miss, run_space_miss by assumption.
Qed.

Lemma run_noise_tag k body s g :
  body <> [] -> Forall (fun ch => ch <> chr ">") body ->
  run noise k (MState (chr "<" :: body ++ chr ">" :: s) g) =
    orelse (run noise k (MState s g))
           (k (MState (chr "<" :: body ++ chr ">" :: s) g)).
Proof.
  intros Hne Hb. unfold noise at 1. rewrite run_star. cbv zeta. rewrite run_alt.
  rewrite run_tag by assumption. cbn [rest].
  replace (length s <? _) with true.
  2:{ symmetry. apply Nat.ltb_lt. simpl. rewrite length_app. simpl. lia. }
  rewrite run_space_miss by reflexivity. rewrite orelse_None_r. reflexivity.
Qed.

Lemma run_noise_space k c s g :
  is_space c = true ->
  run noise k (MState (c :: s) g) =
    orelse (run noise k (MState s g)) (k (MState (c :: s) g)).
Proof.
  intros Hc. unfold noise at 1. rewrite run_star. cbv zeta. rewrite run_alt.
  rewrite run_tag_miss.
  2:{ intros ->. discriminate. }
  cbn [orelse]. rewrite run_space_hit by assumption. cbn [rest].
  now rewrite shorter_tail.
Qed.

Lemma run_noise_seq k n s g res :
  noise_seq n ->
  run noise k (MState s g) = Some res ->
  run noise k (MState (n ++ s) g) = Some res.
Proof.
  intros Hn Hs. induction Hn as [|c w Hc _ IH|body w Hne Hb _ IH]; cbn [app].
  - exact Hs.
  - rewrite run_noise_space, IH by assumption. reflexivity.
  - rewrite <- app_assoc. cbn [app].
    rewrite run_noise_tag, IH by assumption. reflexivity.
Qed.

Lemma run_lazy_hit k s g res :
  k (MState s g) = Some res -> run (Star false any) k (MState s g) = Some res.
Proof. intros H. rewrite run_star. cbv zeta. now rewrite H. Qed.

Lemma run_lazy_skip k w s g :
  (forall w1 c w2, w = w1 ++ c :: w2 -> k (MState (c :: w2 ++ s) g) = None) ->
  run (Star false any) k (MState (w ++ s) g) =
    run (Star false any) k (MState s g).
Proof.
  induction w as [|c w IH]; intros H; [reflexivity|]. cbn [app].
  rewrite run_star. cbv zeta. rewrite (H [] c w eq_refl). cbn [orelse].
  unfold any at 1. rewrite run_chr_cons. cbn [rest]. rewrite shorter_tail.
  apply IH. intros w1 c' w2 ->. apply (H (c :: w1) c' w2). reflexivity.
Qed.

(** ** Character facts *)

Ltac chars :=
  repeat match goal with
    | f : family |- _ => destruct f
    end;
  cbv [open_char close_char] in *;
  repeat match goal with
    | |- context [chr ?a] =>
        let v := eval vm_compute in (chr a) in change (chr a) with v
    | H : context [chr ?a] |- _ =>
        let v := eval vm_compute in (chr a) in change (chr a) with v in H
    end;
  unfold is_name_start, is_name_char, is_space, in_range in *;
  repeat match goal with
    | |- _ = false => apply not_true_iff_false; intros ?
    | H : _ = false |- _ => apply not_true_iff_false in H
    end;
  repeat match goal with
    | H : _ = true |- _ =>
        rewrite ?orb_true_iff, ?andb_true_iff, ?N.leb_le, ?N.eqb_eq in H
    | H : ~ (_ = true) |- _ =>
        rewrite ?orb_true_iff, ?andb_true_iff, ?N.leb_le, ?N.eqb_eq in H
    end;
  rewrite ?orb_true_iff, ?andb_true_iff, ?N.leb_le, ?N.eqb_eq;
  try lia.

Lemma name_char_plain c :
  is_name_char c = true ->
  c <> chr "<" /\ c <> chr ">" /\ c <> chr "&" /\ is_space c = false.
Proof. intros H. repeat split; chars. Qed.

Lemma name_char_not_close f c :
  is_name_char c = true -> c <> chr (close_char f).
Proof. intros H. chars. Qed.

Lemma name_start_char c : is_name_start c = true -> is_name_char c = true.
Proof. intros H. chars. Qed.

Lemma open_solid f s : solid (chr (open_char f) :: s).
Proof. split; chars. Qed.

Lemma close_solid f s : solid (chr (close_char f) :: s).
Proof. split; chars. Qed.

Lemma firstn_app_exact {A} (w s : list A) :
  firstn (length (w ++ s) - length s) (w ++ s) = w.
Proof.
  rewrite length_app. replace (_ + _ - _) with (length w) by lia.
  now rewrite firstn_app, Nat.sub_diag, firstn_all, firstn_O, app_nil_r.
Qed.

Lemma run_cat r1 r2 k st : run (Cat r1 r2) k st = run r1 (run r2 k) st.
Proof. reflexivity. Qed.

Lemma run_group r k s g :
  run (Group r) k (MState s g) =
    run r (fun st' => k (MState (rest st')
                           (Some (firstn (length s - length (rest st')) s))))
      (MState s g).
Proof. reflexivity. Qed.

(** ** The placeholder pattern on a fragment *)

Lemma run_fragment f n1 inner n4 post :
  noise_seq n1 -> noise_seq n4 ->
  Forall (fun ch => ch <> chr (close_char f)) inner ->
  run (pattern_of f) Some (MState (fragment f n1 inner n4 ++ post) None)
  = Some (MState post (Some inner)).
Proof.
  intros H1 H4 Hin. unfold fragment, pattern_of.
  replace ((chr (open_char f) :: n1 ++ chr (open_char f) :: inner
              ++ chr (close_char f) :: n4 ++ [chr (close_char f)]) ++ post)
    with (chr (open_char f) :: n1 ++ chr (open_char f) :: inner
            ++ chr (close_char f) :: n4 ++ chr (close_char f) :: post).
  2:{ cbn [app]. f_equal. rewrite <- app_assoc. cbn [app]. do 2 f_equal.
      rewrite <- app_assoc. cbn [app]. f_equal.
      rewrite <- app_assoc. reflexivity. }
  rewrite run_cat, run_lit_hit, run_cat.
  apply run_noise_seq; [assumption|].
  rewrite run_noise_stop by apply open_solid.
  rewrite run_cat, run_lit_hit, run_cat, run_group.
  rewrite run_lazy_skip.
  - apply run_lazy_hit. cbn [rest]. rewrite firstn_app_exact.
    rewrite run_cat, run_lit_hit, run_cat.
    apply run_noise_seq; [assumption|].
    rewrite run_noise_stop by apply close_solid.
    apply run_lit_hit.
  - intros w1 ch w2 ->. cbn [rest]. rewrite run_cat. apply run_lit_miss.
    rewrite Forall_app in Hin. destruct Hin as [_ Hin].
    now inversion Hin.
Qed.

Lemma match_fragment f n1 inner n4 post :
  noise_seq n1 -> noise_seq n4 ->
  Forall (fun ch => ch <> chr (close_char f)) inner ->
  match_at (pattern_of f) (fragment f n1 inner n4 ++ post)
  = Some (RMatch (fragment f n1 inner n4) (Some inner)).
Proof.
  intros H1 H4 Hin. unfold match_at.
  rewrite run_fragment by assumption. cbn [rest grp].
  now rewrite firstn_app_exact.
Qed.

(** ** Cleaning an interior *)

Lemma match_tag_miss c s : c <> chr "<" -> match_at tag (c :: s) = None.
Proof. intros H. unfold match_at. now rewrite run_tag_miss. Qed.

Lemma match_tag_hit body s :
  body <> [] -> Forall (fun ch => ch <> chr ">") body ->
  match_at tag (chr "<" :: body ++ chr ">" :: s)
  = Some (RMatch (chr "<" :: body ++ [chr ">"]) None).
Proof.
  intros Hne Hb. unfold match_at. rewrite run_tag by assumption. cbn [rest grp].
  replace (chr "<" :: body ++ chr ">" :: s)
    with ((chr "<" :: body ++ [chr ">"]) ++ s)
    by (cbn [app]; now rewrite <- app_assoc).
  now rewrite firstn_app_exact.
Qed.

Lemma sub_tag_plain w s :
  Forall (fun ch => ch <> chr "<") w -> sub tag [] (w ++ s) = w ++ sub tag [] s.
Proof.
  intros Hw. unfold sub, subn. rewrite subn_go_run; [reflexivity|].
  intros w1 c w2 ->. apply match_tag_miss.
  rewrite Forall_app in Hw. destruct Hw as [_ Hw]. now inversion Hw.
Qed.

Lemma sub_tag_tag body s :
  body <> [] -> Forall (fun ch => ch <> chr ">") body ->
  sub tag [] (chr "<" :: body ++ chr ">" :: s) = sub tag [] s.
Proof.
  intros Hne Hb. unfold sub, subn.
  replace (chr "<" :: body ++ chr ">" :: s)
    with (chr "<" :: (body ++ [chr ">"]) ++ s)
    by (now rewrite <- app_assoc).
  erewrite subn_go_at; [reflexivity | |].
  - rewrite <- app_assoc. cbn [app]. now apply match_tag_hit.
  - reflexivity.
Qed.

Lemma replace_absent a old new s :
  Forall (fun ch => ch <> a) s -> replace (a :: old) new s = s.
Proof.
  unfold replace. induction 1 as [|c s Hc _ IH]; [reflexivity|].
  cbn [replace_go is_prefix].
  destruct (N.eqb_spec a c); [congruence|]. cbn [andb]. now rewrite IH.
Qed.

Lemma sub_spaces_plain s :
  Forall (fun ch => is_space ch = false) s -> sub (plus space) [] s = s.
Proof.
  intros Hs. unfold sub, subn.
  rewrite <- (app_nil_r s) at 1. rewrite subn_go_run.
  - cbn. now rewrite app_nil_r.
  - intros w1 c w2 ->. unfold match_at, plus. rewrite run_cat.
    rewrite run_space_miss; [reflexivity|].
    rewrite Forall_app in Hs. destruct Hs as [_ Hs]. now inversion Hs.
Qed.

Lemma identifier_chars name :
  is_identifier name = true -> Forall (fun ch => is_name_char ch = true) name.
Proof.
  destruct name as [|c r]; [discriminate|]. cbn [is_identifier].
  rewrite andb_true_iff, forallb_forall. intros [Hc Hr].
  constructor; [now apply name_start_char|].
  apply Forall_forall. intros x Hx. apply Hr. now apply list_elem_of_In.
Qed.

Lemma clean_plain name :
  Forall (fun ch => is_name_char ch = true) name -> clean name = name.
Proof.
  intros Hn. unfold clean.
  rewrite <- (app_nil_r name) at 1. rewrite sub_tag_plain.
  2:{ eapply Forall_impl; [exact Hn|]. intros c Hc. now apply name_char_plain. }
  change (sub tag [] []) with (@nil N). rewrite app_nil_r.
  change (str "&lt;") with (chr "&" :: str "lt;").
  change (str "&gt;") with (chr "&" :: str "gt;").
  change (str "&amp;") with (chr "&" :: str "amp;").
  assert (Forall (fun ch => ch <> chr "&") name) as Hamp.
  { eapply Forall_impl; [exact Hn|]. intros c Hc. now apply name_char_plain. }
  do 3 rewrite (replace_absent _ _ _ name Hamp).
  apply sub_spaces_plain.
  eapply Forall_impl; [exact Hn|]. intros c Hc. now apply name_char_plain.
Qed.

Lemma firstn_whole {A} (s : list A) : firstn (length s - length (@nil A)) s = s.
Proof. cbn [length]. now rewrite Nat.sub_0_r, firstn_all. Qed.

Lemma run_class_all p k w g res :
  Forall (fun c => p c = true) w ->
  k (MState [] g) = Some res ->
  run (Star true (Chr p)) k (MState w g) = Some res.
Proof.
  intros Hw Hk. rewrite <- (app_nil_r w). apply run_class_greedy; [assumption|].
  now rewrite run_class_stop by exact I.
Qed.

Lemma match_name name :
  is_identifier name = true ->
  rematch name_pattern name = Some (RMatch name (Some name)).
Proof.
  destruct name as [|c r]; [discriminate|]. cbn [is_identifier].
  rewrite andb_true_iff, forallb_forall. intros [Hc Hr].
  unfold rematch, match_at, name_pattern.
  rewrite run_cat, run_group, run_cat, run_chr_cons, Hc.
  rewrite (run_class_all _ _ r None (MState [] (Some (c :: r)))).
  - cbn [rest grp]. now rewrite firstn_whole.
  - apply Forall_forall. intros x Hx. apply Hr. now apply list_elem_of_In.
  - cbn [rest run]. now rewrite firstn_whole.
Qed.

(** A match whose cleaned interior is an identifier is rewritten to the
    canonical placeholder. *)
Lemma repl_of_valid f whole inner name :
  clean inner = name -> is_identifier name = true ->
  repl_of f (RMatch whole (Some inner)) = canonical f name.
Proof.
  intros Hc Hn. unfold repl_of. cbn [group1 from_option id]. rewrite Hc.
  now rewrite match_name.
Qed.

Lemma normalize_fragment f n1 inner n4 post name :
  noise_seq n1 -> noise_seq n4 ->
  Forall (fun ch => ch <> chr (close_char f)) inner ->
  clean inner = name -> is_identifier name = true ->
  normalize_of f (fragment f n1 inner n4 ++ post)
  = (canonical f name ++ fst (normalize_of f post),
     S (snd (normalize_of f post))).
Proof.
  intros H1 H4 Hin Hc Hn. unfold normalize_of, subn.
  pose proof (match_fragment f n1 inner n4 post H1 H4 Hin) as Hm.
  unfold fragment in *. cbn [app] in *.
  erewrite subn_go_at; [| exact Hm | reflexivity].
  now rewrite (repl_of_valid f _ inner name).
Qed.

(** ** Reads by name *)

Lemma name_table_listed {A : Type} (z : list (ZipInfo * A)) :
  forall (m : gmap string (ZipInfo * A)) name,
    name ∈ map (fun e => filename (fst e)) z \/ is_Some (m !! name) ->
    is_Some (foldl (fun m e => <[filename (fst e) := e]> m) m z !! name).
Proof.
  induction z as [|e z IH]; intros m name H; simpl.
  - destruct H as [H|H]; [inversion H | exact H].
  - apply IH. destruct H as [H|H].
    + simpl in H. apply elem_of_cons in H. destruct H as [->|H]; [right | now left].
      rewrite lookup_insert_eq. eauto.
    + right. destruct (decide (filename (fst e) = name)) as [->|Hne].
      * rewrite lookup_insert_eq. eauto.
      * now rewrite lookup_insert_ne.
Qed.

Lemma infolist_intact (z : archive) : infolist (intact z) = infolist z.
Proof. unfold infolist, intact. rewrite map_map. now apply map_ext. Qed.

Lemma infolist_truncated (z : container) : infolist (truncated z) = infolist z.
Proof. unfold infolist, truncated. rewrite map_map. now apply map_ext. Qed.

(** The name table commutes with a change of the contents. *)
Lemma name_table_map {A B : Type} (h : A -> B) (z : list (ZipInfo * A)) :
  forall (m : gmap string (ZipInfo * A)),
    foldl (fun m e => <[filename (fst e) := e]> m)
      ((fun e => (fst e, h (snd e))) <$> m)
      (map (fun e => (fst e, h (snd e))) z)
    = (fun e => (fst e, h (snd e)))
        <$> foldl (fun m e => <[filename (fst e) := e]> m) m z.
Proof.
  induction z as [|e z IH]; intros m; simpl; [reflexivity|].
  rewrite <- IH. now rewrite fmap_insert.
Qed.

(** In a container whose entries can all be read, a read by name returns
    the content that the name table holds. *)
Lemma read_intact (z : archive) (name : string) :
  read (intact z) name
  = match NameToInfo z !! name with
    | Some e => Returned (snd e)
    | None => Raised KeyError
    end.
Proof.
  unfold read, NameToInfo, intact.
  pose proof (name_table_map Data z ∅) as H. rewrite fmap_empty in H.
  rewrite H, lookup_fmap.
  now destruct (foldl _ ∅ z !! name) as [[i d]|].
Qed.

Lemma entry_data_table (z : archive) (item : ZipInfo) :
  entry_data z item
  = match NameToInfo z !! filename item with
    | Some e => snd e
    | None => []
    end.
Proof.
  unfold entry_data. rewrite read_intact.
  now destruct (NameToInfo z !! filename item).
Qed.

Lemma read_listed (z : archive) (item : ZipInfo) :
  item ∈ infolist z ->
  read (intact z) (filename item) = Returned (entry_data z item).
Proof.
  intros H. rewrite entry_data_table, read_intact. unfold NameToInfo.
  destruct (name_table_listed z ∅ (filename item)) as [e ->]; [|reflexivity].
  left. unfold infolist in H. apply list_elem_of_fmap in H.
  destruct H as (e & -> & He). apply list_elem_of_fmap. eauto.
Qed.

Lemma filename_stored_info (item : ZipInfo) :
  filename (stored_info item) = filename item.
Proof. unfold stored_info. now destruct (N.eqb (external_attr item) 0). Qed.

Lemma stored_info_kept (item : ZipInfo) :
  external_attr item <> 0%N -> stored_info item = item.
Proof.
  intros H. unfold stored_info.
  destruct (N.eqb_spec (external_attr item) 0); [contradiction | reflexivity].
Qed.

(** ** The rewrite loop as a map over the entries *)

Lemma rewrite_part_total sq data total :
  rewrite_part sq data total
  = (fst (rewrite_part sq data 0), total + snd (rewrite_part sq data 0)).
Proof.
  unfold rewrite_part.
  destruct (_normalize_jinja_curly (decode_ignore data)) as [t1 n1].
  destruct sq.
  - destruct (_normalize_jinja_square t1) as [t2 n2].
    destruct (encode t2); cbn; f_equal; lia.
  - destruct (encode t1); cbn; f_equal; lia.
Qed.

Lemma rewrite_items_map (zin : archive) sq : forall items zout total,
    (forall item, item ∈ items -> item ∈ infolist zin) ->
    rewrite_items (intact zin) sq items zout total
    = (zout ++ map (fun item => (stored_info item, fst (entry_step zin sq item)))
                 items,
       Returned (total + sum_list (map (fun item => snd (entry_step zin sq item)) items))).
Proof.
  induction items as [|item items IH]; intros zout total Hin; simpl.
  - now rewrite app_nil_r, Nat.add_0_r.
  - rewrite read_listed by (apply Hin; left).
    unfold entry_step at 1 3. unfold writestr.
    destruct (qualifying (filename item)).
    + rewrite rewrite_part_total.
      rewrite IH by (intros; apply Hin; now right).
      rewrite <- app_assoc. simpl. f_equal. f_equal. lia.
    + rewrite IH by (intros; apply Hin; now right).
      rewrite <- app_assoc. simpl. f_equal.
Qed.

(** ** Captures are pieces of the subject; what the reconstructor keeps *)

Lemma derives_capture r w after g g' :
  derives r w after g g' ->
  g' = g \/ exists pre x post, w = pre ++ x ++ post /\ g' = Some x.
Proof.
  induction 1 as [ | r1 r2 w1 w2 after g g' g'' _ IH1 _ IH2 | | | |
                   gr r w1 w2 after g g' g'' _ _ IH1 _ IH2 | r w after g g' _ _ | ];
    auto.
  - destruct IH2 as [-> | (pre & x & post & -> & ->)].
    + destruct IH1 as [-> | (pre & x & post & -> & ->)]; [now left|].
      right. exists pre, x, (post ++ w2). now rewrite <- !app_assoc.
    + right. exists (w1 ++ pre), x, post. now rewrite <- !app_assoc.
  - destruct IH2 as [-> | (pre & x & post & -> & ->)].
    + destruct IH1 as [-> | (pre & x & post & -> & ->)]; [now left|].
      right. exists pre, x, (post ++ w2). now rewrite <- !app_assoc.
    + right. exists (w1 ++ pre), x, post. now rewrite <- !app_assoc.
  - right. exists [], w, []. now rewrite app_nil_r.
Qed.

Section Preserved.
Variable P : N -> Prop.
Hypothesis P_ascii : forall ch, (ch < 256)%N -> P ch.

Lemma match_at_preserves pat s mt :
  Forall P s -> match_at pat s = Some mt ->
  Forall P (group0 mt) /\ Forall P (default [] (group1 mt)).
Proof.
  intros Hs Hm. apply match_at_sound in Hm. destruct Hm as (after & E & D).
  rewrite E in Hs. apply Forall_app in Hs. destruct Hs as [Hw _].
  split; [assumption|].
  apply derives_capture in D. destruct D as [-> | (pre & x & post & Ew & ->)].
  - constructor.
  - rewrite Ew in Hw. rewrite !Forall_app in Hw. tauto.
Qed.

Lemma subn_go_preserves pat repl :
  (forall mt, Forall P (group0 mt) -> Forall P (default [] (group1 mt)) ->
              Forall P (repl mt)) ->
  forall s skip, Forall P s -> Forall P (fst (subn_go pat repl skip s)).
Proof.
  intros Hrepl. induction s as [|c s IH]; intros skip Hs; simpl.
  - destruct skip; [|constructor].
    destruct (match_at pat []) as [mt|] eqn:Hm; [|constructor].
    simpl. apply Hrepl; now apply (match_at_preserves pat []).
  - inversion Hs as [|? ? Hc Hs']; subst.
    destruct skip as [|skip]; [|now apply IH].
    destruct (match_at pat (c :: s)) as [mt|] eqn:Hm.
    + apply (match_at_preserves _ _ _ Hs) in Hm. destruct Hm as [H0 H1].
      destruct (length (group0 mt)).
      * specialize (IH 0 Hs'). destruct (subn_go pat repl 0 s). simpl in *.
        apply Forall_app. split; [now apply Hrepl | now constructor].
      * specialize (IH n Hs'). destruct (subn_go pat repl n s). simpl in *.
        apply Forall_app. split; [now apply Hrepl | assumption].
    + specialize (IH 0 Hs'). destruct (subn_go pat repl 0 s). simpl in *.
      now constructor.
Qed.

Lemma replace_go_preserves old new :
  Forall P new ->
  forall s skip, Forall P s -> Forall P (replace_go old new skip s).
Proof.
  intros Hnew. induction s as [|c s IH]; intros skip Hs; simpl; [constructor|].
  inversion Hs; subst. destruct skip; [|now apply IH].
  destruct (is_prefix old (c :: s)).
  - apply Forall_app. split; [assumption | now apply IH].
  - constructor; [assumption | now apply IH].
Qed.

Lemma str_preserved s : Forall P (str s).
Proof.
  unfold str. apply Forall_forall. intros ch Hch.
  apply list_elem_of_fmap in Hch. destruct Hch as (a & -> & _).
  apply P_ascii. unfold chr. pose proof (N_ascii_bounded a). lia.
Qed.

Lemma clean_preserves inner : Forall P inner -> Forall P (clean inner).
Proof.
  intros H. unfold clean, sub, subn, replace.
  apply subn_go_preserves; [constructor|].
  repeat (apply replace_go_preserves; [apply str_preserved|]).
  apply subn_go_preserves; [constructor | assumption].
Qed.

Lemma repl_of_preserves f mt :
  Forall P (group0 mt) -> Forall P (default [] (group1 mt)) ->
  Forall P (repl_of f mt).
Proof.
  intros H0 H1. unfold repl_of, rematch.
  destruct (match_at name_pattern _) as [mname|] eqn:Hm; [|assumption].
  apply match_at_preserves in Hm; [|now apply clean_preserves].
  unfold canonical. apply Forall_app. split.
  - repeat constructor; apply P_ascii; unfold chr;
      match goal with |- (N_of_ascii ?a < _)%N => pose proof (N_ascii_bounded a) end; lia.
  - apply Forall_app. split; [tauto|].
    repeat constructor; apply P_ascii; unfold chr;
      match goal with |- (N_of_ascii ?a < _)%N => pose proof (N_ascii_bounded a) end; lia.
Qed.

Lemma normalize_of_preserves f s :
  Forall P s -> Forall P (fst (normalize_of f s)).
Proof.
  intros H. unfold normalize_of, subn.
  apply subn_go_preserves; [apply repl_of_preserves | assumption].
Qed.
End Preserved.

(** ** UTF-8: what has been decoded can be encoded *)

Lemma scalar_low ch : (ch < 256)%N -> scalar ch.
Proof. intros H. unfold scalar. chars. unfold is_surrogate, in_range in *.
  rewrite andb_true_iff, !N.leb_le in *. lia. Qed.

Lemma utf8_scan_scalar : forall n s, length s <= n ->
    Forall (fun o => forall ch, o = Some ch -> scalar ch) (utf8_scan s).
Proof.
  induction n as [|n IH]; intros s Hl.
  - destruct s; [constructor | simpl in Hl; lia].
  - destruct s as [|b0 s1]; [constructor|]. cbn [utf8_scan].
    repeat match goal with
      | |- Forall _ (if ?c then _ else _) => destruct c eqn:?
      | |- Forall _ (match ?s with [] => _ | _ :: _ => _ end) => destruct s
      | |- Forall _ (_ :: _) => constructor
      | |- Forall _ [] => constructor
      | |- Forall _ (utf8_scan _) => apply IH; simpl in *; lia
      end;
      intros ch [= <-]; unfold scalar, is_surrogate, is_continuation, in_range in *;
      rewrite ?N.shiftl_mul_pow2 in *;
      repeat match goal with
        | H : (_ || _) = false |- _ => apply orb_false_iff in H; destruct H
        | H : negb _ = false |- _ => apply negb_false_iff in H
        | H : (_ && _) = true |- _ => apply andb_true_iff in H; destruct H
        | H : (if ?c then _ else _) = _ |- _ => destruct c eqn:?
        | H : (_ <? _)%N = true |- _ => apply N.ltb_lt in H
        | H : (_ <? _)%N = false |- _ => apply N.ltb_ge in H
        | H : (_ <=? _)%N = true |- _ => apply N.leb_le in H
        | H : (_ =? _)%N = false |- _ => apply N.eqb_neq in H
        end;
      apply not_true_iff_false; rewrite andb_true_iff, !N.leb_le;
      change (2 ^ 6)%N with 64%N in *; change (2 ^ 12)%N with 4096%N in *;
      change (2 ^ 18)%N with 262144%N in *; lia.
Qed.

Lemma decode_scalar data : Forall scalar (decode_ignore data).
Proof.
  unfold decode_ignore.
  pose proof (utf8_scan_scalar _ (map Byte.to_N data) (le_n _)) as H.
  induction H as [|o l Ho _ IH]; [constructor|].
  destruct o as [ch|]; cbn; [constructor; auto | assumption].
Qed.

Lemma encode_scalar t : Forall scalar t -> exists b, encode t = Some b.
Proof.
  induction 1 as [|ch t Hch _ [b IH]]; [now exists []|].
  cbn [encode]. rewrite IH. unfold encode_char. unfold scalar in Hch. rewrite Hch.
  repeat match goal with |- context [if ?c then _ else _] => destruct c end; eauto.
Qed.

Lemma reconstruct_scalar sq t : Forall scalar t -> Forall scalar (fst (reconstruct sq t)).
Proof.
  intros H. unfold reconstruct, _normalize_jinja_curly, _normalize_jinja_square.
  pose proof (normalize_of_preserves scalar scalar_low Curly t H) as H1.
  unfold normalize_of, pattern_curly, repl_curly in *.
  destruct (subn (pattern_of Curly) (repl_of Curly) t) as [t1 n1]. simpl in H1.
  destruct sq; [|assumption].
  pose proof (normalize_of_preserves scalar scalar_low Square t1 H1) as H2.
  unfold normalize_of, pattern_square, repl_square in *.
  now destruct (subn (pattern_of Square) (repl_of Square) t1).
Qed.

Lemma rewrite_part_reconstruct sq data :
  exists b, encode (fst (reconstruct sq (decode_ignore data))) = Some b /\
            rewrite_part sq data 0 = (b, snd (reconstruct sq (decode_ignore data))).
Proof.
  destruct (encode_scalar _ (reconstruct_scalar sq _ (decode_scalar data))) as [b Hb].
  exists b. split; [assumption|].
  unfold rewrite_part, reconstruct in *.
  destruct (_normalize_jinja_curly (decode_ignore data)) as [t1 n1].
  destruct sq.
  - destruct (_normalize_jinja_square t1) as [t2 n2]. simpl in *. now rewrite Hb.
  - simpl in *. now rewrite Hb.
Qed.

(** ** The census loop and first-seen order *)

Lemma first_seen_elem (l : list text) x : x ∈ first_seen l <-> x ∈ l.
Proof.
  induction l as [|y l IH]; simpl; [reflexivity|].
  rewrite !elem_of_cons, list_elem_of_filter, IH.
  destruct (decide (x = y)); tauto.
Qed.

Lemma first_seen_NoDup (l : list text) : NoDup (first_seen l).
Proof.
  induction l as [|y l IH]; simpl; [constructor|].
  apply NoDup_cons. split.
  - rewrite list_elem_of_filter. tauto.
  - now apply NoDup_filter.
Qed.

Lemma note_all (ms : list rmatch) : forall (found : list text) (seen : gset text),
    (forall x, x ∈ seen <-> x ∈ found) ->
    exists seen',
      foldl note_match (found, seen) ms
      = (found ++ filter (fun x => x ∉ found) (first_seen (map var_of ms)), seen').
Proof.
  induction ms as [|m ms IH]; intros found seen Hseen; simpl.
  - exists seen. now rewrite app_nil_r.
  - fold (var_of m). destruct (decide (var_of m ∈ seen)) as [Hin|Hout].
    + destruct (IH found seen Hseen) as [seen' ->]. exists seen'. f_equal. f_equal.
      rewrite filter_cons_False by (apply Hseen in Hin; tauto).
      rewrite list_filter_filter. apply list_filter_iff.
      intros x. split; [|tauto]. intros Hx. split; [assumption|].
      intros ->. apply Hx. now apply Hseen.
    + destruct (IH (found ++ [var_of m]) ({[var_of m]} ∪ seen)) as [seen' ->].
      { intros x. rewrite elem_of_union, elem_of_singleton, elem_of_app,
          list_elem_of_singleton, Hseen. tauto. }
      exists seen'. f_equal. rewrite <- app_assoc. f_equal.
      rewrite filter_cons_True by (rewrite <- Hseen; assumption).
      simpl. f_equal. rewrite list_filter_filter. apply list_filter_iff.
      intros x. rewrite elem_of_app, list_elem_of_singleton. tauto.
Qed.

Lemma filter_fresh (l : list text) : filter (fun x => x ∉ []) l = l.
Proof.
  induction l as [|x l IH]; [reflexivity|].
  rewrite filter_cons_True by (intros H; inversion H). now rewrite IH.
Qed.

Lemma scan_items_all (z : archive) : forall items (acc : list text * gset text),
    (forall item, item ∈ items -> item ∈ infolist z) ->
    scan_items (intact z) items acc
    = Returned (foldl note_match acc
                  (flat_map (fun item =>
                               if qualifying (filename item)
                               then finditer census_pattern
                                      (decode_ignore (entry_data z item))
                               else []) items)).
Proof.
  induction items as [|item items IH]; intros acc Hin; simpl; [reflexivity|].
  destruct (qualifying (filename item)).
  - rewrite read_listed by (apply Hin; left).
    rewrite foldl_app. apply IH. intros; apply Hin; now right.
  - apply IH. intros; apply Hin; now right.
Qed.

Lemma census_names_matches z :
  census_names z
  = map var_of (flat_map (fun item =>
                            if qualifying (filename item)
                            then finditer census_pattern
                                   (decode_ignore (entry_data z item))
                            else []) (infolist z)).
Proof.
  unfold census_names, names_in. induction (infolist z) as [|item items IH]; simpl; [reflexivity|].
  rewrite map_app, IH. now destruct (qualifying (filename item)).
Qed.

Lemma detect_body_zip fs path z :
  fs !! path = Some (ZipFile z) ->
  detect_body fs path = Returned (first_seen (census_names z)).
Proof.
  intros H. unfold detect_body. rewrite H. unfold ZipFile.
  rewrite infolist_intact, scan_items_all by auto.
  destruct (note_all (flat_map (fun item =>
                            if qualifying (filename item)
                            then finditer census_pattern
                                   (decode_ignore (entry_data z item))
                            else []) (infolist z)) [] ∅) as [seen' ->].
  { intros x. rewrite elem_of_empty. split; [tauto | intros Hx; inversion Hx]. }
  simpl. rewrite <- census_names_matches. f_equal. apply filter_fresh.
Qed.

(** On any container, a name that the loop has found was found before or
    is matched in a qualifying entry that could be read. *)
Lemma note_elem (name : text) (ms : list rmatch) :
  forall (acc : list text * gset text),
    name ∈ fst (foldl note_match acc ms) ->
    name ∈ fst acc \/ name ∈ map var_of ms.
Proof.
  induction ms as [|m ms IH]; intros [found seen] H; simpl in *; [now left|].
  fold (var_of m) in H.
  destruct (decide (var_of m ∈ seen)).
  - destruct (IH _ H) as [H'|H']; [now left | right; now right].
  - destruct (IH _ H) as [H'|H']; [|right; now right].
    cbn [fst] in H'. apply elem_of_app in H'. destruct H' as [H'|H']; [now left|].
    apply list_elem_of_singleton in H'. subst. right. left.
Qed.

Lemma scan_items_elem (z : container) (name : text) :
  forall items (acc acc' : list text * gset text),
    scan_items z items acc = Returned acc' -> name ∈ fst acc' ->
    name ∈ fst acc \/
    exists item data,
      item ∈ items /\ qualifying (filename item) = true /\
      read z (filename item) = Returned data /\
      name ∈ names_in (decode_ignore data).
Proof.
  induction items as [|item items IH]; intros acc acc' H Hn; simpl in H.
  - injection H as <-. now left.
  - destruct (qualifying (filename item)) eqn:Hq.
    + destruct (read z (filename item)) as [data|e] eqn:Hr; [|discriminate].
      destruct (IH _ _ H Hn) as [H'|(it & d & Hi & H1 & H2 & H3)].
      * unfold scan_text in H'. apply note_elem in H'.
        destruct H' as [H'|H']; [now left|].
        right. exists item, data. repeat split; auto. left.
      * right. exists it, d. repeat split; auto. now right.
    + destruct (IH _ _ H Hn) as [H'|(it & d & Hi & H1 & H2 & H3)]; [now left|].
      right. exists it, d. repeat split; auto. now right.
Qed.

(** When the loop raises, a qualifying entry could not be read. *)
Lemma scan_items_raised (z : container) (e : exn) :
  forall items (acc : list text * gset text),
    scan_items z items acc = Raised e ->
    exists item,
      item ∈ items /\ qualifying (filename item) = true /\
      read z (filename item) = Raised e.
Proof.
  induction items as [|item items IH]; intros acc H; simpl in H; [discriminate|].
  destruct (qualifying (filename item)) eqn:Hq.
  - destruct (read z (filename item)) as [data|e'] eqn:Hr.
    + destruct (IH _ H) as (it & Hi & H1 & H2). exists it. repeat split; auto.
      now right.
    + injection H as ->. exists item. repeat split; auto. left.
  - destruct (IH _ H) as (it & Hi & H1 & H2). exists it. repeat split; auto.
    now right.
Qed.

(** A read of a listed name raises for damage only. *)
Lemma read_listed_raised (z : container) (item : ZipInfo) (e : exn) :
  item ∈ infolist z -> read z (filename item) = Raised e ->
  exists why, e = raised_by why.
Proof.
  intros H. unfold read, NameToInfo.
  destruct (name_table_listed z ∅ (filename item)) as [[i [d|why]] ->].
  - left. unfold infolist in H. apply list_elem_of_fmap in H.
    destruct H as (x & -> & Hx). apply list_elem_of_fmap. eauto.
  - discriminate.
  - intros [= <-]. eauto.
Qed.

(** ** What the census pattern matches *)

Lemma finditer_go_sound pat : forall s skip m,
    m ∈ finditer_go pat skip s ->
    exists pre after, s = pre ++ group0 m ++ after /\
                      derives pat (group0 m) after None (group1 m).
Proof.
  induction s as [|c s IH]; intros skip m Hm; simpl in Hm.
  - destruct skip; [|inversion Hm].
    destruct (match_at pat []) as [mt|] eqn:E; [|inversion Hm].
    apply list_elem_of_singleton in Hm. subst mt.
    apply match_at_sound in E. destruct E as (after & E & D).
    now exists [], after.
  - assert (Hrec : forall k, m ∈ finditer_go pat k s ->
               exists pre after, c :: s = pre ++ group0 m ++ after /\
                                 derives pat (group0 m) after None (group1 m)).
    { intros k Hk. destruct (IH k m Hk) as (pre & after & -> & D).
      now exists (c :: pre), after. }
    destruct skip as [|skip]; [|now apply (Hrec skip)].
    destruct (match_at pat (c :: s)) as [mt|] eqn:E; [|now apply (Hrec 0)].
    apply elem_of_cons in Hm. destruct Hm as [->|Hm]; [|now apply (Hrec _ Hm)].
    apply match_at_sound in E. destruct E as (after & E & D).
    now exists [], after.
Qed.

Lemma derives_class gr p w after g0 g1 :
  derives (Star gr (Chr p)) w after g0 g1 ->
  Forall (fun c => p c = true) w /\ g1 = g0.
Proof.
  remember (Star gr (Chr p)) as r eqn:Er. intros D. revert Er.
  induction D as [ | | | | | gr' r w1 w2 after g g' g'' _ D1 _ D2 IH2 | | ];
    intros Er; try discriminate.
  - split; [constructor | reflexivity].
  - injection Er as -> ->. destruct (IH2 eq_refl) as [Hw ->].
    inversion D1; subst. split; [|reflexivity]. now constructor.
Qed.

Lemma derives_lit a w after g0 g1 :
  derives (lit a) w after g0 g1 -> w = [chr a] /\ g1 = g0.
Proof.
  unfold lit. intros D. inversion D as [p c ? ? Hc | | | | | | |]; subst.
  apply N.eqb_eq in Hc. now subst.
Qed.

Lemma census_shape w after g :
  derives census_pattern w after None g ->
  exists ws1 name ws2,
    w = placeholder ws1 name ws2 /\ g = Some name /\
    is_identifier name = true /\
    Forall (fun c => is_space c = true) ws1 /\
    Forall (fun c => is_space c = true) ws2.
Proof.
  unfold census_pattern. intros D.
  inversion D as [ | ? ? wa w1 ? ? ga ? Da D1 | | | | | | ]; subst; clear D.
  apply derives_lit in Da. destruct Da as [-> ->].
  inversion D1 as [ | ? ? wb w2 ? ? gb ? Db D2 | | | | | | ]; subst; clear D1.
  apply derives_lit in Db. destruct Db as [-> ->].
  inversion D2 as [ | ? ? ws1 w3 ? ? gc ? Dc D3 | | | | | | ]; subst; clear D2.
  apply derives_class in Dc. destruct Dc as [Hws1 ->].
  inversion D3 as [ | ? ? name w4 ? ? gd ? Dd D4 | | | | | | ]; subst; clear D3.
  inversion Dd as [ | | | | | | ? ? ? ? ge Dn | ]; subst; clear Dd.
  inversion Dn as [ | ? ? n1 n2 ? ? gf ? Dn1 Dn2 | | | | | | ]; subst; clear Dn.
  inversion Dn1 as [ ? c0 ? ? Hc0 | | | | | | | ]; subst; clear Dn1.
  apply derives_class in Dn2. destruct Dn2 as [Hn2 _].
  inversion D4 as [ | ? ? ws2 w5 ? ? gg ? De D5 | | | | | | ]; subst; clear D4.
  apply derives_class in De. destruct De as [Hws2 ->].
  inversion D5 as [ | ? ? wc wd ? ? gh ? Df Dg | | | | | | ]; subst; clear D5.
  apply derives_lit in Df. destruct Df as [-> ->].
  apply derives_lit in Dg. destruct Dg as [-> ->].
  exists ws1, ([c0] ++ n2), ws2. repeat split; auto.
  cbn [app is_identifier]. rewrite Hc0. cbn [andb].
  apply forallb_forall. intros x Hx. rewrite Forall_forall in Hn2.
  apply Hn2. now apply list_elem_of_In.
Qed.

(** ** Templates *)

Lemma normalizer_of f t : normalizer f t = normalize_of f t.
Proof.
  destruct f; unfold normalizer, _normalize_jinja_curly, _normalize_jinja_square,
    normalize_of, pattern_curly, repl_curly, pattern_square, repl_square;
    now destruct (subn _ _ t).
Qed.

Lemma repl_of_rejected f whole inner :
  rematch name_pattern (clean inner) = None ->
  repl_of f (RMatch whole (Some inner)) = whole.
Proof.
  intros H. unfold repl_of. cbn [group1 group0 from_option id]. now rewrite H.
Qed.

Lemma normalize_rejected f n1 inner n4 post :
  noise_seq n1 -> noise_seq n4 ->
  Forall (fun ch => ch <> chr (close_char f)) inner ->
  rematch name_pattern (clean inner) = None ->
  normalize_of f (fragment f n1 inner n4 ++ post)
  = (fragment f n1 inner n4 ++ fst (normalize_of f post),
     S (snd (normalize_of f post))).
Proof.
  intros H1 H4 Hin Hr. unfold normalize_of, subn.
  pose proof (match_fragment f n1 inner n4 post H1 H4 Hin) as Hm.
  unfold fragment in *. cbn [app] in *.
  erewrite subn_go_at; [| exact Hm | reflexivity].
  now rewrite (repl_of_rejected f _ inner).
Qed.

Lemma match_family_miss f ch s :
  ch <> chr (open_char f) -> match_at (pattern_of f) (ch :: s) = None.
Proof.
  intros H. unfold match_at, pattern_of. rewrite run_cat.
  now rewrite run_lit_miss.
Qed.

Lemma normalize_nil f : normalize_of f [] = ([], 0).
Proof. now destruct f. Qed.

Lemma template_normalize f t t' :
  template f t t' -> fst (normalize_of f t) = t'.
Proof.
  induction 1 as [|ch s s' Hch _ IH|n1 inner n4 name s s' H1 H4 Hin Hc Hn _ IH
                 |n1 inner n4 s s' H1 H4 Hin Hr _ IH].
  - now rewrite normalize_nil.
  - unfold normalize_of, subn in *.
    rewrite subn_go_off by now apply match_family_miss.
    cbn [fst]. now rewrite IH.
  - rewrite (normalize_fragment f n1 inner n4 s name) by assumption.
    cbn [fst]. now rewrite IH.
  - rewrite (normalize_rejected f n1 inner n4 s) by assumption.
    cbn [fst]. now rewrite IH.
Qed.

Lemma canonical_fragment f name : canonical f name = fragment f [] name [].
Proof. reflexivity. Qed.

Lemma template_canonical f t t' : template f t t' -> template f t' t'.
Proof.
  induction 1 as [|ch s s' Hch _ IH|n1 inner n4 name s s' H1 H4 Hin Hc Hn _ IH
                 |n1 inner n4 s s' H1 H4 Hin Hr _ IH].
  - constructor.
  - now constructor.
  - rewrite canonical_fragment.
    pose proof (identifier_chars name Hn) as Hchars.
    apply tpl_placeholder; try assumption; try constructor.
    + eapply Forall_impl; [exact Hchars|]. intros ch. apply name_char_not_close.
    + now apply clean_plain.
  - now apply tpl_rejected.
Qed.

(** ** Inline markup tags *)

Lemma tag_body_spec b :
  tag_body b = true -> b <> [] /\ Forall (fun ch => ch <> chr ">") b.
Proof.
  destruct b as [|c b]; [discriminate|]. unfold tag_body.
  rewrite forallb_forall. intros H. split; [discriminate|].
  apply Forall_forall. intros x Hx. apply list_elem_of_In, H in Hx.
  apply negb_true_iff, N.eqb_neq in Hx. exact Hx.
Qed.

Lemma free_of_spec a b :
  free_of a b = true -> Forall (fun ch => ch <> chr a) b.
Proof.
  unfold free_of. rewrite forallb_forall. intros H.
  apply Forall_forall. intros x Hx. apply list_elem_of_In, H in Hx.
  apply negb_true_iff, N.eqb_neq in Hx. exact Hx.
Qed.

Lemma noise_markup b : tag_body b = true -> noise_seq (markup b).
Proof.
  intros H. apply tag_body_spec in H. destruct H as [Hne Hb].
  unfold markup. now apply (noise_tag b []); [ | | constructor].
Qed.

Lemma clean_marked b2 name b3 :
  tag_body b2 = true -> tag_body b3 = true ->
  Forall (fun ch => is_name_char ch = true) name ->
  clean (markup b2 ++ name ++ markup b3) = name.
Proof.
  intros H2 H3 Hn.
  apply tag_body_spec in H2, H3. destruct H2 as [Hne2 Hb2], H3 as [Hne3 Hb3].
  rewrite <- (clean_plain name Hn) at 2.
  unfold clean. do 4 f_equal. unfold markup. cbn [app]. rewrite <- app_assoc. cbn [app].
  rewrite sub_tag_tag by assumption.
  rewrite sub_tag_plain.
  2:{ eapply Forall_impl; [exact Hn|]. intros c Hc. now apply name_char_plain. }
  rewrite sub_tag_tag by assumption.
  rewrite <- (app_nil_r name) at 2. rewrite sub_tag_plain; [reflexivity|].
  eapply Forall_impl; [exact Hn|]. intros c Hc. now apply name_char_plain.
Qed.

(** ** The scan as a relation *)

Lemma rewrites_fst f s s' : rewrites f s s' -> fst (normalize_of f s) = s'.
Proof.
  induction 1 as [|ch s s' Hm _ IH|m ch w s s' Hm Hg _ IH].
  - now rewrite normalize_nil.
  - unfold normalize_of, subn in *. rewrite subn_go_off by assumption.
    cbn [fst]. now rewrite IH.
  - unfold normalize_of, subn in *. erewrite subn_go_at by eassumption.
    cbn [fst]. now rewrite IH.
Qed.

Lemma match_at_prefix pat s m :
  match_at pat s = Some m -> exists post, s = group0 m ++ post.
Proof.
  intros H. apply match_at_sound in H. destruct H as (after & E & _). eauto.
Qed.

Lemma rewrites_total f : forall n s, length s <= n -> exists s', rewrites f s s'.
Proof.
  induction n as [|n IH]; intros s Hl.
  - destruct s; [exists []; constructor | simpl in Hl; lia].
  - destruct s as [|ch s]; [exists []; constructor|].
    destruct (match_at (pattern_of f) (ch :: s)) as [m|] eqn:Hm.
    + destruct (match_at_prefix _ _ _ Hm) as [post E].
      destruct (group0 m) as [|x w] eqn:Hg.
      * exfalso. apply match_at_sound in Hm. destruct Hm as (after & _ & D).
        rewrite Hg in D. clear -D. unfold pattern_of in D.
        inversion D as [ | ? ? w1 w2 ? ? ? ? D1 D2 E12 | | | | | | ]; subst.
        destruct w1; [|discriminate]. inversion D1.
      * cbn [app] in E. injection E as <- ->.
        destruct (IH post) as [s' Hs'].
        { simpl in Hl. rewrite length_app in Hl. lia. }
        exists (repl_of f m ++ s'). now apply rw_match.
    + destruct (IH s) as [s' Hs']; [simpl in Hl; lia|].
      exists (ch :: s'). now apply rw_copy.
Qed.

Lemma rewrites_normalize f s : rewrites f s (fst (normalize_of f s)).
Proof.
  destruct (rewrites_total f (length s) s (le_n _)) as [s' H].
  now rewrite (rewrites_fst f s s' H).
Qed.

(** ** Noise, and the pairs of delimiters around it *)

Lemma derives_chr p w after g g' :
  derives (Chr p) w after g g' -> exists c, w = [c] /\ p c = true /\ g' = g.
Proof. intros D. inversion D; subst. eauto. Qed.

Lemma derives_tag w after g g' :
  derives tag w after g g' ->
  exists body, w = chr "<" :: body ++ [chr ">"] /\ body <> [] /\
               Forall (fun ch => ch <> chr ">") body /\ g' = g.
Proof.
  unfold tag, plus. intros D.
  inversion D as [ | ? ? wa w1 ? ? ga ? Da D1 | | | | | | ]; subst; clear D.
  apply derives_lit in Da. destruct Da as [-> ->].
  inversion D1 as [ | ? ? wb w2 ? ? gb ? Db D2 | | | | | | ]; subst; clear D1.
  apply derives_lit in D2. destruct D2 as [-> ->].
  inversion Db as [ | ? ? wc wd ? ? gc ? Dc Dd | | | | | | ]; subst; clear Db.
  unfold not_lit in Dc, Dd.
  apply derives_chr in Dc. destruct Dc as (c0 & -> & Hc0 & ->).
  apply derives_class in Dd. destruct Dd as [Hd ->].
  assert (Hgt : forall x, negb (N.eqb (chr ">") x) = true -> x <> chr ">").
  { intros x Hx. apply negb_true_iff, N.eqb_neq in Hx. congruence. }
  exists ([c0] ++ wd). repeat split.
  - discriminate.
  - constructor; [now apply Hgt|].
    eapply Forall_impl; [exact Hd|]. intros x Hx. now apply Hgt.
Qed.

Lemma derives_noise w after g g' :
  derives noise w after g g' -> noise_seq w /\ g' = g.
Proof.
  unfold noise. remember (Star true (Alt tag space)) as r eqn:Er.
  intros D. revert Er.
  induction D as [ | | | | | gr r w1 w2 after g g' g'' Hne D1 _ D2 IH2 | | ];
    intros Er; try discriminate.
  - split; [constructor | reflexivity].
  - injection Er as -> ->. destruct (IH2 eq_refl) as [Hw ->].
    inversion D1 as [ | | ? ? ? ? ? ? Dt | ? ? ? ? ? ? Ds | | | | ]; subst; clear D1.
    + apply derives_tag in Dt. destruct Dt as (body & -> & Hb1 & Hb2 & ->).
      split; [|reflexivity]. cbn [app]. rewrite <- app_assoc. cbn [app].
      now constructor.
    + unfold space in Ds. apply derives_chr in Ds.
      destruct Ds as (c0 & -> & Hc0 & ->). split; [|reflexivity].
      cbn [app]. now constructor.
Qed.

Lemma run_noise_lit a k n s g :
  chr a <> chr "<" -> is_space (chr a) = false ->
  noise_seq n -> solid s ->
  run noise (run (lit a) k) (MState (n ++ s) g) = run (lit a) k (MState s g).
Proof.
  intros Ha1 Ha2 Hn Hs. induction Hn as [|c w Hc _ IH|body w Hne Hb _ IH]; cbn [app].
  - now apply run_noise_stop.
  - rewrite run_noise_space, IH by assumption.
    rewrite (run_lit_miss a k c); [apply orelse_None_r|]. congruence.
  - rewrite <- app_assoc. cbn [app].
    rewrite run_noise_tag, IH by assumption.
    rewrite (run_lit_miss a k (chr "<")); [apply orelse_None_r|]. congruence.
Qed.

Section Bracket.
Variable a : ascii.
Hypothesis a_solid : forall s, solid (chr a :: s).

Lemma bracket_run k s s2 g :
  bracket_at a s s2 ->
  run (lit a) (run noise (run (lit a) k)) (MState s g) = k (MState s2 g).
Proof.
  intros (n & -> & Hn). destruct (a_solid []) as [H1 H2].
  rewrite run_lit_hit, run_noise_lit by auto.
  apply run_lit_hit.
Qed.

Lemma bracket_sound k st res :
  run (lit a) (run noise (run (lit a) k)) st = Some res ->
  exists s2, bracket_at a (rest st) s2 /\ k (MState s2 (grp st)) = Some res.
Proof.
  intros H.
  change (run (Cat (lit a) (Cat noise (lit a))) k st = Some res) in H.
  apply run_sound in H. destruct H as (w & st' & E & D & K).
  inversion D as [ | ? ? wa w1 ? ? ga ? Da D1 | | | | | | ]; subst; clear D.
  apply derives_lit in Da. destruct Da as [-> ->].
  inversion D1 as [ | ? ? n w2 ? ? gb ? Dn D2 | | | | | | ]; subst; clear D1.
  apply derives_lit in D2. destruct D2 as [-> Eg].
  apply derives_noise in Dn. destruct Dn as [Hn ->].
  exists (rest st'). split.
  - exists n. split; [|assumption]. rewrite E. cbn [app].
    now rewrite <- app_assoc.
  - destruct st' as [r' g']. cbn in *. now subst.
Qed.

Lemma bracket_fail k s g :
  (forall s2, ~ bracket_at a s s2) ->
  run (lit a) (run noise (run (lit a) k)) (MState s g) = None.
Proof.
  intros H.
  destruct (run (lit a) (run noise (run (lit a) k)) (MState s g)) eqn:E;
    [|reflexivity].
  apply bracket_sound in E. destruct E as (s2 & Hb & _). now apply H in Hb.
Qed.

Lemma bracket_dec s : (exists s2, bracket_at a s s2) \/ (forall s2, ~ bracket_at a s s2).
Proof.
  destruct (run (lit a) (run noise (run (lit a) Some)) (MState s None)) eqn:E.
  - apply bracket_sound in E. destruct E as (s2 & Hb & _). left. eauto.
  - right. intros s2 Hb. now rewrite (bracket_run Some s s2 None Hb) in E.
Qed.

Lemma bracket_unique s s2 s2' : bracket_at a s s2 -> bracket_at a s s2' -> s2 = s2'.
Proof.
  intros H1 H2.
  pose proof (bracket_run Some s s2 None H1) as E1.
  rewrite (bracket_run Some s s2' None H2) in E1. now injection E1.
Qed.
End Bracket.

(** ** The interior: up to the first closing pair *)

Lemma run_lazy_none k : forall s g,
    (forall i s1, s = i ++ s1 -> k (MState s1 g) = None) ->
    run (Star false any) k (MState s g) = None.
Proof.
  induction s as [|x s IH]; intros g H; rewrite run_star; cbv zeta.
  - rewrite (H [] [] eq_refl). reflexivity.
  - rewrite (H [] (x :: s) eq_refl). cbn [orelse].
    unfold any at 1. rewrite run_chr_cons. cbn [rest]. rewrite shorter_tail.
    apply IH. intros i s1 ->. apply (H (x :: i) s1). reflexivity.
Qed.

Section Interior.
Variable f : family.
Let o := open_char f.
Let c := close_char f.

Lemma interior_run inner s1 post g0 :
  closer_at f s1 post -> first_closer f inner s1 ->
  run (Group (Star false any))
    (run (lit c) (run noise (run (lit c) Some))) (MState (inner ++ s1) g0)
  = Some (MState post (Some inner)).
Proof.
  intros Hc Hfirst. rewrite run_group, run_lazy_skip.
  - apply run_lazy_hit. cbn [rest]. rewrite firstn_app_exact.
    now rewrite (bracket_run c (close_solid f) Some s1 post).
  - intros w1 x w2 ->. cbn [rest].
    apply (bracket_fail c). intros s2 Hb.
    now apply (Hfirst w1 x w2 s2 eq_refl).
Qed.

Lemma interior_none s2 g0 :
  (forall i s1 p, s2 = i ++ s1 -> ~ closer_at f s1 p) ->
  run (Group (Star false any))
    (run (lit c) (run noise (run (lit c) Some))) (MState s2 g0) = None.
Proof.
  intros H. rewrite run_group. apply run_lazy_none.
  intros i s1 ->. cbn [rest]. apply (bracket_fail c).
  intros p. now apply (H i s1 p).
Qed.

Lemma interior_search : forall s2,
    (exists inner s1 post,
        s2 = inner ++ s1 /\ closer_at f s1 post /\ first_closer f inner s1)
    \/ (forall i s1 p, s2 = i ++ s1 -> ~ closer_at f s1 p).
Proof.
  induction s2 as [|x s2 IH].
  - right. intros i s1 p E (n & -> & _).
    destruct i; discriminate.
  - destruct (bracket_dec c (close_solid f) (x :: s2)) as [[p Hp] | Hno].
    + left. exists [], (x :: s2), p. repeat split; [assumption|].
      intros i1 y i2 q E. destruct i1; discriminate.
    + destruct IH as [(inner & s1 & post & -> & Hc & Hfirst) | Hnone].
      * left. exists (x :: inner), s1, post. repeat split; [assumption|].
        intros i1 y i2 q E. destruct i1 as [|z i1]; cbn [app] in E.
        -- injection E as <- <-. apply Hno.
        -- injection E as <- ->. now apply (Hfirst i1 y i2 q).
      * right. intros i s1 p E. destruct i as [|z i]; cbn [app] in E.
        -- subst s1. apply Hno.
        -- injection E as <- ->. now apply (Hnone i s1 p).
Qed.

Lemma pattern_run s :
  run (pattern_of f) Some (MState s None)
  = run (lit o) (run noise (run (lit o)
      (run (Group (Star false any))
         (run (lit c) (run noise (run (lit c) Some)))))) (MState s None).
Proof. reflexivity. Qed.

Lemma fragment_split n1 inner n4 post :
  fragment f n1 inner n4 ++ post
  = chr o :: n1 ++ chr o :: inner ++ chr c :: n4 ++ chr c :: post.
Proof.
  unfold fragment. cbn [app]. f_equal. rewrite <- app_assoc. cbn [app].
  do 2 f_equal. rewrite <- app_assoc. cbn [app]. f_equal.
  now rewrite <- app_assoc.
Qed.

(** The match at the head of a fragment whose interior stops at the
    first closing pair. *)
Lemma match_first_closer n1 inner n4 post :
  noise_seq n1 -> noise_seq n4 ->
  first_closer f inner (chr c :: n4 ++ chr c :: post) ->
  match_at (pattern_of f) (fragment f n1 inner n4 ++ post)
  = Some (RMatch (fragment f n1 inner n4) (Some inner)).
Proof.
  intros H1 H4 Hfirst. unfold match_at. rewrite pattern_run.
  rewrite (bracket_run o (open_solid f) _ _
             (inner ++ chr c :: n4 ++ chr c :: post)).
  2:{ exists n1. split; [apply fragment_split | assumption]. }
  rewrite (interior_run inner _ post); [| now exists n4 | assumption].
  cbn [rest grp]. now rewrite firstn_app_exact.
Qed.

(** What the pattern does at the head of any text. *)
Lemma match_at_cases s :
  (exists n1 inner n4 post,
      s = fragment f n1 inner n4 ++ post /\ noise_seq n1 /\ noise_seq n4 /\
      first_closer f inner (chr c :: n4 ++ chr c :: post) /\
      match_at (pattern_of f) s
      = Some (RMatch (fragment f n1 inner n4) (Some inner)))
  \/ (match_at (pattern_of f) s = None /\
      forall s2, opener_at f s s2 -> ~ has_closer f s2).
Proof.
  destruct (bracket_dec o (open_solid f) s) as [[s2 Ho] | Hno].
  - destruct (interior_search s2)
      as [(inner & s1 & post & E & Hc & Hfirst) | Hnone].
    + left. destruct Ho as (n1 & Es & H1). destruct Hc as (n4 & -> & H4).
      exists n1, inner, n4, post.
      assert (Es' : s = fragment f n1 inner n4 ++ post).
      { rewrite fragment_split, Es, E. reflexivity. }
      repeat split; try assumption.
      rewrite Es'. now apply match_first_closer.
    + right. split.
      * unfold match_at. rewrite pattern_run.
        rewrite (bracket_run o (open_solid f) _ _ s2 None Ho).
        now rewrite interior_none.
      * intros s2' Ho' (i & s1 & p & E & Hc).
        rewrite (bracket_unique o (open_solid f) s s2' s2 Ho' Ho) in E.
        now apply (Hnone i s1 p E).
  - right. split.
    + unfold match_at. rewrite pattern_run.
      now rewrite (bracket_fail o).
    + intros s2 Ho. now apply Hno in Ho.
Qed.
End Interior.

(** ** Texts whose tag shapes hold no delimiter *)

Lemma delimiter_not_gt f d : is_delimiter f d = true -> d <> chr ">".
Proof.
  unfold is_delimiter. rewrite orb_true_iff, !N.eqb_eq.
  destruct f; intros [-> | ->]; discriminate.
Qed.

Lemma open_is_delimiter f : is_delimiter f (chr (open_char f)) = true.
Proof. unfold is_delimiter. now rewrite N.eqb_refl. Qed.

Lemma close_is_delimiter f : is_delimiter f (chr (close_char f)) = true.
Proof. unfold is_delimiter. now rewrite N.eqb_refl, orb_true_r. Qed.

Lemma tags_plain_relax f : forall s,
    tags_plain f true s = true -> tags_plain f false s = true.
Proof.
  induction s as [|ch s IH]; [reflexivity|]. cbn [tags_plain].
  destruct (N.eqb_spec ch (chr ">")) as [->|Hgt].
  - intros H. exact H.
  - rewrite andb_true_iff. intros [_ H].
    destruct (N.eqb ch (chr "<")); [assumption | now apply IH].
Qed.

Lemma tags_plain_suffix f : forall s1 b s2,
    tags_plain f b (s1 ++ s2) = true -> tags_plain f false s2 = true.
Proof.
  induction s1 as [|ch s1 IH]; intros b s2 H; cbn [app] in H.
  - destruct b; [now apply tags_plain_relax | assumption].
  - cbn [tags_plain] in H. destruct b.
    + destruct (N.eqb ch (chr ">")); [now apply (IH false)|].
      apply andb_true_iff in H. destruct H as [_ H]. now apply (IH true).
    + now apply (IH _ _ H).
Qed.

Lemma tags_plain_enter f : forall pre b s,
    tags_plain f b (pre ++ chr "<" :: s) = true -> tags_plain f true s = true.
Proof.
  induction pre as [|ch pre IH]; intros b s H; cbn [app] in H.
  - cbn [tags_plain] in H. destruct b.
    + change (N.eqb (chr "<") (chr ">")) with false in H. cbv iota in H.
      apply andb_true_iff in H. tauto.
    + exact H.
  - cbn [tags_plain] in H. destruct b.
    + destruct (N.eqb ch (chr ">")); [now apply (IH false)|].
      apply andb_true_iff in H. destruct H as [_ H]. now apply (IH true).
    + now apply (IH _ _ H).
Qed.

Lemma tags_plain_inside f d : forall body s,
    Forall (fun ch => ch <> chr ">") body -> is_delimiter f d = true ->
    tags_plain f true (body ++ d :: s) = false.
Proof.
  intros body s Hb Hd. induction Hb as [|ch body Hch _ IH]; cbn [app tags_plain].
  - destruct (N.eqb_spec d (chr ">")) as [E|_].
    + now apply delimiter_not_gt in Hd.
    + now rewrite Hd.
  - destruct (N.eqb_spec ch (chr ">")) as [E|_]; [contradiction|].
    rewrite IH. apply andb_false_r.
Qed.

(** Where a solid character sits in a run of noise: inside a tag. *)
Lemma split_at_gt d : forall body w a b,
    body ++ chr ">" :: w = a ++ d :: b -> d <> chr ">" ->
    (exists b', body = a ++ d :: b')
    \/ (exists a', a = body ++ chr ">" :: a' /\ w = a' ++ d :: b).
Proof.
  induction body as [|x body IH]; intros w a b E Hd; cbn [app] in E.
  - destruct a as [|y a]; cbn [app] in E.
    + injection E as E1 _. exfalso. apply Hd. symmetry. exact E1.
    + injection E as <- ->. right. now exists a.
  - destruct a as [|y a]; cbn [app] in E.
    + injection E as <- <-. left. now exists body.
    + injection E as <- E.
      destruct (IH w a b E Hd) as [[b' ->] | (a' & -> & ->)].
      * left. now exists b'.
      * right. now exists a'.
Qed.

Lemma noise_solid_char d : forall n, noise_seq n -> forall a b,
    n = a ++ d :: b ->
    is_space d = false -> d <> chr "<" -> d <> chr ">" ->
    exists a1 body1, a = a1 ++ chr "<" :: body1 /\
                     Forall (fun ch => ch <> chr ">") body1.
Proof.
  induction 1 as [|sp w Hsp _ IH|body w Hne Hb _ IH]; intros a b E H1 H2 H3.
  - destruct a; discriminate.
  - destruct a as [|y a]; cbn [app] in E.
    + injection E as -> _. congruence.
    + injection E as <- E.
      destruct (IH a b E H1 H2 H3) as (a1 & body1 & -> & Hb1).
      now exists (sp :: a1), body1.
  - destruct a as [|y a]; cbn [app] in E.
    + injection E as E1 _. exfalso. apply H2. symmetry. exact E1.
    + injection E as <- E.
      destruct (split_at_gt d body w a b E H3) as [[b' ->] | (a' & -> & Ew)].
      * exists [], a. split; [reflexivity|].
        apply Forall_app in Hb. tauto.
      * destruct (IH a' b Ew H1 H2 H3) as (a1 & body1 & -> & Hb1).
        exists (chr "<" :: body ++ chr ">" :: a1), body1. split; [|assumption].
        cbn [app]. now rewrite <- app_assoc.
Qed.

(** ** What the scan copies *)

Lemma match_head f ch s m :
  match_at (pattern_of f) (ch :: s) = Some m -> ch = chr (open_char f).
Proof.
  intros H. destruct (N.eqb_spec ch (chr (open_char f))) as [E|E]; [assumption|].
  now rewrite match_family_miss in H.
Qed.

Lemma fragment_head f n1 inner n4 :
  exists r, fragment f n1 inner n4 = chr (open_char f) :: r.
Proof. unfold fragment. eauto. Qed.

Lemma match_group0_head f s m :
  match_at (pattern_of f) s = Some m ->
  exists r, group0 m = chr (open_char f) :: r.
Proof.
  intros H. destruct (match_at_cases f s)
    as [(n1 & inner & n4 & post & _ & _ & _ & _ & E) | [E _]];
    rewrite E in H; [|discriminate].
  injection H as <-. cbn [group0]. apply fragment_head.
Qed.

Lemma repl_head f s m :
  match_at (pattern_of f) s = Some m ->
  exists r, repl_of f m = chr (open_char f) :: r.
Proof.
  intros H. unfold repl_of.
  destruct (rematch name_pattern _); [|now apply (match_group0_head f s)].
  unfold canonical. cbn [app]. eauto.
Qed.

Section Copied.
Variable f : family.
Lemma open_facts :
  is_space (chr (open_char f)) = false /\ chr (open_char f) <> chr "<" /\
  chr (open_char f) <> chr ">" /\ chr (open_char f) <> chr (close_char f).
Proof. destruct f; repeat split; discriminate. Qed.

Lemma close_facts :
  is_space (chr (close_char f)) = false /\ chr (close_char f) <> chr "<" /\
  chr (close_char f) <> chr ">".
Proof. destruct f; repeat split; discriminate. Qed.

(** Copying through a tag body. *)
Lemma copy_through_body : forall body s s' t',
    Forall (fun ch => ch <> chr ">") body ->
    rewrites f s s' -> tags_plain f true s = true ->
    s' = body ++ chr ">" :: t' ->
    exists t, s = body ++ chr ">" :: t /\ rewrites f t t' /\
              tags_plain f false t = true.
Proof.
  intros body s s' t' Hb. revert s s'.
  induction Hb as [|b body Hbne _ IH]; intros s s' Hrw HX E; cbn [app] in E.
  - destruct Hrw as [ | ch s0 s0' Hm Hrw0 | m ch w s0 s0' Hm Hg Hrw0 ].
    + discriminate.
    + injection E as -> ->. exists s0. repeat split; [assumption|].
      cbn [tags_plain] in HX. now rewrite N.eqb_refl in HX.
    + exfalso. apply match_head in Hm. subst ch.
      cbn [tags_plain] in HX.
      destruct (N.eqb_spec (chr (open_char f)) (chr ">")) as [E1|_].
      * now apply (proj1 (proj2 (proj2 open_facts))).
      * now rewrite open_is_delimiter in HX.
  - destruct Hrw as [ | ch s0 s0' Hm Hrw0 | m ch w s0 s0' Hm Hg Hrw0 ].
    + discriminate.
    + injection E as -> ->.
      cbn [tags_plain] in HX.
      destruct (N.eqb_spec b (chr ">")) as [E1|_]; [contradiction|].
      apply andb_true_iff in HX. destruct HX as [_ HX].
      destruct (IH s0 _ Hrw0 HX eq_refl) as (t & -> & Ht & HXt).
      now exists t.
    + exfalso. apply match_head in Hm. subst ch.
      cbn [tags_plain] in HX.
      destruct (N.eqb_spec (chr (open_char f)) (chr ">")) as [E1|_].
      * now apply (proj1 (proj2 (proj2 open_facts))).
      * now rewrite open_is_delimiter in HX.
Qed.

(** Copying through a run of noise. *)
Lemma copy_through_noise : forall n, noise_seq n -> forall s s' s1',
    rewrites f s s' -> tags_plain f false s = true ->
    s' = n ++ s1' ->
    exists s1, s = n ++ s1 /\ rewrites f s1 s1' /\
               tags_plain f false s1 = true.
Proof.
  induction 1 as [|sp w Hsp _ IH|body w Hne Hb _ IH];
    intros s s' s1' Hrw HX E; cbn [app] in E.
  - subst s'. now exists s.
  - destruct Hrw as [ | ch s0 s0' Hm Hrw0 | m ch w0 s0 s0' Hm Hg Hrw0 ].
    + discriminate.
    + injection E as -> ->.
      assert (HX0 : tags_plain f false s0 = true)
        by (apply (tags_plain_suffix f [sp] false); exact HX).
      destruct (IH s0 _ s1' Hrw0 HX0 eq_refl) as (s1 & -> & H1 & HX1).
      now exists s1.
    + exfalso. destruct (repl_head f _ m Hm) as [r Er]. rewrite Er in E.
      injection E as E _. rewrite <- E in Hsp.
      now rewrite (proj1 open_facts) in Hsp.
  - destruct Hrw as [ | ch s0 s0' Hm Hrw0 | m ch w0 s0 s0' Hm Hg Hrw0 ].
    + discriminate.
    + injection E as -> ->.
      assert (HX0 : tags_plain f true s0 = true) by exact HX.
      destruct (copy_through_body body s0 _ (w ++ s1') Hb Hrw0 HX0)
        as (t & -> & Ht & HXt).
      { now rewrite <- app_assoc. }
      destruct (IH t _ s1' Ht HXt eq_refl) as (s1 & -> & H1 & HX1).
      exists s1. repeat split; try assumption.
      cbn [app]. now rewrite <- app_assoc.
    + exfalso. destruct (repl_head f _ m Hm) as [r Er]. rewrite Er in E.
      injection E as E _. now apply (proj1 (proj2 open_facts)).
Qed.
End Copied.

Section Persistence.
Variable f : family.

Lemma fragment_has_closer n1 inner n4 post :
  noise_seq n4 -> has_closer f (n1 ++ chr (open_char f) :: inner
                     ++ chr (close_char f) :: n4 ++ chr (close_char f) :: post).
Proof.
  intros H4. exists (n1 ++ chr (open_char f) :: inner),
    (chr (close_char f) :: n4 ++ chr (close_char f) :: post), post.
  split; [now rewrite <- app_assoc | now exists n4].
Qed.

Lemma has_closer_cons x s : has_closer f s -> has_closer f (x :: s).
Proof. intros (i & s1 & p & -> & H). now exists (x :: i), s1, p. Qed.

Lemma rewrites_solid_head s x t' :
  rewrites f s (x :: t') -> x <> chr (open_char f) ->
  exists t, s = x :: t /\ rewrites f t t'.
Proof.
  remember (x :: t') as s' eqn:E. intros Hrw Hx.
  destruct Hrw as [ | ch s0 s0' _ Hrw0 | m ch w s0 s0' Hm _ _ ].
  - discriminate.
  - injection E as -> ->. now exists s0.
  - exfalso. destruct (repl_head f _ m Hm) as [r Er]. rewrite Er in E.
    injection E as E _. now apply Hx.
Qed.

(** A closing pair in the rewritten text comes from one in the text. *)
Lemma closer_reflects s s' :
  rewrites f s s' -> tags_plain f false s = true ->
  has_closer f s' -> has_closer f s.
Proof.
  induction 1 as [|ch s s' Hm Hrw IH|m ch w s s' Hm Hg Hrw IH]; intros HX Hc.
  - exact Hc.
  - destruct Hc as (i & s1 & p & E & (n & -> & Hn)).
    assert (HXs : tags_plain f false s = true)
      by (apply (tags_plain_suffix f [ch] false); exact HX).
    destruct i as [|x i]; cbn [app] in E.
    + injection E as -> ->.
      destruct (copy_through_noise f n Hn s _ _ Hrw HXs eq_refl)
        as (s1 & -> & H1 & _).
      apply rewrites_solid_head in H1.
      2:{ intros E. symmetry in E. now apply (open_facts f) in E. }
      destruct H1 as (t & -> & _).
      exists [], (chr (close_char f) :: n ++ chr (close_char f) :: t), t.
      split; [reflexivity | now exists n].
    + injection E as <- ->. apply has_closer_cons, IH; [assumption|].
      exists i, (chr (close_char f) :: n ++ chr (close_char f) :: p), p.
      split; [reflexivity | now exists n].
  - destruct (match_at_cases f (ch :: w ++ s))
      as [(n1 & inner & n4 & post & E & H1 & H4 & _ & _) | [E _]];
      [|rewrite E in Hm; discriminate].
    rewrite E, fragment_split. apply has_closer_cons.
    now apply fragment_has_closer.
Qed.

(** No match at a position stays no match after the rest is rewritten. *)
Lemma no_match_stays ch s s' :
  match_at (pattern_of f) (ch :: s) = None ->
  rewrites f s s' -> tags_plain f false (ch :: s) = true ->
  match_at (pattern_of f) (ch :: s') = None.
Proof.
  intros Hnone Hrw HX.
  destruct (match_at_cases f (ch :: s'))
    as [(n1 & inner & n4 & post & E & H1 & H4 & _ & _) | [E _]];
    [exfalso | assumption].
  rewrite fragment_split in E. injection E as -> ->.
  assert (HXs : tags_plain f false s = true)
    by (apply (tags_plain_suffix f [chr (open_char f)] false); exact HX).
  destruct (copy_through_noise f n1 H1 s _ _ Hrw HXs eq_refl)
    as (s1 & -> & Hrw1 & HX1).
  destruct (match_at_cases f (chr (open_char f) :: n1 ++ s1))
    as [(? & ? & ? & ? & _ & _ & _ & _ & E) | [_ Hno]];
    [rewrite E in Hnone; discriminate|].
  remember (chr (open_char f) :: inner ++ chr (close_char f) :: n4
              ++ chr (close_char f) :: post) as s1' eqn:E1.
  destruct Hrw1 as [ | x s2 s2' _ Hrw2 | m x w s2 s2' Hm _ _ ].
  - discriminate.
  - injection E1 as -> ->.
    apply (Hno s2); [now exists n1|].
    apply (closer_reflects s2 _ Hrw2).
    + apply (tags_plain_suffix f [chr (open_char f)] false). exact HX1.
    + apply (fragment_has_closer [] inner n4 post) in H4.
      cbn [app] in H4.
      destruct H4 as (i & s3 & p & E & Hc).
      destruct i as [|y i]; cbn [app] in E.
      * subst s3. destruct Hc as (n & Ec & _). injection Ec as Ec _.
        now apply (open_facts f) in Ec.
      * injection E as _ ->. now exists i, s3, p.
  - destruct (match_at_cases f (x :: w ++ s2))
      as [(n1' & inner' & n4' & post' & E & _ & H4' & _ & _) | [E _]];
      [|rewrite E in Hm; discriminate].
    rewrite E, fragment_split in *.
    apply (Hno (n1' ++ chr (open_char f) :: inner' ++ chr (close_char f)
                  :: n4' ++ chr (close_char f) :: post')); [now exists n1|].
    now apply fragment_has_closer.
Qed.
End Persistence.

(** ** The second pass *)

Lemma name_match_shape t mname :
  rematch name_pattern t = Some mname ->
  is_identifier (default [] (group1 mname)) = true.
Proof.
  unfold rematch. intros H. apply match_at_sound in H.
  destruct H as (after & _ & D). unfold name_pattern in D.
  inversion D as [ | ? ? wa w1 ? ? ga ? Da D1 | | | | | | ]; subst; clear D.
  inversion Da as [ | | | | | | ? ? ? ? ge Dn | ]; subst; clear Da.
  inversion D1; subst.
  cbn [from_option id].
  inversion Dn as [ | ? ? n1 n2 ? ? gf ? Dn1 Dn2 | | | | | | ]; subst; clear Dn.
  apply derives_chr in Dn1. destruct Dn1 as (c0 & -> & Hc0 & _).
  apply derives_class in Dn2. destruct Dn2 as [Hn2 _].
  cbn [app is_identifier]. rewrite Hc0. cbn [andb].
  apply forallb_forall. intros x Hx. rewrite Forall_forall in Hn2.
  apply Hn2. now apply list_elem_of_In.
Qed.

Section SecondPass.
Variable f : family.

(** The first closing pair of a match does not depend on what follows
    the match. *)
Lemma first_closer_local n1 inner n4 post post' :
  tags_plain f false (fragment f n1 inner n4 ++ post) = true ->
  first_closer f inner (chr (close_char f) :: n4 ++ chr (close_char f) :: post) ->
  first_closer f inner (chr (close_char f) :: n4 ++ chr (close_char f) :: post').
Proof.
  intros HX Hfirst i1 x i2 p -> (n & E & Hn).
  injection E as -> E.
  apply app_eq_app in E. destruct E as [l [[E1 E2] | [E1 E2]]].
  - (* the closing pair ends inside the interior *)
    destruct l as [|y l]; cbn [app] in E2.
    + rewrite app_nil_r in E1. subst i2.
      apply (Hfirst i1 (chr (close_char f)) n (n4 ++ chr (close_char f) :: post) eq_refl).
      now exists n.
    + injection E2 as <- E2. subst i2.
      apply (Hfirst i1 (chr (close_char f)) (n ++ chr (close_char f) :: l)
               (l ++ chr (close_char f) :: n4 ++ chr (close_char f) :: post) eq_refl).
      exists n. split; [|assumption]. now rewrite <- app_assoc.
  - destruct l as [|y l]; cbn [app] in E2.
    + rewrite app_nil_r in E1. subst n.
      apply (Hfirst i1 (chr (close_char f)) i2 (n4 ++ chr (close_char f) :: post) eq_refl).
      now exists i2.
    + (* the noise of the closing pair would swallow the closing
         character that ends the interior: it sits in a tag shape *)
      injection E2 as <- E2.
      destruct (close_facts f) as (Hc1 & Hc2 & Hc3).
      destruct (noise_solid_char (chr (close_char f)) n Hn i2 l E1 Hc1 Hc2 Hc3)
        as (a1 & body1 & -> & Hb1).
      rewrite fragment_split in HX.
      replace (chr (open_char f) :: n1 ++ chr (open_char f)
                 :: (i1 ++ chr (close_char f) :: a1 ++ chr "<" :: body1)
                 ++ chr (close_char f) :: n4 ++ chr (close_char f) :: post)
        with ((chr (open_char f) :: n1 ++ chr (open_char f)
                 :: i1 ++ chr (close_char f) :: a1) ++ chr "<"
                :: body1 ++ chr (close_char f) :: n4
                ++ chr (close_char f) :: post) in HX.
      2:{ repeat (cbn [app]; rewrite <- ?app_assoc). reflexivity. }
      apply tags_plain_enter in HX.
      rewrite tags_plain_inside in HX; [discriminate | assumption |].
      apply close_is_delimiter.
Qed.

(** The rewritten text is rewritten to itself. *)
Lemma rewrites_stable s s' :
  rewrites f s s' -> tags_plain f false s = true -> rewrites f s' s'.
Proof.
  induction 1 as [|ch s s' Hm Hrw IH|m ch w s s' Hm Hg Hrw IH]; intros HX.
  - constructor.
  - assert (HXs : tags_plain f false s = true)
      by (apply (tags_plain_suffix f [ch] false); exact HX).
    apply rw_copy; [|now apply IH].
    now apply (no_match_stays f ch s s').
  - assert (HXs : tags_plain f false s = true)
      by (apply (tags_plain_suffix f (ch :: w) false); exact HX).
    specialize (IH HXs).
    destruct (match_at_cases f (ch :: w ++ s))
      as [(n1 & inner & n4 & post & E & H1 & H4 & Hfirst & Em) | [E _]];
      [|rewrite E in Hm; discriminate].
    rewrite Em in Hm. injection Hm as <-. cbn [group0] in Hg.
    assert (Epost : post = s).
    { rewrite Hg in E. change (ch :: w ++ s) with ((ch :: w) ++ s) in E.
      now apply app_inv_head in E. }
    subst post.
    unfold repl_of. cbn [group1 group0 from_option id].
    destruct (rematch name_pattern (clean inner)) as [mname|] eqn:Hname.
    + (* rewritten to the canonical form, which matches as it is *)
      pose proof (name_match_shape _ _ Hname) as Hid.
      set (name := default [] (group1 mname)) in *.
      pose proof (identifier_chars name Hid) as Hchars.
      assert (Hm2 : match_at (pattern_of f) (fragment f [] name [] ++ s')
                    = Some (RMatch (fragment f [] name []) (Some name))).
      { apply match_fragment; try constructor.
        eapply Forall_impl; [exact Hchars|]. intros x. apply name_char_not_close. }
      pose proof (rw_match f _ (chr (open_char f))
                    ([] ++ chr (open_char f) :: name
                       ++ chr (close_char f) :: [] ++ [chr (close_char f)])
                    s' s' Hm2 eq_refl IH) as R.
      rewrite (repl_of_valid f _ name name) in R;
        [exact R | now apply clean_plain | assumption].
    + (* left as it is, and matched again as it is *)
      assert (Hm2 : match_at (pattern_of f) (fragment f n1 inner n4 ++ s')
                    = Some (RMatch (fragment f n1 inner n4) (Some inner))).
      { apply match_first_closer; try assumption.
        apply (first_closer_local n1 inner n4 s s'); [|assumption].
        rewrite <- E. exact HX. }
      pose proof (rw_match f _ (chr (open_char f))
                    (n1 ++ chr (open_char f) :: inner
                       ++ chr (close_char f) :: n4 ++ [chr (close_char f)])
                    s' s' Hm2 eq_refl IH) as R.
      rewrite (repl_of_rejected f _ inner Hname) in R. exact R.
Qed.

Lemma normalize_stable t :
  tags_plain f false t = true ->
  fst (normalize_of f (fst (normalize_of f t))) = fst (normalize_of f t).
Proof.
  intros HX. apply rewrites_fst.
  apply (rewrites_stable t); [apply rewrites_normalize | assumption].
Qed.
End SecondPass.

(** ** The container pass, entry by entry *)

Lemma entry_step_reconstruct z sq item :
  qualifying (filename item) = true ->
  exists b,
    encode (fst (reconstruct sq (decode_ignore (entry_data z item)))) = Some b /\
    entry_step z sq item = (b, entry_count z sq item).
Proof.
  intros Hq. unfold entry_step, entry_count. rewrite Hq.
  apply rewrite_part_reconstruct.
Qed.

Lemma entry_step_count z sq item :
  snd (entry_step z sq item) = entry_count z sq item.
Proof.
  destruct (qualifying (filename item)) eqn:Hq.
  - destruct (entry_step_reconstruct z sq item Hq) as (b & _ & ->). reflexivity.
  - unfold entry_step, entry_count. now rewrite Hq.
Qed.

Lemma rewrite_items_all (zin : archive) sq :
  rewrite_items (intact zin) sq (infolist zin) [] 0
  = (map (fun item => (stored_info item, fst (entry_step zin sq item)))
       (infolist zin),
     Returned (sum_list (map (entry_count zin sq) (infolist zin)))).
Proof.
  rewrite rewrite_items_map by auto. cbn [app Nat.add]. do 3 f_equal.
  apply map_ext. intros item. apply entry_step_count.
Qed.

Lemma name_table_unlisted {A : Type} (z : list (ZipInfo * A)) :
  forall (m : gmap string (ZipInfo * A)) name,
    name ∉ map (fun e => filename (fst e)) z ->
    foldl (fun m e => <[filename (fst e) := e]> m) m z !! name = m !! name.
Proof.
  induction z as [|e z IH]; intros m name H; simpl; [reflexivity|].
  simpl in H. apply not_elem_of_cons in H. destruct H as [Hne H].
  rewrite IH by assumption. now rewrite lookup_insert_ne.
Qed.

(** With pairwise distinct names, a read by name returns the entry's own
    content. *)
Lemma read_own (z : archive) i item data :
  NoDup (map (fun e => filename (fst e)) z) ->
  z !! i = Some (item, data) -> entry_data z item = data.
Proof.
  intros Hnd Hi. rewrite entry_data_table. unfold NameToInfo.
  apply list_elem_of_split_length in Hi. destruct Hi as (z1 & z2 & -> & _).
  rewrite foldl_app. cbn [foldl fst].
  rewrite map_app in Hnd. apply NoDup_app in Hnd. destruct Hnd as (_ & _ & Hnd).
  cbn [map fst] in Hnd. apply NoDup_cons in Hnd. destruct Hnd as [Hout _].
  rewrite name_table_unlisted by assumption.
  now rewrite lookup_insert_eq.
Qed.

(** Entries that do not qualify keep their content when names are
    pairwise distinct; order and names are kept in any case, and the
    metadata is stored as [writestr] stores it. *)
Lemma frame_distinct_names (zin : archive) sq zout res :
  rewrite_items (intact zin) sq (infolist zin) [] 0 = (zout, res) ->
  infolist zout = map stored_info (infolist zin) /\
  (NoDup (map (fun e => filename (fst e)) zin) ->
   forall i item data,
     zin !! i = Some (item, data) -> qualifying (filename item) = false ->
     zout !! i = Some (stored_info item, data)).
Proof.
  rewrite rewrite_items_all. intros [= <- <-]. split.
  - unfold infolist. rewrite !map_map. now apply map_ext.
  - intros Hnd i item data Hi Hq.
    change (map ?f ?l) with (f <$> l). rewrite list_lookup_fmap.
    unfold infolist. change (map ?f ?l) with (f <$> l).
    rewrite list_lookup_fmap, Hi. cbn.
    unfold entry_step. rewrite Hq. cbn [fst].
    now rewrite (read_own zin i item data Hnd Hi).
Qed.

(** The pass over a container whose entries can all be read, written to
    another path. *)
Lemma normalize_docx_zip fs input_path output_path sq (zin : archive) :
  input_path <> output_path ->
  fs !! input_path = Some (ZipFile zin) ->
  normalize_docx fs input_path output_path sq
  = (Returned (sum_list (map (entry_count zin sq) (infolist zin))),
     <[output_path :=
         ZipFile (map (fun item =>
                         (stored_info item, fst (entry_step zin sq item)))
                    (infolist zin))]> fs).
Proof.
  intros Hne H. unfold normalize_docx. rewrite H. unfold ZipFile at 1.
  destruct (String.eqb_spec output_path input_path) as [E|_]; [congruence|].
  now rewrite infolist_intact, rewrite_items_all.
Qed.

(** ** Properties of the specification *)

(** C1 (fails on the code).  The count returned by the reconstructor is
    the number of candidates matched, not the number of rewrites: on the
    text of an opening pair, [1name] and a closing pair, whose interior
    is not an identifier, the text comes back unchanged and the count
    is 1, for the curly family and for the square family alike. *)
Theorem rejected_candidate_is_counted :
  _normalize_jinja_curly (str "{{1name}}") = (str "{{1name}}", 1) /\
  _normalize_jinja_square (str "[[1name]]") = (str "[[1name]]", 1).
Proof. split; vm_compute; reflexivity. Qed.

(** C10.  For either family, a returned count of 0 means that the
    returned text is the input text, character for character. *)
Theorem zero_count_untouched (f : family) (t t' : text) :
  normalizer f t = (t', 0) -> t' = t.
Proof.
  rewrite normalizer_of. unfold normalize_of, subn. intros H.
  now apply subn_go_zero in H.
Qed.

Lemma zero_count_untouched_witness :
  snd (normalizer Curly (str "no tags {here} at all")) = 0 /\
  fst (normalizer Curly (str "no tags {here} at all"))
  = str "no tags {here} at all".
Proof.
  split; [vm_compute; reflexivity|].
  apply (zero_count_untouched Curly). vm_compute. reflexivity.
Defined.

(** C5 (fails on the code as stated): a tag is [<], a non-empty body
    without [>], and [>], so the body of a tag may hold closing braces.
    When the tag between the second opening brace and [name] holds a
    closing pair, the lazy interior ends inside that tag: the candidate
    is the text up to that pair, its cleaned interior is not an
    identifier, and the text comes back as it is, with a count of 1. *)
Lemma closing_pair_in_tag_ends_match :
  let t := str "{<a>{<x}}>name<b>}<c>}" in
  tag_body (str "a") = true /\ tag_body (str "x}}") = true /\
  tag_body (str "b") = true /\ tag_body (str "c") = true /\
  t = str "{" ++ markup (str "a") ++ str "{" ++ markup (str "x}}")
        ++ str "name" ++ markup (str "b") ++ str "}" ++ markup (str "c")
        ++ str "}" /\
  _normalize_jinja_curly t = (t, 1) /\
  _normalize_jinja_curly t <> (str "{{name}}", 1).
Proof. vm_compute. repeat split; try reflexivity. discriminate. Qed.

(** C5, amended.  A textual part made of an opening brace, a tag, an
    opening brace, a tag, [name], a tag, a closing brace, a tag and a
    closing brace is rewritten to the contiguous placeholder, with a
    count of 1, when the bodies of the two tags inside the interior hold
    no closing brace.  A tag is [<], a non-empty body without [>], and
    [>]. *)
Theorem fragmented_name_repaired (b1 b2 b3 b4 : text) :
  tag_body b1 = true -> tag_body b2 = true ->
  tag_body b3 = true -> tag_body b4 = true ->
  free_of "}" b2 = true -> free_of "}" b3 = true ->
  _normalize_jinja_curly
    (str "{" ++ markup b1 ++ str "{" ++ markup b2 ++ str "name"
       ++ markup b3 ++ str "}" ++ markup b4 ++ str "}")
  = (str "{{name}}", 1).
Proof.
  intros H1 H2 H3 H4 F2 F3.
  change (_normalize_jinja_curly ?t) with (normalizer Curly t).
  rewrite normalizer_of.
  replace (str "{" ++ markup b1 ++ str "{" ++ markup b2 ++ str "name"
             ++ markup b3 ++ str "}" ++ markup b4 ++ str "}")
    with (fragment Curly (markup b1) (markup b2 ++ str "name" ++ markup b3)
            (markup b4) ++ []).
  2:{ rewrite app_nil_r. unfold fragment. cbn [app open_char close_char].
      change (str "{") with [chr "{"]. change (str "}") with [chr "}"].
      cbn [app]. now rewrite <- !app_assoc. }
  assert (Hname : Forall (fun ch => is_name_char ch = true) (str "name")).
  { repeat constructor. }
  rewrite (normalize_fragment Curly _ _ _ [] (str "name")).
  - now rewrite normalize_nil.
  - now apply noise_markup.
  - now apply noise_markup.
  - apply tag_body_spec in H2, H3. apply free_of_spec in F2, F3.
    unfold markup. cbn [close_char].
    assert (Hm : forall b, Forall (fun ch => ch <> chr "}") b ->
                 Forall (fun ch => ch <> chr "}") (chr "<" :: b ++ [chr ">"])).
    { intros b Hb. constructor; [discriminate|].
      apply Forall_app. split; [assumption|]. now repeat constructor. }
    apply Forall_app. split; [now apply Hm|].
    apply Forall_app. split; [|now apply Hm].
    eapply Forall_impl; [exact Hname|]. intros ch.
    apply (name_char_not_close Curly).
  - now apply clean_marked.
  - reflexivity.
Qed.

Lemma fragmented_name_repaired_witness :
  _normalize_jinja_curly
    (str "{</w:t></w:r><w:r><w:t>{</w:t></w:r><w:r><w:t>name</w:t></w:r><w:r><w:t>}</w:t></w:r><w:r><w:t>}")
  = (str "{{name}}", 1) /\
  _normalize_jinja_curly
    (str "{" ++ markup sample_word_tag ++ str "{" ++ markup sample_word_tag
       ++ str "name" ++ markup sample_word_tag ++ str "}"
       ++ markup sample_word_tag ++ str "}")
  = (str "{{name}}", 1).
Proof.
  split; [vm_compute; reflexivity|].
  apply (fragmented_name_repaired sample_word_tag sample_word_tag
           sample_word_tag sample_word_tag); reflexivity.
Defined.

(** C3 (fails on the code as stated): a second pass may rewrite the text
    again, and its count is not 0.  On the text below the first pass
    repairs the inner placeholder; that removes the [>] which ended a tag
    shape, so that on the second pass a longer tag shape bridges the first
    brace to the last placeholder and the whole text is rewritten. *)
Lemma second_pass_rewrites_again :
  let t0 := str "{<r {{a}<x>}>{b}}" in
  let t1 := fst (_normalize_jinja_curly t0) in
  let r2 := _normalize_jinja_curly t1 in
  t1 = str "{<r {{a}}>{b}}" /\ fst r2 = str "{{b}}" /\
  fst r2 <> t1 /\ snd r2 <> 0.
Proof. vm_compute. repeat split; discriminate. Qed.

(** C3, amended.  For either family, on every text in which no tag shape
    holds a delimiter of the family (after a [<] there is no opening or
    closing character of the family before the next [>]), a second pass
    returns the text that the first pass returned.  The count of the
    second pass is left open. *)
Theorem second_pass_stable (f : family) (t0 t1 t2 : text) (n1 n2 : nat) :
  tags_plain f false t0 = true ->
  normalizer f t0 = (t1, n1) -> normalizer f t1 = (t2, n2) ->
  t2 = t1.
Proof.
  intros HX H1 H2. rewrite normalizer_of in H1, H2.
  pose proof (normalize_stable f t0 HX) as E.
  rewrite H1 in E. cbn [fst] in E. rewrite H2 in E. exact E.
Qed.

Lemma second_pass_stable_witness :
  let t0 :=
    str "<w:t>Dear {</w:t><w:t>{ first_name }}, a { stray {{1x}} } and {{id}<b/>}</w:t>" in
  let t1 :=
    str "<w:t>Dear {{first_name}}, a { stray {{1x}} } and {{id}}</w:t>" in
  tags_plain Curly false t0 = true /\
  fst (normalizer Curly t0) = t1 /\ fst (normalizer Curly t1) = t1.
Proof.
  cbv zeta. split; [vm_compute; reflexivity|].
  split; [vm_compute; reflexivity|].
  destruct (normalizer Curly
              (str "<w:t>Dear {{first_name}}, a { stray {{1x}} } and {{id}}</w:t>"))
    as [t2 n2] eqn:E2.
  cbn [fst].
  apply (second_pass_stable Curly
           (str "<w:t>Dear {</w:t><w:t>{ first_name }}, a { stray {{1x}} } and {{id}<b/>}</w:t>")
           _ t2 3 n2);
    [vm_compute; reflexivity | vm_compute; reflexivity | exact E2].
Defined.

(** On a template the result of the first pass is known: each placeholder
    whose cleaned interior is an identifier is in canonical form, the
    others are unchanged, and the second pass returns the same text.
    (Here the tags of the noise may hold delimiters.) *)
Lemma templates_are_stable (f : family) (t0 t' : text)
  (t1 t2 : text) (n1 n2 : nat) :
  template f t0 t' ->
  normalizer f t0 = (t1, n1) -> normalizer f t1 = (t2, n2) ->
  t1 = t' /\ t2 = t1.
Proof.
  intros Ht H1 H2. rewrite normalizer_of in H1, H2.
  pose proof (template_normalize f t0 t' Ht) as E1.
  rewrite H1 in E1. cbn [fst] in E1. subst t1.
  pose proof (template_normalize f t' t' (template_canonical f t0 t' Ht)) as E2.
  rewrite H2 in E2. cbn [fst] in E2. now subst t2.
Qed.

(** C4 (fails on the code as stated): the census pattern allows white
    space between the braces and the name, so a name is reported where
    the text does not hold the contiguous form. *)
Lemma census_reports_padded_name :
  let data := utf8 "{{ a }}" in
  let fs : gmap string file :=
    {[ "t.docx"%string := ZipFile [(entry_info "word/document.xml", data)] ]} in
  fst (_detect_tags fs "t.docx") = Returned [str "a"] /\
  contains (decode_ignore data) (str "{{a}}") = false.
Proof. vm_compute. split; reflexivity. Qed.

(** C4, amended.  Every name that the census reports is an identifier,
    and the decoded text of some qualifying entry of the container, as
    a read by its name returns it, holds two opening braces, white space
    (possibly none), that name, white space (possibly none) and two
    closing braces, with nothing else in between. *)
Theorem census_reports_placeholders (fs : gmap string file) (path : string)
  (found : list text) (name : text) :
  fst (_detect_tags fs path) = Returned found -> name ∈ found ->
  is_identifier name = true /\
  exists z item data ws1 ws2 pre after,
    fs !! path = Some (Zip z) /\ item ∈ infolist z /\
    qualifying (filename item) = true /\
    read z (filename item) = Returned data /\
    decode_ignore data = pre ++ placeholder ws1 name ws2 ++ after /\
    Forall (fun c => is_space c = true) ws1 /\
    Forall (fun c => is_space c = true) ws2.
Proof.
  unfold _detect_tags. intros Hf Hin.
  destruct (detect_body fs path) as [found'|e] eqn:Hb; cbn [fst] in Hf;
    injection Hf as <-; [|inversion Hin].
  unfold detect_body in Hb.
  destruct (fs !! path) as [[z|raw]|] eqn:Hp; try discriminate.
  destruct (scan_items z (infolist z) ([], ∅)) as [[found'' seen]|e] eqn:Hs;
    [|discriminate].
  injection Hb as ->.
  destruct (scan_items_elem z name _ _ _ Hs Hin)
    as [H|(item & data & Hitem & Hq & Hr & Hn)]; [inversion H|].
  unfold names_in in Hn. apply list_elem_of_In, in_map_iff in Hn.
  destruct Hn as (m & Hm & Hmi).
  apply list_elem_of_In, finditer_go_sound in Hmi.
  destruct Hmi as (pre & after & Etext & D).
  apply census_shape in D. destruct D as (ws1 & nm & ws2 & Ew & Eg & Hid & H1 & H2).
  unfold var_of in Hm. rewrite Eg in Hm. cbn in Hm. subst nm.
  split; [assumption|].
  exists z, item, data, ws1, ws2, pre, after. repeat split; auto.
  now rewrite Etext, Ew.
Qed.

Lemma census_reports_placeholders_witness :
  let fs : gmap string file :=
    {[ "t.docx"%string :=
         ZipFile [(entry_info "word/document.xml", utf8 "{{ a }}")] ]} in
  is_identifier (str "a") = true /\
  exists z item data ws1 ws2 pre after,
    fs !! "t.docx"%string = Some (Zip z) /\ item ∈ infolist z /\
    qualifying (filename item) = true /\
    read z (filename item) = Returned data /\
    decode_ignore data = pre ++ placeholder ws1 (str "a") ws2 ++ after /\
    Forall (fun c => is_space c = true) ws1 /\
    Forall (fun c => is_space c = true) ws2.
Proof.
  cbv zeta.
  apply (census_reports_placeholders _ "t.docx" [str "a"] (str "a")).
  - vm_compute. reflexivity.
  - apply list_elem_of_singleton. reflexivity.
Defined.




(** C6 (fails on the code).  The loop reads each entry by its name, and
    a read by name returns the content of the last entry of that name:
    of two entries named alike, neither of them qualifying, the first is
    written with the content of the second.  The metadata is not kept
    as it is either: an [external_attr] of 0 is written as
    [0o600 << 16]. *)
Theorem duplicate_name_takes_last_content :
  let zin := [(entry_info "word/media/image1.png", [x01]);
              (entry_info "word/media/image1.png", [x02])] in
  qualifying "word/media/image1.png" = false /\
  rewrite_items (intact zin) false (infolist zin) [] 0
  = ([(stored_info (entry_info "word/media/image1.png"), [x02]);
      (stored_info (entry_info "word/media/image1.png"), [x02])],
     Returned 0) /\
  external_attr (entry_info "word/media/image1.png") = 0%N /\
  external_attr (stored_info (entry_info "word/media/image1.png"))
  = 25165824%N.
Proof. vm_compute. repeat split; reflexivity. Qed.

(** C7.  When the source path does not exist, the call raises
    [FileNotFoundError] and leaves the file system as it was: no
    destination is created. *)
Theorem missing_source_raises (fs : gmap string file)
  (input_path output_path : string) (enable_square : bool) :
  fs !! input_path = None ->
  normalize_docx fs input_path output_path enable_square
  = (Raised FileNotFoundError, fs).
Proof. intros H. unfold normalize_docx. now rewrite H. Qed.

Lemma missing_source_raises_witness :
  let fs : gmap string file :=
    {[ "other.docx"%string := ZipFile [(entry_info "word/document.xml", [])] ]} in
  normalize_docx fs "in.docx" "out.docx" false = (Raised FileNotFoundError, fs)
  /\ snd (normalize_docx fs "in.docx" "out.docx" false) !! "out.docx"%string
     = None.
Proof.
  cbv zeta.
  rewrite (missing_source_raises _ "in.docx" "out.docx" false)
    by (vm_compute; reflexivity).
  split; [reflexivity | vm_compute; reflexivity].
Defined.


(** C9.  The list returned for a container is the list of the names
    matched in the qualifying entries, entry after entry in directory
    order and match after match within an entry, reduced to the first
    occurrence of each name; it has no duplicates. *)
Theorem census_first_seen (fs : gmap string file) (path : string)
  (z : archive) :
  fs !! path = Some (ZipFile z) ->
  fst (_detect_tags fs path) = Returned (first_seen (census_names z)) /\
  NoDup (first_seen (census_names z)).
Proof.
  intros Hp. split; [|apply first_seen_NoDup].
  unfold _detect_tags. now rewrite (detect_body_zip fs path z Hp).
Qed.

Lemma census_first_seen_witness :
  let z := [(entry_info "word/document.xml", utf8 "Dear {{a}}, see {{b}}.");
            (entry_info "docProps/app.xml", utf8 "{{z}}");
            (entry_info "word/footer1.xml", utf8 "{{a}}")] in
  let fs : gmap string file := {[ "t.docx"%string := ZipFile z ]} in
  census_names z = [str "a"; str "b"; str "a"] /\
  fst (_detect_tags fs "t.docx") = Returned [str "a"; str "b"].
Proof.
  cbv zeta. split; [vm_compute; reflexivity|].
  match goal with
  | |- fst (_detect_tags ?fs _) = _ =>
      destruct (census_first_seen fs "t.docx"
                  [(entry_info "word/document.xml", utf8 "Dear {{a}}, see {{b}}.");
                   (entry_info "docProps/app.xml", utf8 "{{z}}");
                   (entry_info "word/footer1.xml", utf8 "{{a}}")])
        as [H _]; [vm_compute; reflexivity|]; rewrite H
  end.
  vm_compute. reflexivity.
Defined.

(** ** The count and the candidates *)

Lemma subn_go_count pat repl : forall s skip,
    snd (subn_go pat repl skip s) = length (finditer_go pat skip s).
Proof.
  induction s as [|c s IH]; intros skip; simpl.
  - destruct skip; [|reflexivity]. now destruct (match_at pat []).
  - destruct skip as [|skip]; [|apply IH].
    destruct (match_at pat (c :: s)) as [mt|].
    + destruct (length (group0 mt)) as [|len']; simpl.
      * specialize (IH 0). destruct (subn_go pat repl 0 s). simpl in *.
        now rewrite IH.
      * specialize (IH len'). destruct (subn_go pat repl len' s). simpl in *.
        now rewrite IH.
    + specialize (IH 0). now destruct (subn_go pat repl 0 s).
Qed.

Lemma finditer_go_at pat : forall s skip m,
    m ∈ finditer_go pat skip s ->
    exists pre suf, s = pre ++ suf /\ match_at pat suf = Some m.
Proof.
  induction s as [|c s IH]; intros skip m Hm; simpl in Hm.
  - destruct skip; [|inversion Hm].
    destruct (match_at pat []) as [mt|] eqn:E; [|inversion Hm].
    apply list_elem_of_singleton in Hm. subst mt. now exists [], [].
  - assert (Hrec : forall k, m ∈ finditer_go pat k s ->
               exists pre suf, c :: s = pre ++ suf /\ match_at pat suf = Some m).
    { intros k Hk. destruct (IH k m Hk) as (pre & suf & -> & D).
      now exists (c :: pre), suf. }
    destruct skip as [|skip]; [|now apply (Hrec skip)].
    destruct (match_at pat (c :: s)) as [mt|] eqn:E; [|now apply (Hrec 0)].
    apply elem_of_cons in Hm. destruct Hm as [->|Hm]; [|now apply (Hrec _ Hm)].
    now exists [], (c :: s).
Qed.

Lemma finditer_go_skip pat w s :
  finditer_go pat (length w) (w ++ s) = finditer_go pat 0 s.
Proof. induction w as [|c w IH]; simpl; auto. Qed.

(** ** Lengths *)

Lemma match_at_length pat s mt :
  match_at pat s = Some mt -> length (group0 mt) <= length s.
Proof.
  intros H. apply match_at_prefix in H. destruct H as [post E].
  rewrite E, length_app. lia.
Qed.

Lemma subn_go_shrinks pat repl :
  (forall s mt, match_at pat s = Some mt ->
                length (repl mt) <= length (group0 mt)) ->
  forall s skip, length (fst (subn_go pat repl skip s)) <= length s - skip.
Proof.
  intros Hrepl. induction s as [|c s IH]; intros skip.
  - cbn [subn_go]. destruct skip; cbn; [|lia].
    destruct (match_at pat []) as [mt|] eqn:Hm; cbn; [|lia].
    pose proof (Hrepl _ _ Hm). pose proof (match_at_length _ _ _ Hm).
    cbn in *. lia.
  - cbn [subn_go]. destruct skip as [|skip]; [|apply IH].
    destruct (match_at pat (c :: s)) as [mt|] eqn:Hm.
    + pose proof (Hrepl _ _ Hm) as Hr. pose proof (match_at_length _ _ _ Hm) as Hl.
      destruct (length (group0 mt)) as [|len'].
      * specialize (IH 0). destruct (subn_go pat repl 0 s).
        cbn [fst length] in *. rewrite length_app. cbn [length]. lia.
      * specialize (IH len'). destruct (subn_go pat repl len' s).
        cbn [fst length] in *. rewrite length_app. lia.
    + specialize (IH 0). destruct (subn_go pat repl 0 s).
      cbn [fst length] in *. lia.
Qed.

Lemma sub_shrinks pat s : length (sub pat [] s) <= length s.
Proof.
  unfold sub, subn.
  pose proof (subn_go_shrinks pat (fun _ => [])
                (fun _ _ _ => Nat.le_0_l _) s 0). lia.
Qed.

Lemma is_prefix_length p : forall s, is_prefix p s = true -> length p <= length s.
Proof.
  induction p as [|a p IH]; intros [|b s]; cbn [is_prefix length];
    try lia; try discriminate.
  rewrite andb_true_iff. intros [_ H]. apply IH in H. lia.
Qed.

Lemma replace_go_shrinks old new :
  length new <= length old ->
  forall s skip, length (replace_go old new skip s) <= length s - skip.
Proof.
  intros Hn. induction s as [|c s IH]; intros skip; cbn [replace_go]; [cbn; lia|].
  destruct skip as [|skip]; [|apply IH].
  destruct (is_prefix old (c :: s)) eqn:Hp.
  - apply is_prefix_length in Hp. cbn [length] in *. rewrite length_app.
    specialize (IH (pred (length old))). lia.
  - cbn [length]. specialize (IH 0). lia.
Qed.

Lemma replace_shrinks old new s :
  length new <= length old -> length (replace old new s) <= length s.
Proof.
  intros H. unfold replace. pose proof (replace_go_shrinks old new H s 0). lia.
Qed.

Lemma clean_shrinks inner : length (clean inner) <= length inner.
Proof.
  unfold clean.
  etransitivity; [apply sub_shrinks|].
  etransitivity; [apply replace_shrinks; cbn; lia|].
  etransitivity; [apply replace_shrinks; cbn; lia|].
  etransitivity; [apply replace_shrinks; cbn; lia|].
  apply sub_shrinks.
Qed.

Lemma capture_length pat s mt :
  match_at pat s = Some mt -> length (default [] (group1 mt)) <= length s.
Proof.
  intros H. apply match_at_sound in H. destruct H as (after & E & D).
  apply derives_capture in D.
  destruct D as [-> | (pre & x & post & Ew & ->)]; cbn; [lia|].
  rewrite E, Ew, !length_app. lia.
Qed.

Lemma fragment_length f n1 inner n4 :
  length (fragment f n1 inner n4) = 4 + length n1 + length inner + length n4.
Proof.
  unfold fragment. cbn [length]. rewrite length_app. cbn [length].
  rewrite length_app. cbn [length]. rewrite length_app. cbn [length]. lia.
Qed.

Lemma repl_of_shrinks f s mt :
  match_at (pattern_of f) s = Some mt ->
  length (repl_of f mt) <= length (group0 mt).
Proof.
  intros Hm.
  destruct (match_at_cases f s)
    as [(n1 & inner & n4 & post & _ & _ & _ & _ & E) | [E _]];
    rewrite E in Hm; [|discriminate].
  injection Hm as <-. unfold repl_of. cbn [group0 group1 from_option id].
  destruct (rematch name_pattern (clean inner)) as [mname|] eqn:Hn; [|lia].
  unfold rematch in Hn. apply capture_length in Hn.
  pose proof (clean_shrinks inner).
  rewrite canonical_fragment, !fragment_length. cbn [length]. lia.
Qed.

Lemma normalize_shrinks f t : length (fst (normalize_of f t)) <= length t.
Proof.
  unfold normalize_of, subn.
  pose proof (subn_go_shrinks _ _ (repl_of_shrinks f) t 0). lia.
Qed.

(** ** Where the characters of the result come from *)

Section Members.
Variable P : N -> Prop.

Lemma subn_go_members pat repl :
  (forall s mt, Forall P s -> match_at pat s = Some mt -> Forall P (repl mt)) ->
  forall s skip, Forall P s -> Forall P (fst (subn_go pat repl skip s)).
Proof.
  intros Hrepl. induction s as [|c s IH]; intros skip Hs; cbn [subn_go].
  - destruct skip; [|constructor].
    destruct (match_at pat []) as [mt|] eqn:Hm; [|constructor].
    cbn [fst]. now apply (Hrepl []).
  - inversion Hs as [|? ? Hc Hs']; subst.
    destruct skip as [|skip]; [|now apply IH].
    destruct (match_at pat (c :: s)) as [mt|] eqn:Hm.
    + pose proof (Hrepl _ _ Hs Hm) as Hr.
      destruct (length (group0 mt)).
      * specialize (IH 0 Hs'). destruct (subn_go pat repl 0 s). cbn [fst] in *.
        apply Forall_app. split; [assumption | now constructor].
      * specialize (IH n Hs'). destruct (subn_go pat repl n s). cbn [fst] in *.
        apply Forall_app. split; assumption.
    + specialize (IH 0 Hs'). destruct (subn_go pat repl 0 s). cbn [fst] in *.
      now constructor.
Qed.

(** Cleaning may bring in the three characters that the entities stand
    for, and nothing else. *)
Lemma clean_members inner : Forall P inner -> Forall (or_entity P) (clean inner).
Proof.
  intros H. unfold clean, sub, subn, replace.
  apply subn_go_preserves; [constructor|].
  apply replace_go_preserves; [repeat constructor; unfold or_entity; tauto|].
  apply replace_go_preserves; [repeat constructor; unfold or_entity; tauto|].
  apply replace_go_preserves; [repeat constructor; unfold or_entity; tauto|].
  apply subn_go_preserves; [constructor|].
  eapply Forall_impl; [exact H|]. intros ch Hch. now left.
Qed.

Lemma repl_of_members f s mt :
  Forall P s -> match_at (pattern_of f) s = Some mt -> Forall P (repl_of f mt).
Proof.
  intros Hs Hm.
  destruct (match_at_cases f s)
    as [(n1 & inner & n4 & post & Es & _ & _ & _ & E) | [E _]];
    rewrite E in Hm; [|discriminate].
  injection Hm as <-. subst s.
  apply Forall_app in Hs. destruct Hs as [Hfrag _].
  unfold repl_of. cbn [group0 group1 from_option id].
  destruct (rematch name_pattern (clean inner)) as [mname|] eqn:Hn;
    [|assumption].
  pose proof (name_match_shape _ _ Hn) as Hid.
  apply identifier_chars in Hid.
  unfold rematch in Hn.
  apply (match_at_preserves (or_entity P)) in Hn.
  2:{ apply clean_members. unfold fragment in Hfrag.
      inversion Hfrag as [|? ? _ H1]; subst.
      apply Forall_app in H1. destruct H1 as [_ H1].
      inversion H1 as [|? ? _ H2]; subst.
      apply Forall_app in H2. tauto. }
  destruct Hn as [_ Hvar].
  assert (Hv : Forall P (default [] (group1 mname))).
  { rewrite Forall_forall in *. intros ch Hch.
    specialize (Hid ch Hch). specialize (Hvar ch Hch). cbn beta in Hid.
    apply name_char_plain in Hid. destruct Hid as (H1 & H2 & H3 & _).
    destruct Hvar as [Hp | [E1 | [E1 | E1]]]; [assumption | | |]; contradiction. }
  unfold fragment in Hfrag. unfold canonical.
  inversion Hfrag as [|? ? Ho H1]; subst.
  apply Forall_app in H1. destruct H1 as [_ H1].
  inversion H1 as [|? ? _ H2]; subst.
  apply Forall_app in H2. destruct H2 as [_ H2].
  inversion H2 as [|? ? Hc _]; subst.
  apply Forall_app. split; [now repeat constructor|].
  apply Forall_app. split; [assumption | now repeat constructor].
Qed.

Lemma normalize_members f t :
  Forall P t -> Forall P (fst (normalize_of f t)).
Proof.
  intros H. unfold normalize_of, subn.
  apply subn_go_members; [apply repl_of_members | assumption].
Qed.
End Members.

(** ** The census on a canonical placeholder *)

Lemma name_start_not_space c : is_name_start c = true -> is_space c = false.
Proof. intros H. apply name_start_char in H. now apply name_char_plain in H. Qed.

Lemma run_census name post :
  is_identifier name = true ->
  run census_pattern Some (MState (canonical Curly name ++ post) None)
  = Some (MState post (Some name)).
Proof.
  destruct name as [|c r]; [discriminate|]. cbn [is_identifier].
  rewrite andb_true_iff, forallb_forall. intros [Hc Hr].
  unfold canonical, census_pattern. cbn [open_char close_char].
  replace (([chr "{"; chr "{"] ++ (c :: r) ++ [chr "}"; chr "}"]) ++ post)
    with (chr "{" :: chr "{" :: (c :: r) ++ chr "}" :: chr "}" :: post)
    by (cbn [app]; now rewrite <- app_assoc).
  rewrite run_cat, run_lit_hit, run_cat, run_lit_hit, run_cat.
  unfold space at 1.
  rewrite run_class_stop by (cbn [app stops]; now apply name_start_not_space).
  rewrite run_cat, run_group. cbn [app].
  rewrite run_cat, run_chr_cons, Hc.
  apply run_class_greedy.
  { apply Forall_forall. intros x Hx. apply Hr. now apply list_elem_of_In. }
  rewrite run_class_stop by reflexivity.
  cbn [rest].
  change (c :: r ++ chr "}" :: chr "}" :: post)
    with ((c :: r) ++ chr "}" :: chr "}" :: post).
  rewrite firstn_app_exact.
  rewrite run_cat. unfold space.
  rewrite run_class_stop by reflexivity.
  rewrite run_cat, run_lit_hit. apply run_lit_hit.
Qed.

Lemma match_census name post :
  is_identifier name = true ->
  match_at census_pattern (canonical Curly name ++ post)
  = Some (RMatch (canonical Curly name) (Some name)).
Proof.
  intros H. unfold match_at. rewrite run_census by assumption.
  cbn [rest grp]. now rewrite firstn_app_exact.
Qed.

Lemma names_in_canonical name post :
  is_identifier name = true ->
  names_in (canonical Curly name ++ post) = name :: names_in post.
Proof.
  intros H. unfold names_in, finditer.
  pose proof (match_census name post H) as Hm.
  unfold canonical in *. cbn [open_char close_char app] in *.
  cbn [finditer_go]. rewrite Hm. cbn [group0 length pred map var_of group1].
  f_equal.
  replace (chr "{" :: name ++ [chr "}"; chr "}"] ++ post)
    with ((chr "{" :: name ++ [chr "}"; chr "}"]) ++ post)
    by (cbn [app]; now rewrite <- app_assoc).
  replace (length (name ++ [chr "}"; chr "}"]))
    with (pred (length (chr "{" :: name ++ [chr "}"; chr "}"]))) by reflexivity.
  cbn [length pred].
  change (S (length (name ++ [chr "}"; chr "}"])))
    with (length (chr "{" :: name ++ [chr "}"; chr "}"])).
  now rewrite finditer_go_skip.
Qed.

(** ** UTF-8: bytes and bits *)

Lemma byte_of_to_N d : byte_of (Byte.to_N d) = d.
Proof.
  unfold byte_of.
  rewrite N.mod_small by (pose proof (Byte.to_N_bounded d); lia).
  now rewrite Byte.of_to_N.
Qed.

Lemma to_N_byte_of n : (n < 256)%N -> Byte.to_N (byte_of n) = n.
Proof.
  intros H. unfold byte_of. rewrite N.mod_small by assumption.
  destruct (Byte.of_N n) as [b|] eqn:E; cbn.
  - now apply Byte.to_of_N.
  - apply Byte.of_N_None_iff in E. lia.
Qed.

(** Setting the low bits of a lead or continuation byte is adding them. *)
Lemma lor_lead a x k :
  (a mod 2 ^ k = 0)%N -> (x < 2 ^ k)%N -> N.lor a x = (a + x)%N.
Proof.
  intros Ha Hx.
  assert (H0 : N.land a x = 0%N).
  { apply N.bits_inj. intros n. rewrite N.land_spec, N.bits_0.
    destruct (N.ltb_spec n k) as [Hn|Hn].
    - rewrite <- (N.mod_pow2_bits_low a k n Hn), Ha, N.bits_0. reflexivity.
    - destruct (N.eq_dec x 0%N) as [->|Hne].
      + rewrite N.bits_0. apply andb_false_r.
      + rewrite (N.bits_above_log2 x n); [apply andb_false_r|].
        apply N.lt_le_trans with k; [|assumption].
        apply N.log2_lt_pow2; [lia | assumption]. }
  now rewrite N.add_nocarry_lxor, N.lxor_lor.
Qed.

Ltac arith_bits :=
  rewrite ?N.shiftl_mul_pow2, ?N.shiftr_div_pow2 in *;
  change 63%N with (N.ones 6) in *; rewrite ?N.land_ones in *;
  change (2 ^ 6)%N with 64%N in *; change (2 ^ 12)%N with 4096%N in *;
  change (2 ^ 18)%N with 262144%N in *.

Ltac divmod x k :=
  pose proof (N.Div0.div_mod x k);
  pose proof (N.mod_upper_bound x k ltac:(lia));
  pose proof (N.le_0_l (x mod k));
  pose proof (N.le_0_l (x / k)).

Ltac bool_facts :=
  unfold is_continuation, is_surrogate, in_range in *;
  repeat match goal with
    | H : (_ || _) = false |- _ => apply orb_false_iff in H; destruct H
    | H : (_ || _) = true |- _ => apply orb_true_iff in H; destruct H
    | H : negb _ = false |- _ => apply negb_false_iff in H
    | H : negb _ = true |- _ => apply negb_true_iff in H
    | H : (_ && _) = true |- _ => apply andb_true_iff in H; destruct H
    | H : (_ && _) = false |- _ => apply andb_false_iff in H; destruct H
    | H : (if ?c then _ else _) = _ |- _ => destruct c eqn:?
    | H : (_ <? _)%N = true |- _ => apply N.ltb_lt in H
    | H : (_ <? _)%N = false |- _ => apply N.ltb_ge in H
    | H : (_ <=? _)%N = true |- _ => apply N.leb_le in H
    | H : (_ <=? _)%N = false |- _ => apply N.leb_gt in H
    | H : (_ =? _)%N = true |- _ => apply N.eqb_eq in H
    | H : (_ =? _)%N = false |- _ => apply N.eqb_neq in H
    end.

Lemma encode_one d0 :
  (Byte.to_N d0 < 128)%N -> encode_char (Byte.to_N d0) = Some [d0].
Proof.
  intros H. unfold encode_char.
  rewrite (proj2 (N.ltb_lt _ _) H). now rewrite byte_of_to_N.
Qed.

Lemma encode_two d0 d1 :
  (194 <= Byte.to_N d0)%N -> (Byte.to_N d0 < 224)%N ->
  is_continuation (Byte.to_N d1) = true ->
  encode_char (N.shiftl (Byte.to_N d0) 6 + Byte.to_N d1
               - (N.shiftl 192 6 + 128))%N = Some [d0; d1].
Proof.
  intros H0 H0' H1. bool_facts. arith_bits.
  set (b0 := Byte.to_N d0) in *. set (b1 := Byte.to_N d1) in *.
  set (cp := (_ - _)%N).
  assert (Hcp : (cp = (b0 - 192) * 64 + (b1 - 128))%N) by (subst cp; lia).
  clearbody cp.
  unfold encode_char.
  rewrite (proj2 (N.ltb_ge cp 128)) by lia.
  rewrite (proj2 (N.ltb_lt cp 2048)) by lia.
  arith_bits.
  divmod cp 64%N.
  rewrite (lor_lead 192 (cp / 64) 5)
    by first [reflexivity | change (2 ^ 5)%N with 32%N; lia].
  rewrite (lor_lead 128 (cp mod 64) 6)
    by first [reflexivity | change (2 ^ 6)%N with 64%N; lia].
  replace (192 + cp / 64)%N with b0 by lia.
  replace (128 + cp mod 64)%N with b1 by lia.
  subst b0 b1. now rewrite !byte_of_to_N.
Qed.

Lemma encode_three d0 d1 d2 :
  (224 <= Byte.to_N d0)%N -> (Byte.to_N d0 < 240)%N ->
  negb (is_continuation (Byte.to_N d1))
  || (if (Byte.to_N d1 <? 160)%N then (Byte.to_N d0 =? 224)%N
      else (Byte.to_N d0 =? 237)%N) = false ->
  is_continuation (Byte.to_N d2) = true ->
  encode_char (N.shiftl (Byte.to_N d0) 12 + N.shiftl (Byte.to_N d1) 6
               + Byte.to_N d2
               - (N.shiftl 224 12 + N.shiftl 128 6 + 128))%N
  = Some [d0; d1; d2].
Proof.
  intros H0 H0' H1 H2.
  set (b0 := Byte.to_N d0) in *. set (b1 := Byte.to_N d1) in *.
  set (b2 := Byte.to_N d2) in *.
  bool_facts; arith_bits;
  set (cp := (_ - _)%N);
  (assert (Hcp : (cp = (b0 - 224) * 4096 + (b1 - 128) * 64 + (b2 - 128))%N)
    by (subst cp; lia));
  clearbody cp;
  unfold encode_char;
  rewrite (proj2 (N.ltb_ge cp 128)) by lia;
  rewrite (proj2 (N.ltb_ge cp 2048)) by lia;
  (replace (is_surrogate cp) with false
    by (symmetry; unfold is_surrogate, in_range;
        apply andb_false_iff; rewrite !N.leb_gt; lia));
  rewrite (proj2 (N.ltb_lt cp 65536)) by lia;
  arith_bits;
  divmod cp 4096%N;
  divmod cp 64%N;
  divmod (cp / 64)%N 64%N;
  rewrite (lor_lead 224 (cp / 4096) 4)
    by first [reflexivity | change (2 ^ 4)%N with 16%N; lia];
  rewrite (lor_lead 128 ((cp / 64) mod 64) 6)
    by first [reflexivity | change (2 ^ 6)%N with 64%N; lia];
  rewrite (lor_lead 128 (cp mod 64) 6)
    by first [reflexivity | change (2 ^ 6)%N with 64%N; lia];
  replace (224 + cp / 4096)%N with b0 by lia;
  replace (128 + (cp / 64) mod 64)%N with b1 by lia;
  replace (128 + cp mod 64)%N with b2 by lia;
  subst b0 b1 b2; now rewrite !byte_of_to_N.
Qed.

Lemma encode_four d0 d1 d2 d3 :
  (240 <= Byte.to_N d0)%N -> (Byte.to_N d0 < 245)%N ->
  negb (is_continuation (Byte.to_N d1))
  || (if (Byte.to_N d1 <? 144)%N then (Byte.to_N d0 =? 240)%N
      else (Byte.to_N d0 =? 244)%N) = false ->
  is_continuation (Byte.to_N d2) = true ->
  is_continuation (Byte.to_N d3) = true ->
  encode_char (N.shiftl (Byte.to_N d0) 18 + N.shiftl (Byte.to_N d1) 12
               + N.shiftl (Byte.to_N d2) 6 + Byte.to_N d3
               - (N.shiftl 240 18 + N.shiftl 128 12
                  + N.shiftl 128 6 + 128))%N
  = Some [d0; d1; d2; d3].
Proof.
  intros H0 H0' H1 H2 H3.
  set (b0 := Byte.to_N d0) in *. set (b1 := Byte.to_N d1) in *.
  set (b2 := Byte.to_N d2) in *. set (b3 := Byte.to_N d3) in *.
  bool_facts; arith_bits;
  set (cp := (_ - _)%N);
  (assert (Hcp : (cp = (b0 - 240) * 262144 + (b1 - 128) * 4096
                       + (b2 - 128) * 64 + (b3 - 128))%N)
    by (subst cp; lia));
  clearbody cp;
  unfold encode_char;
  rewrite (proj2 (N.ltb_ge cp 128)) by lia;
  rewrite (proj2 (N.ltb_ge cp 2048)) by lia;
  (replace (is_surrogate cp) with false
    by (symmetry; unfold is_surrogate, in_range;
        apply andb_false_iff; rewrite !N.leb_gt; lia));
  rewrite (proj2 (N.ltb_ge cp 65536)) by lia;
  arith_bits;
  divmod cp 262144%N;
  divmod cp 4096%N;
  divmod (cp / 4096)%N 64%N;
  divmod cp 64%N;
  divmod (cp / 64)%N 64%N;
  rewrite (lor_lead 240 (cp / 262144) 3)
    by first [reflexivity | change (2 ^ 3)%N with 8%N; lia];
  rewrite (lor_lead 128 ((cp / 4096) mod 64) 6)
    by first [reflexivity | change (2 ^ 6)%N with 64%N; lia];
  rewrite (lor_lead 128 ((cp / 64) mod 64) 6)
    by first [reflexivity | change (2 ^ 6)%N with 64%N; lia];
  rewrite (lor_lead 128 (cp mod 64) 6)
    by first [reflexivity | change (2 ^ 6)%N with 64%N; lia];
  replace (240 + cp / 262144)%N with b0 by lia;
  replace (128 + (cp / 4096) mod 64)%N with b1 by lia;
  replace (128 + (cp / 64) mod 64)%N with b2 by lia;
  replace (128 + cp mod 64)%N with b3 by lia;
  subst b0 b1 b2 b3; now rewrite !byte_of_to_N.
Qed.

(** ** UTF-8: encoding what was decoded from valid data *)

Lemma omap_id_some (x : N) (l : list (option N)) :
  omap id (Some x :: l) = x :: omap id l.
Proof. reflexivity. Qed.

Lemma encode_decode_valid : forall n data, length data <= n ->
    valid_utf8 data = true -> encode (decode_ignore data) = Some data.
Proof.
  unfold valid_utf8, decode_ignore.
  induction n as [|n IH]; intros data Hl Hv.
  - destruct data; [reflexivity | simpl in Hl; lia].
  - destruct data as [|d0 s1]; [reflexivity|].
    cbn [map utf8_scan] in Hv |- *.
    destruct (Byte.to_N d0 <? 128)%N eqn:C1.
    { apply N.ltb_lt in C1. cbn [forallb andb] in Hv.
      rewrite omap_id_some. cbn [encode].
      rewrite encode_one by assumption.
      rewrite (IH s1) by first [assumption | simpl in Hl; lia]. reflexivity. }
    destruct (Byte.to_N d0 <? 194)%N eqn:C2;
      [cbn [forallb andb] in Hv; discriminate Hv|].
    apply N.ltb_ge in C2.
    destruct (Byte.to_N d0 <? 224)%N eqn:C3.
    { apply N.ltb_lt in C3.
      destruct s1 as [|d1 s2]; cbn [map] in Hv |- *;
        [cbn [forallb andb] in Hv; discriminate Hv|].
      destruct (is_continuation (Byte.to_N d1)) eqn:K1;
        [|cbn [forallb andb] in Hv; discriminate Hv].
      cbn [forallb andb] in Hv. rewrite omap_id_some. cbn [encode].
      rewrite encode_two by assumption.
      rewrite (IH s2) by first [assumption | simpl in Hl; lia]. reflexivity. }
    apply N.ltb_ge in C3.
    destruct (Byte.to_N d0 <? 240)%N eqn:C4.
    { apply N.ltb_lt in C4.
      destruct s1 as [|d1 s2]; cbn [map] in Hv |- *;
        [cbn [forallb andb] in Hv; discriminate Hv|].
      match type of Hv with
      | context [if ?c then _ else _] => destruct c eqn:K1
      end; [cbn [forallb andb] in Hv; discriminate Hv|].
      destruct s2 as [|d2 s3]; cbn [map] in Hv |- *;
        [cbn [forallb andb] in Hv; discriminate Hv|].
      destruct (is_continuation (Byte.to_N d2)) eqn:K2;
        [|cbn [forallb andb] in Hv; discriminate Hv].
      cbn [forallb andb] in Hv. rewrite omap_id_some. cbn [encode].
      rewrite encode_three by assumption.
      rewrite (IH s3) by first [assumption | simpl in Hl; lia]. reflexivity. }
    apply N.ltb_ge in C4.
    destruct (Byte.to_N d0 <? 245)%N eqn:C5;
      [|cbn [forallb andb] in Hv; discriminate Hv].
    apply N.ltb_lt in C5.
    destruct s1 as [|d1 s2]; cbn [map] in Hv |- *;
      [cbn [forallb andb] in Hv; discriminate Hv|].
    match type of Hv with
    | context [if ?c then _ else _] => destruct c eqn:K1
    end; [cbn [forallb andb] in Hv; discriminate Hv|].
    destruct s2 as [|d2 s3]; cbn [map] in Hv |- *;
      [cbn [forallb andb] in Hv; discriminate Hv|].
    destruct (is_continuation (Byte.to_N d2)) eqn:K2; cbn [negb] in Hv |- *;
      [|cbn [forallb andb] in Hv; discriminate Hv].
    destruct s3 as [|d3 s4]; cbn [map] in Hv |- *;
      [cbn [forallb andb] in Hv; discriminate Hv|].
    destruct (is_continuation (Byte.to_N d3)) eqn:K3;
      [|cbn [forallb andb] in Hv; discriminate Hv].
    cbn [forallb andb] in Hv. rewrite omap_id_some. cbn [encode].
    rewrite encode_four by assumption.
    rewrite (IH s4) by first [assumption | simpl in Hl; lia]. reflexivity.
Qed.

(** ** UTF-8: decoding what was encoded *)

Lemma scan_one b0 s :
  (b0 < 128)%N -> utf8_scan (b0 :: s) = Some b0 :: utf8_scan s.
Proof. intros H. cbn [utf8_scan]. now rewrite (proj2 (N.ltb_lt _ _) H). Qed.

Lemma scan_two b0 b1 s :
  (194 <= b0)%N -> (b0 < 224)%N -> is_continuation b1 = true ->
  utf8_scan (b0 :: b1 :: s)
  = Some (N.shiftl b0 6 + b1 - (N.shiftl 192 6 + 128))%N :: utf8_scan s.
Proof.
  intros H0 H0' H1. remember (b1 :: s) as s1 eqn:E1. cbn [utf8_scan].
  rewrite (proj2 (N.ltb_ge b0 128)) by lia.
  rewrite (proj2 (N.ltb_ge b0 194)) by lia.
  rewrite (proj2 (N.ltb_lt b0 224)) by lia.
  subst s1. cbv iota. now rewrite H1.
Qed.

Lemma scan_three b0 b1 b2 s :
  (224 <= b0)%N -> (b0 < 240)%N -> is_continuation b1 = true ->
  (if (b1 <? 160)%N then (b0 =? 224)%N else (b0 =? 237)%N) = false ->
  is_continuation b2 = true ->
  utf8_scan (b0 :: b1 :: b2 :: s)
  = Some (N.shiftl b0 12 + N.shiftl b1 6 + b2
          - (N.shiftl 224 12 + N.shiftl 128 6 + 128))%N :: utf8_scan s.
Proof.
  intros H0 H0' H1 H1' H2.
  remember (b2 :: s) as s2 eqn:E2. remember (b1 :: s2) as s1 eqn:E1.
  cbn [utf8_scan].
  rewrite (proj2 (N.ltb_ge b0 128)) by lia.
  rewrite (proj2 (N.ltb_ge b0 194)) by lia.
  rewrite (proj2 (N.ltb_ge b0 224)) by lia.
  rewrite (proj2 (N.ltb_lt b0 240)) by lia.
  subst s1. cbv iota. rewrite H1, H1'. cbn [negb orb].
  subst s2. cbv iota. now rewrite H2.
Qed.

Lemma scan_four b0 b1 b2 b3 s :
  (240 <= b0)%N -> (b0 < 245)%N -> is_continuation b1 = true ->
  (if (b1 <? 144)%N then (b0 =? 240)%N else (b0 =? 244)%N) = false ->
  is_continuation b2 = true -> is_continuation b3 = true ->
  utf8_scan (b0 :: b1 :: b2 :: b3 :: s)
  = Some (N.shiftl b0 18 + N.shiftl b1 12 + N.shiftl b2 6 + b3
          - (N.shiftl 240 18 + N.shiftl 128 12 + N.shiftl 128 6 + 128))%N
      :: utf8_scan s.
Proof.
  intros H0 H0' H1 H1' H2 H3.
  remember (b3 :: s) as s3 eqn:E3. remember (b2 :: s3) as s2 eqn:E2.
  remember (b1 :: s2) as s1 eqn:E1.
  cbn [utf8_scan].
  rewrite (proj2 (N.ltb_ge b0 128)) by lia.
  rewrite (proj2 (N.ltb_ge b0 194)) by lia.
  rewrite (proj2 (N.ltb_ge b0 224)) by lia.
  rewrite (proj2 (N.ltb_ge b0 240)) by lia.
  rewrite (proj2 (N.ltb_lt b0 245)) by lia.
  subst s1. cbv iota. rewrite H1, H1'. cbn [negb orb].
  subst s2. cbv iota. rewrite H2. cbn [negb].
  subst s3. cbv iota. now rewrite H3.
Qed.

Ltac continuation :=
  unfold is_continuation, in_range; apply andb_true_iff;
  rewrite !N.leb_le; lia.

Lemma scan_encoded ch bs rest :
  (ch < 1114112)%N -> encode_char ch = Some bs ->
  utf8_scan (map Byte.to_N bs ++ rest) = Some ch :: utf8_scan rest.
Proof.
  intros Hr. unfold encode_char.
  destruct (ch <? 128)%N eqn:C1.
  { intros [= <-]. cbn [map app]. apply N.ltb_lt in C1.
    rewrite to_N_byte_of by lia. now apply scan_one. }
  apply N.ltb_ge in C1.
  destruct (ch <? 2048)%N eqn:C2.
  { intros [= <-]. cbn [map app]. apply N.ltb_lt in C2. arith_bits.
    divmod ch 64%N.
    rewrite (lor_lead 192 (ch / 64) 5)
      by first [reflexivity | change (2 ^ 5)%N with 32%N; lia].
    rewrite (lor_lead 128 (ch mod 64) 6)
      by first [reflexivity | change (2 ^ 6)%N with 64%N; lia].
    rewrite !to_N_byte_of by lia.
    rewrite scan_two; [| lia | lia | continuation].
    do 2 f_equal. arith_bits. lia. }
  apply N.ltb_ge in C2.
  destruct (is_surrogate ch) eqn:C3; [discriminate|].
  destruct (ch <? 65536)%N eqn:C4.
  { intros [= <-]. cbn [map app]. apply N.ltb_lt in C4. bool_facts; arith_bits;
    divmod ch 4096%N; divmod ch 64%N; divmod (ch / 64)%N 64%N;
    rewrite (lor_lead 224 (ch / 4096) 4)
      by first [reflexivity | change (2 ^ 4)%N with 16%N; lia];
    rewrite (lor_lead 128 ((ch / 64) mod 64) 6)
      by first [reflexivity | change (2 ^ 6)%N with 64%N; lia];
    rewrite (lor_lead 128 (ch mod 64) 6)
      by first [reflexivity | change (2 ^ 6)%N with 64%N; lia];
    rewrite !to_N_byte_of by lia;
    (rewrite scan_three; [| lia | lia | continuation | | continuation]);
    [ do 2 f_equal; arith_bits; lia
    | destruct (N.ltb_spec (128 + (ch / 64) mod 64) 160);
        [apply N.eqb_neq | apply N.eqb_neq]; lia
    | do 2 f_equal; arith_bits; lia
    | destruct (N.ltb_spec (128 + (ch / 64) mod 64) 160);
        [apply N.eqb_neq | apply N.eqb_neq]; lia ]. }
  apply N.ltb_ge in C4.
  intros [= <-]. cbn [map app]. arith_bits.
  divmod ch 262144%N. divmod ch 4096%N. divmod (ch / 4096)%N 64%N.
  divmod ch 64%N. divmod (ch / 64)%N 64%N.
  rewrite (lor_lead 240 (ch / 262144) 3)
    by first [reflexivity | change (2 ^ 3)%N with 8%N; lia].
  rewrite (lor_lead 128 ((ch / 4096) mod 64) 6)
    by first [reflexivity | change (2 ^ 6)%N with 64%N; lia].
  rewrite (lor_lead 128 ((ch / 64) mod 64) 6)
    by first [reflexivity | change (2 ^ 6)%N with 64%N; lia].
  rewrite (lor_lead 128 (ch mod 64) 6)
    by first [reflexivity | change (2 ^ 6)%N with 64%N; lia].
  rewrite !to_N_byte_of by lia.
  rewrite scan_four; [| lia | lia | continuation | | continuation | continuation].
  - do 2 f_equal. arith_bits. lia.
  - destruct (N.ltb_spec (128 + (ch / 4096) mod 64) 144);
      apply N.eqb_neq; lia.
Qed.

Lemma scan_encode : forall t data,
    Forall in_unicode t -> encode t = Some data ->
    utf8_scan (map Byte.to_N data) = map Some t.
Proof.
  induction t as [|ch t IH]; intros data Ht He; cbn [encode] in He.
  - injection He as <-. reflexivity.
  - inversion Ht as [|? ? Hch Ht']; subst.
    destruct (encode_char ch) as [b|] eqn:Eb; [|discriminate].
    destruct (encode t) as [bs|] eqn:Ebs; [|discriminate].
    injection He as <-. rewrite map_app.
    rewrite (scan_encoded ch b _ Hch Eb). cbn [map]. f_equal. now apply IH.
Qed.

Lemma omap_id_map_Some (t : text) : omap id (map Some t) = t.
Proof. induction t as [|ch t IH]; [reflexivity|]. cbn [map]. rewrite omap_id_some. now rewrite IH. Qed.

Lemma decode_encode t data :
  Forall in_unicode t -> encode t = Some data ->
  decode_ignore data = t /\ valid_utf8 data = true.
Proof.
  intros Ht He. unfold decode_ignore, valid_utf8.
  rewrite (scan_encode t data Ht He). split; [apply omap_id_map_Some|].
  clear. induction t; [reflexivity | assumption].
Qed.

(** ** What is written for a textual part *)

Lemma utf8_scan_unicode : forall n s, length s <= n ->
    Forall (fun o => forall ch, o = Some ch -> in_unicode ch) (utf8_scan s).
Proof.
  induction n as [|n IH]; intros s Hl.
  - destruct s; [constructor | simpl in Hl; lia].
  - destruct s as [|b0 s1]; [constructor|]. cbn [utf8_scan].
    repeat match goal with
      | |- Forall _ (if ?c then _ else _) => destruct c eqn:?
      | |- Forall _ (match ?s with [] => _ | _ :: _ => _ end) => destruct s
      | |- Forall _ (_ :: _) => constructor
      | |- Forall _ [] => constructor
      | |- Forall _ (utf8_scan _) => apply IH; simpl in *; lia
      end;
      intros ch [= <-]; unfold in_unicode; bool_facts; arith_bits; lia.
Qed.

Lemma decode_unicode data : Forall in_unicode (decode_ignore data).
Proof.
  unfold decode_ignore.
  pose proof (utf8_scan_unicode _ (map Byte.to_N data) (le_n _)) as H.
  induction H as [|o l Ho _ IH]; [constructor|].
  destruct o as [ch|]; cbn; [constructor; auto | assumption].
Qed.

Lemma unicode_low ch : (ch < 256)%N -> in_unicode ch.
Proof. unfold in_unicode. lia. Qed.

Lemma reconstruct_preserves (P : N -> Prop) sq t :
  (forall ch, (ch < 256)%N -> P ch) ->
  Forall P t -> Forall P (fst (reconstruct sq t)).
Proof.
  intros HP H. unfold reconstruct, _normalize_jinja_curly, _normalize_jinja_square.
  pose proof (normalize_of_preserves P HP Curly t H) as H1.
  unfold normalize_of, pattern_curly, repl_curly in *.
  destruct (subn (pattern_of Curly) (repl_of Curly) t) as [t1 n1]. simpl in H1.
  destruct sq; [|assumption].
  pose proof (normalize_of_preserves P HP Square t1 H1) as H2.
  unfold normalize_of, pattern_square, repl_square in *.
  now destruct (subn (pattern_of Square) (repl_of Square) t1).
Qed.

Lemma rewrite_part_decodes sq data :
  valid_utf8 (fst (rewrite_part sq data 0)) = true /\
  decode_ignore (fst (rewrite_part sq data 0))
  = fst (reconstruct sq (decode_ignore data)).
Proof.
  destruct (rewrite_part_reconstruct sq data) as (b & Hb & ->). cbn [fst].
  pose proof (decode_encode _ b
                (reconstruct_preserves in_unicode sq _ unicode_low
                   (decode_unicode data)) Hb) as [H1 H2].
  now split.
Qed.

Lemma reconstruct_zero sq t :
  snd (reconstruct sq t) = 0 -> fst (reconstruct sq t) = t.
Proof.
  unfold reconstruct, _normalize_jinja_curly, _normalize_jinja_square,
    pattern_curly, repl_curly, pattern_square, repl_square, subn.
  destruct (subn_go (pattern_of Curly) (repl_of Curly) 0 t) as [t1 n1] eqn:E1.
  destruct sq.
  - destruct (subn_go (pattern_of Square) (repl_of Square) 0 t1) as [t2 n2] eqn:E2.
    cbn [fst snd]. intros H.
    assert (n1 = 0) by lia. assert (n2 = 0) by lia. subst n1 n2.
    apply subn_go_zero in E1, E2. simpl in E1, E2. now subst.
  - cbn [fst snd]. intros ->. now apply subn_go_zero in E1.
Qed.

Lemma rewrite_part_clean sq data total :
  valid_utf8 data = true -> snd (reconstruct sq (decode_ignore data)) = 0 ->
  rewrite_part sq data total = (data, total).
Proof.
  intros Hv H0. rewrite rewrite_part_total.
  destruct (rewrite_part_reconstruct sq data) as (b & Hb & ->).
  rewrite (reconstruct_zero sq _ H0) in Hb.
  rewrite (encode_decode_valid _ data (le_n _) Hv) in Hb. injection Hb as <-.
  cbn [fst snd]. rewrite H0. f_equal. lia.
Qed.

(** ** Reading the destination back *)

(** In the destination the content of an entry is determined by its
    name, so that a read by name returns what was written for the entry
    even when names repeat. *)
Lemma name_table_by_name (g : string -> bytes) (items : list ZipInfo) :
  forall (m : gmap string (ZipInfo * bytes)),
    (forall k e, m !! k = Some e -> snd e = g k) ->
    forall k e,
      foldl (fun m e => <[filename (fst e) := e]> m) m
        (map (fun item => (stored_info item, g (filename item))) items) !! k
      = Some e ->
      snd e = g k.
Proof.
  induction items as [|item items IH]; intros m Hm k e; cbn [map foldl].
  - apply Hm.
  - apply IH. intros k' e'. cbn [fst]. rewrite filename_stored_info.
    destruct (decide (filename item = k')) as [->|Hne].
    + rewrite lookup_insert_eq. now intros [= <-].
    + rewrite lookup_insert_ne by assumption. apply Hm.
Qed.

Lemma entry_step_by_name (zin : archive) sq item :
  fst (entry_step zin sq item)
  = (fun name =>
       if qualifying name
       then fst (rewrite_part sq
                   (match read (intact zin) name with
                    | Returned d => d
                    | Raised _ => []
                    end) 0)
       else match read (intact zin) name with
            | Returned d => d
            | Raised _ => []
            end)
      (filename item).
Proof. unfold entry_step, entry_data. now destruct (qualifying (filename item)). Qed.

Lemma entry_data_name (z : archive) item item' :
  filename item = filename item' -> entry_data z item = entry_data z item'.
Proof. unfold entry_data. now intros ->. Qed.

Lemma entry_step_name (z : archive) sq item item' :
  filename item = filename item' -> entry_step z sq item = entry_step z sq item'.
Proof. unfold entry_step, entry_data. now intros ->. Qed.

Lemma entry_data_written (zin : archive) sq item :
  item ∈ infolist zin ->
  entry_data (map (fun item => (stored_info item, fst (entry_step zin sq item)))
                (infolist zin))
    item
  = fst (entry_step zin sq item).
Proof.
  intros Hin.
  set (g := fun name =>
       if qualifying name
       then fst (rewrite_part sq
                   (match read (intact zin) name with
                    | Returned d => d
                    | Raised _ => []
                    end) 0)
       else match read (intact zin) name with
            | Returned d => d
            | Raised _ => []
            end).
  assert (Hmap : map (fun item => (stored_info item, fst (entry_step zin sq item)))
                   (infolist zin)
                 = map (fun item => (stored_info item, g (filename item)))
                     (infolist zin)).
  { apply map_ext. intros it. now rewrite entry_step_by_name. }
  rewrite Hmap, (entry_step_by_name zin sq item). fold g.
  rewrite entry_data_table. unfold NameToInfo.
  destruct (name_table_listed
              (map (fun item => (stored_info item, g (filename item)))
                 (infolist zin))
              ∅ (filename item)) as [e He].
  { left. rewrite map_map. cbn [fst]. apply list_elem_of_fmap.
    exists item. now rewrite filename_stored_info. }
  rewrite He.
  apply (name_table_by_name g (infolist zin) ∅) in He; [assumption|].
  intros k e'. rewrite lookup_empty. discriminate.
Qed.

Lemma census_written (zin : archive) sq :
  census_names (map (fun item => (stored_info item, fst (entry_step zin sq item)))
                  (infolist zin))
  = flat_map (fun item =>
                if qualifying (filename item)
                then names_in (fst (reconstruct sq
                                      (decode_ignore (entry_data zin item))))
                else []) (infolist zin).
Proof.
  unfold census_names.
  assert (Hl : infolist (map (fun item =>
                                (stored_info item, fst (entry_step zin sq item)))
                           (infolist zin)) = map stored_info (infolist zin)).
  { unfold infolist at 1. rewrite map_map. now apply map_ext. }
  rewrite Hl.
  assert (Hall : forall items, (forall it, it ∈ items -> it ∈ infolist zin) ->
    flat_map (fun item =>
                if qualifying (filename item)
                then names_in (decode_ignore
                       (entry_data (map (fun item =>
                                           (stored_info item,
                                            fst (entry_step zin sq item)))
                                      (infolist zin)) item))
                else []) (map stored_info items)
    = flat_map (fun item =>
                if qualifying (filename item)
                then names_in (fst (reconstruct sq
                                      (decode_ignore (entry_data zin item))))
                else []) items).
  { induction items as [|it items IH]; intros Hin; [reflexivity|].
    cbn [map flat_map]. rewrite IH by (intros; apply Hin; now right). f_equal.
    rewrite filename_stored_info.
    destruct (qualifying (filename it)) eqn:Hq; [|reflexivity].
    rewrite (entry_data_name _ (stored_info it) it (filename_stored_info it)).
    rewrite entry_data_written by (apply Hin; left).
    unfold entry_step. rewrite Hq.
    now rewrite (proj2 (rewrite_part_decodes sq _)). }
  apply Hall. auto.
Qed.

(** ** The pass over a container, as a whole *)

Lemma entries_own (z : archive) item data :
  NoDup (map (fun e => filename (fst e)) z) ->
  (item, data) ∈ z -> entry_data z item = data.
Proof.
  intros Hnd Hin. apply list_elem_of_lookup in Hin. destruct Hin as [i Hi].
  now apply (read_own z i).
Qed.

Lemma sum_list_zero {A} (f : A -> nat) (l : list A) :
  (forall x, x ∈ l -> f x = 0) -> sum_list (map f l) = 0.
Proof.
  induction l as [|x l IH]; intros H; [reflexivity|]. cbn [map sum_list].
  rewrite (H x) by left. rewrite IH; [reflexivity|].
  intros y Hy. apply H. now right.
Qed.

Lemma reconstruct_curly t :
  fst (reconstruct false t) = fst (_normalize_jinja_curly t).
Proof. unfold reconstruct. now destruct (_normalize_jinja_curly t). Qed.

Lemma detect_written fs path (zin : archive) sq :
  _detect_tags
    (<[path := ZipFile (map (fun item =>
                               (stored_info item, fst (entry_step zin sq item)))
                          (infolist zin))]> fs) path
  = (Returned (first_seen
       (flat_map (fun item =>
                    if qualifying (filename item)
                    then names_in (fst (reconstruct sq
                                          (decode_ignore (entry_data zin item))))
                    else []) (infolist zin))), None).
Proof.
  unfold _detect_tags.
  rewrite (detect_body_zip _ path _ (lookup_insert_eq _ _ _)).
  now rewrite census_written.
Qed.

(** ** Paths *)

Lemma prefix_append_same (b c : string) : String.prefix b (b +:+ c) = true.
Proof.
  induction b as [|a b IH]; [now destruct c|].
  change (String a b +:+ c) with (String a (b +:+ c)). cbn [String.prefix].
  destruct (ascii_dec a a); [exact IH | contradiction].
Qed.

Lemma prefix_append (a b c : string) :
  String.prefix (a +:+ b) (a +:+ (b +:+ c)) = true.
Proof.
  induction a as [|x a IH].
  - change ("" +:+ b)%string with b.
    change ("" +:+ (b +:+ c))%string with (b +:+ c).
    apply prefix_append_same.
  - change (String x a +:+ b) with (String x (a +:+ b)).
    change (String x a +:+ (b +:+ c)) with (String x (a +:+ (b +:+ c))).
    cbn [String.prefix].
    destruct (ascii_dec x x); [exact IH | contradiction].
Qed.

Lemma under_join td name : under td (path_join td name) = true.
Proof. apply prefix_append. Qed.

Lemma cleanup_fresh td (fs : gmap string file) :
  (forall p, under td p = true -> fs !! p = None) -> cleanup td fs = fs.
Proof.
  intros H. unfold cleanup. apply map_filter_id. intros p f Hp. cbn [fst].
  destruct (under td p) eqn:E; [|reflexivity].
  rewrite (H p E) in Hp. discriminate.
Qed.

Lemma detect_upload_zip fs file_path normalized_path (zin : archive) :
  file_path <> normalized_path ->
  fs !! file_path = Some (ZipFile zin) ->
  detect_upload fs file_path normalized_path
  = (normalized_path,
     Returned (first_seen
       (flat_map (fun item =>
          if qualifying (filename item)
          then names_in (fst (_normalize_jinja_curly
                                (decode_ignore (entry_data zin item))))
          else []) (infolist zin))),
     <[normalized_path :=
         ZipFile (map (fun item =>
                         (stored_info item, fst (entry_step zin false item)))
                    (infolist zin))]> fs).
Proof.
  intros Hne Hin. unfold detect_upload, normalize_upload.
  rewrite (normalize_docx_zip _ _ _ _ zin Hne Hin).
  unfold exists_path. rewrite lookup_insert_eq.
  rewrite bool_decide_eq_true_2 by eauto.
  rewrite detect_written. cbn [fst].
  erewrite flat_map_ext; [reflexivity|].
  intros item. cbv beta. now rewrite reconstruct_curly.
Qed.

Lemma names_after_repair n1 inner n4 name post :
  noise_seq n1 -> noise_seq n4 ->
  Forall (fun ch => ch <> chr "}") inner ->
  clean inner = name -> is_identifier name = true ->
  names_in (fst (_normalize_jinja_curly (fragment Curly n1 inner n4 ++ post)))
  = name :: names_in (fst (_normalize_jinja_curly post)).
Proof.
  intros H1 H4 Hin Hc Hn.
  change (_normalize_jinja_curly ?t) with (normalizer Curly t).
  rewrite !normalizer_of.
  rewrite (normalize_fragment Curly n1 inner n4 post name) by assumption.
  cbn [fst]. now apply names_in_canonical.
Qed.

Lemma entry_data_single item data : entry_data [(item, data)] item = data.
Proof.
  rewrite entry_data_table. unfold NameToInfo. cbn [foldl fst].
  now rewrite lookup_insert_eq.
Qed.

(** ** The command line *)

Lemma main_in_place_run td args fs (zin : archive) :
  arg_inplace args = true ->
  fs !! arg_input args = Some (ZipFile zin) ->
  under td (arg_input args) = false ->
  (forall p, under td p = true -> fs !! p = None) ->
  main td args fs
  = (Completed,
     [done_inplace
        (sum_list (map (entry_count zin (arg_enable_square args)) (infolist zin)))
        (arg_input args)],
     <[arg_input args :=
         ZipFile (map (fun item =>
                         (stored_info item,
                          fst (entry_step zin (arg_enable_square args) item)))
                    (infolist zin))]> fs).
Proof.
  intros Hip Hin Hu Hfresh. unfold main. rewrite Hip.
  cbn [negb]. rewrite andb_false_r.
  assert (Htmp : arg_input args <> path_join td "normalized.docx").
  { intros E. rewrite E, under_join in Hu. discriminate. }
  rewrite (normalize_docx_zip _ _ _ _ zin Htmp Hin).
  unfold move. rewrite lookup_insert_eq.
  rewrite delete_insert_id by (apply Hfresh, under_join).
  do 2 f_equal. apply map_filter_id. intros p f Hp. cbn [fst].
  destruct (decide (arg_input args = p)) as [<-|Hne]; [assumption|].
  rewrite lookup_insert_ne in Hp by assumption.
  destruct (under td p) eqn:E; [|reflexivity].
  rewrite (Hfresh p E) in Hp. discriminate.
Qed.

(** ** Replacing the runs of a character class *)

Lemma star_class_total p st :
  exists res, run (Star true (Chr p)) Some st = Some res.
Proof.
  rewrite run_star. cbv zeta.
  destruct (run (Chr p) _ st) as [res|]; cbn [orelse]; eauto.
Qed.

Lemma match_plus_miss p c s :
  match_at (plus (Chr p)) (c :: s) = None -> p c = false.
Proof.
  unfold match_at, plus. rewrite run_cat, run_chr_cons.
  destruct (p c); [|reflexivity].
  destruct (star_class_total p (MState s None)) as [res ->]. discriminate.
Qed.

Lemma match_plus_nonempty p s mt :
  match_at (plus (Chr p)) s = Some mt -> group0 mt <> [].
Proof.
  intros H. apply match_at_sound in H. destruct H as (after & _ & D).
  unfold plus in D. remember (group0 mt) as w eqn:Ew. clear Ew.
  inversion D as [ | ? ? w1 w2 ? ? ? ? D1 D2 | | | | | | ]; subst.
  apply derives_chr in D1. destruct D1 as (c & -> & _). discriminate.
Qed.

Lemma sub_class_result p repl :
  Forall (fun c => p c = false) repl ->
  forall s skip,
    Forall (fun c => p c = false)
      (fst (subn_go (plus (Chr p)) (fun _ => repl) skip s)).
Proof.
  intros Hr. induction s as [|c s IH]; intros skip; cbn [subn_go].
  - destruct skip; [|constructor].
    destruct (match_at (plus (Chr p)) []); [assumption | constructor].
  - destruct skip as [|skip]; [|apply IH].
    destruct (match_at (plus (Chr p)) (c :: s)) as [mt|] eqn:Hm.
    + apply match_plus_nonempty in Hm.
      destruct (group0 mt) as [|x w]; [congruence|]. cbn [length].
      specialize (IH (length w)).
      destruct (subn_go (plus (Chr p)) (fun _ => repl) (length w) s).
      cbn [fst] in *. apply Forall_app. now split.
    + apply match_plus_miss in Hm. specialize (IH 0).
      destruct (subn_go (plus (Chr p)) (fun _ => repl) 0 s).
      cbn [fst] in *. now constructor.
Qed.

Lemma sub_unsafe_result s :
  Forall (fun c => is_filename_char c = true) (sub unsafe_run (str "_") s).
Proof.
  unfold sub, subn, unsafe_run.
  eapply Forall_impl; [apply sub_class_result|].
  - repeat constructor.
  - intros c Hc. cbv beta in Hc. now apply negb_false_iff in Hc.
Qed.

Lemma build_filename_safe lower requested ext default_name :
  safe_name default_name ->
  safe_name (_build_filename lower requested ext default_name).
Proof.
  intros Hd. unfold _build_filename. cbv zeta.
  match goal with
  | |- safe_name (if ?b1 || ?b2 || ?b3 then _ else ?n) =>
      destruct b1 eqn:E1; [exact Hd|];
      destruct b2 eqn:E2; [exact Hd|];
      destruct b3 eqn:E3; [exact Hd|]
  end.
  cbn [orb]. apply bool_decide_eq_false in E1, E2, E3.
  repeat split; try assumption. apply sub_unsafe_result.
Qed.

(** ** Splitting a name at slashes *)

Lemma split_go_last sep : forall a cur b,
    Forall (fun ch => ch <> sep) b ->
    List.last (split_go sep (a ++ sep :: b) cur) [] = b.
Proof.
  assert (Htail : forall b cur, Forall (fun ch => ch <> sep) b ->
                    split_go sep b cur = [cur ++ b]).
  { induction b as [|x b IH]; intros cur Hb; cbn [split_go].
    - now rewrite app_nil_r.
    - inversion Hb as [|? ? Hx Hb']; subst.
      destruct (N.eqb_spec x sep) as [->|_]; [congruence|].
      rewrite IH by assumption. now rewrite <- app_assoc. }
  induction a as [|x a IH]; intros cur b Hb; cbn [app split_go].
  - rewrite N.eqb_refl, Htail by assumption. reflexivity.
  - destruct (N.eqb x sep).
    + specialize (IH [] b Hb).
      destruct (split_go sep (a ++ sep :: b) []) eqn:E; [|exact IH].
      exfalso. clear -E. revert E. generalize (@nil N).
      induction (a ++ sep :: b) as [|y l IHl]; intros cur; cbn [split_go];
        [discriminate|].
      destruct (N.eqb y sep); [discriminate | apply IHl].
    + now apply IH.
Qed.

Lemma listed_id_blob_name api_key template_id :
  Forall (fun ch => ch <> chr "/") template_id ->
  listed_id (blob_name api_key template_id) = template_id.
Proof.
  intros Ht. unfold listed_id, blob_name, split.
  change (str "/" ++ template_id ++ str ".docx")
    with (chr "/" :: template_id ++ str ".docx").
  rewrite split_go_last.
  - rewrite length_app. change (length (str ".docx")) with 5.
    replace (length template_id + 5 - 5) with (length template_id) by lia.
    now rewrite take_app_length.
  - apply Forall_app. split; [assumption|].
    repeat constructor; discriminate.
Qed.

(** ** Quotas *)

Lemma PLANS_get_other p :
  p <> "gratuit"%string -> p <> "starter"%string -> p <> "pro"%string ->
  PLANS_get (VStr p) = None.
Proof.
  intros H1 H2 H3. unfold PLANS_get, PLANS.
  rewrite !lookup_insert_ne by congruence.
  destruct (decide (p = "illimite"%string)) as [->|H4].
  - now rewrite lookup_singleton_eq.
  - now rewrite lookup_singleton_ne by congruence.
Qed.

Lemma use_once_within keys k p used q :
  key_state keys k p used -> PLANS_get (VStr p) = Some q -> (used < q)%Z ->
  exists keys', use_once keys k = inl keys' /\ key_state keys' k p (used + 1).
Proof.
  intros (d & Hk & Ha & Hp & Hu) Hq Hlt.
  unfold use_once, check_quota_or_raise, consume_quota_transaction.
  rewrite Hk, Ha, Hp, Hu. cbn [default from_option id truthy negb].
  rewrite Hq. cbn [ge_int add_one].
  rewrite (proj2 (Z.leb_gt q used)) by assumption.
  eexists. split; [reflexivity|].
  exists (<["quota_used"%string := VInt (used + 1)]> d).
  rewrite lookup_insert_eq, lookup_insert_eq.
  rewrite !lookup_insert_ne by discriminate. auto.
Qed.

Lemma use_once_exhausted keys k p used q :
  key_state keys k p used -> PLANS_get (VStr p) = Some q -> (q <= used)%Z ->
  use_once keys k = inr (HTTPException 429).
Proof.
  intros (d & Hk & Ha & Hp & Hu) Hq Hle.
  unfold use_once, check_quota_or_raise.
  rewrite Hk, Ha, Hp, Hu. cbn [default from_option id truthy negb].
  rewrite Hq. cbn [ge_int].
  now rewrite (proj2 (Z.leb_le q used)) by assumption.
Qed.

Lemma use_once_unlimited keys k p used :
  key_state keys k p used -> PLANS_get (VStr p) = None ->
  exists keys', use_once keys k = inl keys' /\ key_state keys' k p (used + 1).
Proof.
  intros (d & Hk & Ha & Hp & Hu) Hq.
  unfold use_once, check_quota_or_raise, consume_quota_transaction.
  rewrite Hk, Ha, Hp, Hu. cbn [default from_option id truthy negb].
  rewrite Hq. cbn [add_one].
  eexists. split; [reflexivity|].
  exists (<["quota_used"%string := VInt (used + 1)]> d).
  rewrite lookup_insert_eq, lookup_insert_eq.
  rewrite !lookup_insert_ne by discriminate. auto.
Qed.

Lemma use_times_within q p k : forall m keys used,
    key_state keys k p used -> PLANS_get (VStr p) = Some q ->
    (used + Z.of_nat m <= q)%Z ->
    exists keys', use_times m keys k = inl keys' /\
                  key_state keys' k p (used + Z.of_nat m).
Proof.
  induction m as [|m IH]; intros keys used Hs Hq Hle.
  - exists keys. split; [reflexivity|]. now rewrite Z.add_0_r.
  - cbn [use_times].
    destruct (use_once_within keys k p used q Hs Hq) as (keys1 & -> & Hs1); [lia|].
    destruct (IH keys1 (used + 1)%Z Hs1 Hq) as (keys' & -> & Hs'); [lia|].
    exists keys'. split; [reflexivity|].
    now replace (used + Z.of_nat (S m))%Z with (used + 1 + Z.of_nat m)%Z by lia.
Qed.

Lemma use_times_beyond q p k : forall m keys used,
    key_state keys k p used -> PLANS_get (VStr p) = Some q ->
    (used <= q)%Z -> (q < used + Z.of_nat m)%Z ->
    use_times m keys k = inr (HTTPException 429).
Proof.
  induction m as [|m IH]; intros keys used Hs Hq Hle Hgt; [lia|].
  cbn [use_times].
  destruct (Z.eq_dec used q) as [->|Hne].
  - now rewrite (use_once_exhausted keys k p q q Hs Hq) by lia.
  - destruct (use_once_within keys k p used q Hs Hq) as (keys1 & -> & Hs1); [lia|].
    apply (IH keys1 (used + 1)%Z); try assumption; lia.
Qed.

Lemma use_times_unlimited p k : forall m keys used,
    key_state keys k p used -> PLANS_get (VStr p) = None ->
    exists keys', use_times m keys k = inl keys' /\
                  key_state keys' k p (used + Z.of_nat m).
Proof.
  induction m as [|m IH]; intros keys used Hs Hq.
  - exists keys. split; [reflexivity|]. now rewrite Z.add_0_r.
  - cbn [use_times].
    destruct (use_once_unlimited keys k p used Hs Hq) as (keys1 & -> & Hs1).
    destruct (IH keys1 (used + 1)%Z Hs1 Hq) as (keys' & -> & Hs').
    exists keys'. split; [reflexivity|].
    now replace (used + Z.of_nat (S m))%Z with (used + 1 + Z.of_nat m)%Z by lia.
Qed.

Lemma created_key_state (keys : collection) k name plan now :
  keys !! k = Some (create_key_data name plan now) ->
  key_state keys k (or_gratuit plan) 0.
Proof.
  intros H. exists (create_key_data name plan now). split; [assumption|].
  unfold create_key_data, or_gratuit.
  repeat split.
Qed.


(** ** The administration of keys *)

Lemma admin_required_token A t :
  admin_required A t = None -> given A = true /\ t = A.
Proof.
  unfold admin_required.
  destruct (given A) eqn:HA; cbn [negb]; [|discriminate].
  destruct (given t) eqn:Ht; cbn [negb]; [|discriminate].
  destruct A as [a|]; [|discriminate]. destruct t as [s|]; [|discriminate].
  cbn [default from_option id]. unfold compare_digest.
  destruct (is_ascii_string s && is_ascii_string a); [|discriminate].
  destruct (String.eqb_spec s a) as [->|]; [auto | discriminate].
Qed.

Lemma clients_manager_create A t keys uuid_hex now cak plan ia name :
  admin_required A t = None -> given name = true ->
  clients_manager A t (Some keys) uuid_hex now "create_key" cak plan ia name
  = (inl (created_key ("sk_" +:+ uuid_hex)
            (create_key_data (default ""%string name) plan now)),
     Some (<[("sk_" +:+ uuid_hex)%string :=
               create_key_data (default ""%string name) plan now]> keys)).
Proof.
  intros HA Hn. unfold clients_manager. rewrite HA.
  change (String.eqb "create_key" "create_key") with true. cbv iota.
  now rewrite Hn.
Qed.

Lemma clients_manager_update_plan A t keys uuid_hex now k p' name d :
  admin_required A t = None -> given (Some k) = true ->
  keys !! k = Some d ->
  clients_manager A t (Some keys) uuid_hex now "update_key" (Some k) (Some p')
    None name
  = (inl (status "updated"),
     Some (<[k := <["plan"%string := VStr p']> d]> keys)).
Proof.
  intros HA Hk Hd. unfold clients_manager. rewrite HA.
  change (String.eqb "update_key" "create_key") with false.
  change (String.eqb "update_key" "list_keys") with false.
  change (String.eqb "update_key" "get_details") with false.
  change (String.eqb "update_key" "update_key") with true. cbv iota.
  rewrite Hk. cbn [negb default from_option id update_fields app].
  now rewrite Hd.
Qed.

Lemma clients_manager_reset A t keys uuid_hex now k plan ia name d :
  admin_required A t = None -> given (Some k) = true ->
  keys !! k = Some d ->
  clients_manager A t (Some keys) uuid_hex now "reset_quota" (Some k) plan
    ia name
  = (inl (status "quota_reset"),
     Some (<[k := <["quota_used"%string := VInt 0]> d]> keys)).
Proof.
  intros HA Hk Hd. unfold clients_manager. rewrite HA.
  change (String.eqb "reset_quota" "create_key") with false.
  change (String.eqb "reset_quota" "list_keys") with false.
  change (String.eqb "reset_quota" "get_details") with false.
  change (String.eqb "reset_quota" "update_key") with false.
  change (String.eqb "reset_quota" "delete_key") with false.
  change (String.eqb "reset_quota" "reset_quota") with true. cbv iota.
  rewrite Hk. cbn [negb default from_option id].
  now rewrite Hd.
Qed.

Lemma key_state_update_plan (keys : collection) k p' used d :
  keys !! k = Some d ->
  d !! "is_active"%string = Some (VBool true) ->
  d !! "quota_used"%string = Some (VInt used) ->
  key_state (<[k := <["plan"%string := VStr p']> d]> keys) k p' used.
Proof.
  intros Hk Ha Hu. exists (<["plan"%string := VStr p']> d).
  rewrite lookup_insert_eq, lookup_insert_eq.
  rewrite !lookup_insert_ne by discriminate. auto.
Qed.

Lemma key_state_reset (keys : collection) k p d :
  keys !! k = Some d ->
  d !! "is_active"%string = Some (VBool true) ->
  d !! "plan"%string = Some (VStr p) ->
  key_state (<[k := <["quota_used"%string := VInt 0]> d]> keys) k p 0.
Proof.
  intros Hk Ha Hp. exists (<["quota_used"%string := VInt 0]> d).
  rewrite lookup_insert_eq, lookup_insert_eq.
  rewrite !lookup_insert_ne by discriminate. auto.
Qed.

(** ** More on the destination and on the command line *)

Lemma written_by_name (zin : archive) sq i item data :
  map (fun item => (stored_info item, fst (entry_step zin sq item)))
    (infolist zin) !! i
  = Some (item, data) ->
  data = fst (entry_step zin sq item).
Proof.
  change (map ?f ?l) with (f <$> l). rewrite list_lookup_fmap.
  destruct (infolist zin !! i) as [it|]; cbn; [|discriminate].
  intros [= <- <-]. f_equal. apply entry_step_name.
  symmetry. apply filename_stored_info.
Qed.

Lemma intact_inj (z1 z2 : archive) : intact z1 = intact z2 -> z1 = z2.
Proof.
  revert z2. induction z1 as [|[i1 d1] z1 IH]; intros [|[i2 d2] z2] H;
    try discriminate; [reflexivity|].
  cbn in H. injection H as -> -> H. f_equal. now apply IH.
Qed.

Lemma entry_step_same_name (zin : archive) sq item1 item2 :
  filename item1 = filename item2 ->
  fst (entry_step zin sq item1) = fst (entry_step zin sq item2).
Proof. intros E. rewrite !entry_step_by_name. now rewrite E. Qed.

Lemma main_output_run td args fs (zin : archive) out :
  arg_inplace args = false -> arg_output args = Some out ->
  given (Some out) = true -> out <> arg_input args ->
  fs !! arg_input args = Some (ZipFile zin) ->
  main td args fs
  = (Completed,
     [done_output
        (sum_list (map (entry_count zin (arg_enable_square args)) (infolist zin)))
        out],
     <[out :=
         ZipFile (map (fun item =>
                         (stored_info item,
                          fst (entry_step zin (arg_enable_square args) item)))
                    (infolist zin))]> fs).
Proof.
  intros Hip Hout Hg Hne Hin. unfold main. rewrite Hip, Hout, Hg.
  cbn [negb andb default from_option id].
  now rewrite (normalize_docx_zip _ _ _ _ zin (not_eq_sym Hne) Hin).
Qed.

Lemma PLANS_quota_positive p q : PLANS_get (VStr p) = Some q -> (0 <= q)%Z.
Proof.
  unfold PLANS_get, PLANS.
  destruct (decide (p = "gratuit"%string)) as [->|H1];
    [rewrite lookup_insert_eq; cbn; intros [= <-]; lia|].
  rewrite lookup_insert_ne by congruence.
  destruct (decide (p = "starter"%string)) as [->|H2];
    [rewrite lookup_insert_eq; cbn; intros [= <-]; lia|].
  rewrite lookup_insert_ne by congruence.
  destruct (decide (p = "pro"%string)) as [->|H3];
    [rewrite lookup_insert_eq; cbn; intros [= <-]; lia|].
  rewrite lookup_insert_ne by congruence.
  destruct (decide (p = "illimite"%string)) as [->|H4].
  - rewrite lookup_singleton_eq. discriminate.
  - rewrite lookup_singleton_ne by congruence. discriminate.
Qed.

(** ** The extension of a download name *)

Lemma is_prefix_spec p : forall s, is_prefix p s = true -> exists r, s = p ++ r.
Proof.
  induction p as [|a p IH]; intros s H; [now exists s|].
  destruct s as [|b s]; [discriminate|]. cbn [is_prefix] in H.
  apply andb_true_iff in H. destruct H as [Hab H].
  apply N.eqb_eq in Hab. subst b.
  destruct (IH s H) as [r ->]. now exists r.
Qed.

Lemma is_prefix_app p r : is_prefix p (p ++ r) = true.
Proof.
  induction p as [|a p IH]; [reflexivity|]. cbn [app is_prefix].
  now rewrite N.eqb_refl, IH.
Qed.

Lemma ends_with_spec s x : ends_with s x = true -> exists w, s = w ++ x.
Proof.
  unfold ends_with. intros H. apply is_prefix_spec in H. destruct H as [r E].
  exists (rev r). apply (f_equal (@rev N)) in E.
  now rewrite rev_involutive, rev_app_distr, rev_involutive in E.
Qed.

Lemma ends_with_app w x : ends_with (w ++ x) x = true.
Proof. unfold ends_with. rewrite rev_app_distr. apply is_prefix_app. Qed.

Lemma lstrip_keeps (P : N -> Prop) s : Forall P s -> Forall P (lstrip s).
Proof.
  induction 1 as [|c s Hc Hs IH]; cbn [lstrip]; [constructor|].
  destruct (is_space c); [assumption | now constructor].
Qed.

Lemma strip_keeps (P : N -> Prop) s : Forall P s -> Forall P (strip s).
Proof.
  intros H. unfold strip, rstrip.
  apply Forall_rev, lstrip_keeps, Forall_rev, lstrip_keeps, H.
Qed.

Lemma basename_keeps (P : N -> Prop) s : Forall P s -> Forall P (basename s).
Proof. intros H. unfold basename, slice_from. now apply Forall_drop. Qed.

(** A prefix made of characters of a class ends before a suffix made of
    characters outside it. *)
Lemma class_prefix_length (p : N -> bool) : forall l a e r,
    l ++ r = a ++ e ->
    Forall (fun c => p c = true) l -> Forall (fun c => p c = false) e ->
    length l <= length a.
Proof.
  induction l as [|x l IH]; intros a e r E Hl He; [cbn; lia|].
  inversion Hl as [|? ? Hx Hl']; subst.
  destruct a as [|y a]; cbn [app] in E.
  - exfalso. destruct e as [|z e]; [discriminate|]. injection E as <- _.
    inversion He as [|? ? Hz _]; subst. congruence.
  - injection E as <- E. cbn [length].
    specialize (IH a e r E Hl' He). lia.
Qed.

Lemma match_plus_class p s mt :
  match_at (plus (Chr p)) s = Some mt -> Forall (fun c => p c = true) (group0 mt).
Proof.
  intros H. apply match_at_sound in H. destruct H as (after & _ & D).
  unfold plus in D. remember (group0 mt) as w eqn:Ew. clear Ew.
  inversion D as [ | ? ? w1 w2 ? ? ? ? D1 D2 | | | | | | ]; subst.
  apply derives_chr in D1. destruct D1 as (c & -> & Hc & _).
  apply derives_class in D2. destruct D2 as [H2 _].
  now constructor.
Qed.

Lemma match_plus_none p c s : p c = false -> match_at (plus (Chr p)) (c :: s) = None.
Proof.
  intros H. unfold match_at, plus. now rewrite run_cat, run_chr_cons, H.
Qed.

(** Replacing the runs of a class leaves a suffix outside the class as
    it is. *)
Lemma sub_class_suffix p repl e :
  Forall (fun c => p c = false) e ->
  forall w skip, skip <= length w ->
    exists x, fst (subn_go (plus (Chr p)) (fun _ => repl) skip (w ++ e)) = x ++ e.
Proof.
  intros He.
  assert (Hend : fst (subn_go (plus (Chr p)) (fun _ => repl) 0 e) = e).
  { rewrite <- (app_nil_r e) at 1. rewrite subn_go_run.
    - cbn. now rewrite app_nil_r.
    - intros w1 c w2 ->. apply match_plus_none.
      apply Forall_app in He. destruct He as [_ He]. now inversion He. }
  induction w as [|c w IH]; intros skip Hs.
  - cbn [length] in Hs. replace skip with 0 by lia. now exists [].
  - cbn [app subn_go]. destruct skip as [|skip].
    + destruct (match_at (plus (Chr p)) (c :: w ++ e)) as [mt|] eqn:Hm.
      * pose proof (match_plus_class _ _ _ Hm) as Hcl.
        pose proof (match_plus_nonempty _ _ _ Hm) as Hne.
        destruct (match_at_prefix _ _ _ Hm) as [post E].
        destruct (group0 mt) as [|y l] eqn:Hg; [congruence|]. cbn [length].
        assert (Hlen : length (y :: l) <= length (c :: w)).
        { apply (class_prefix_length p (y :: l) (c :: w) e post);
            [now rewrite <- E | assumption | assumption]. }
        cbn [length] in Hlen.
        destruct (IH (length l)) as [x Hx]; [lia|].
        destruct (subn_go (plus (Chr p)) (fun _ => repl) (length l) (w ++ e)).
        cbn [fst] in *. exists (repl ++ x). now rewrite Hx, app_assoc.
      * destruct (IH 0) as [x Hx]; [lia|].
        destruct (subn_go (plus (Chr p)) (fun _ => repl) 0 (w ++ e)).
        cbn [fst] in *. exists (c :: x). now rewrite Hx.
    + cbn [length] in Hs. apply IH. lia.
Qed.

Lemma ascii_lower_map s : ascii_lower s = map lower_letter s.
Proof. reflexivity. Qed.

Lemma lower_letter_safe c :
  is_filename_char (lower_letter c) = true ->
  in_range 65 90 (lower_letter c) = false ->
  is_filename_char c = true.
Proof.
  unfold lower_letter, is_filename_char, in_range.
  destruct ((65 <=? c)%N && (c <=? 90)%N) eqn:E.
  - intros _ _. reflexivity.
  - intros H _. rewrite E in H. exact H.
Qed.

Lemma lower_letter_fixed c : in_range 65 90 c = false -> lower_letter c = c.
Proof. unfold lower_letter. now intros ->. Qed.

Lemma safe_is_ascii c : is_filename_char c = true -> (c < 128)%N.
Proof.
  unfold is_filename_char, in_range.
  rewrite !orb_true_iff, !andb_true_iff, !N.leb_le, !N.eqb_eq. lia.
Qed.

Lemma ascii_lower_fixed x :
  Forall (fun c => in_range 65 90 c = false) x -> ascii_lower x = x.
Proof.
  rewrite ascii_lower_map. induction 1 as [|c e Hc _ IH]; [reflexivity|].
  cbn [map]. now rewrite IH, lower_letter_fixed.
Qed.

Lemma lowered_suffix_safe : forall e x,
    map lower_letter e = x ->
    Forall (fun c => is_filename_char c = true /\ in_range 65 90 c = false) x ->
    Forall (fun c => is_filename_char c = true) e.
Proof.
  induction e as [|c e IH]; intros x Ee Hx; [constructor|].
  destruct x as [|y x]; [discriminate|]. cbn in Ee. injection Ee as Ey Ee.
  inversion Hx as [|? ? [H1 H2] Hx']; subst.
  constructor; [now apply lower_letter_safe | now apply (IH (map lower_letter e))].
Qed.

Section Extension.
Variable lower : text -> text.
Hypothesis lower_ascii :
  forall s, Forall (fun c => (c < 128)%N) s -> lower s = ascii_lower s.
Variable ext default_name : text.
Hypothesis ext_plain :
  Forall (fun c => is_filename_char c = true /\ in_range 65 90 c = false) ext.
Hypothesis default_ext : ends_with (lower default_name) ext = true.

Lemma ext_fixed : ascii_lower ext = ext.
Proof.
  apply ascii_lower_fixed.
  eapply Forall_impl; [exact ext_plain|]. now intros c [_ H].
Qed.

Lemma forced_name_shape name :
  Forall (fun c => (c < 128)%N) name ->
  exists w e,
    (if negb (ends_with (lower name) ext)
     then fst (splitext name) ++ ext else name) = w ++ e /\
    ascii_lower e = ext /\ Forall (fun c => is_filename_char c = true) e.
Proof.
  intros Hascii.
  destruct (ends_with (lower name) ext) eqn:E; cbn [negb].
  - rewrite (lower_ascii name Hascii) in E.
    apply ends_with_spec in E. destruct E as [w' E].
    rewrite ascii_lower_map in E. apply fmap_app_inv in E.
    destruct E as (w & e & _ & Ee & ->).
    exists w, e. split; [reflexivity|]. split; [now rewrite ascii_lower_map, Ee|].
    exact (lowered_suffix_safe e ext (eq_sym Ee) ext_plain).
  - exists (fst (splitext name)), ext. split; [reflexivity|].
    split; [apply ext_fixed|].
    eapply Forall_impl; [exact ext_plain|]. now intros c [H _].
Qed.

Lemma build_filename_extension requested :
  Forall (fun c => (c < 128)%N) (or_default requested default_name) ->
  ends_with (lower (_build_filename lower requested ext default_name)) ext = true.
Proof.
  intros Hascii. unfold _build_filename. cbv zeta.
  destruct (forced_name_shape (basename (strip (or_default requested default_name))))
    as (w & e & -> & Ee & He).
  { now apply basename_keeps, strip_keeps. }
  match goal with
  | |- ends_with (lower (if ?b then _ else _)) _ = true =>
      destruct b; [exact default_ext|]
  end.
  destruct (sub_class_suffix (fun c => negb (is_filename_char c)) (str "_") e)
    with (w := w) (skip := 0) as [x Hx].
  { eapply Forall_impl; [exact He|]. intros c Hc. cbv beta. now rewrite Hc. }
  { lia. }
  pose proof (sub_unsafe_result (w ++ e)) as Hsafe.
  unfold sub, subn, unsafe_run in *. rewrite Hx in *.
  rewrite lower_ascii.
  - rewrite ascii_lower_map, map_app. rewrite <- (ascii_lower_map e), Ee.
    apply ends_with_app.
  - eapply Forall_impl; [exact Hsafe|]. intros c. apply safe_is_ascii.
Qed.
End Extension.

(** ** When an entry cannot be read *)

(** Once the file is emptied, the read of a listed name finds a truncated
    header. *)
Lemma read_truncated (z : container) (item : ZipInfo) :
  item ∈ infolist z -> read (truncated z) (filename item) = Raised BadZipFile.
Proof.
  intros H. unfold read, NameToInfo, truncated.
  pose proof (name_table_map (fun _ : content => Damaged Corrupt) z ∅) as E.
  rewrite fmap_empty in E. rewrite E, lookup_fmap.
  destruct (name_table_listed z ∅ (filename item)) as [e ->]; [|reflexivity].
  left. unfold infolist in H. apply list_elem_of_fmap in H.
  destruct H as (x & -> & Hx). apply list_elem_of_fmap. eauto.
Qed.

Lemma infolist_writestr (zout : archive) item data :
  infolist (writestr zout item data) = infolist zout ++ [stored_info item].
Proof. unfold infolist, writestr. now rewrite map_app. Qed.

(** When the loop raises, it does so at the first listed entry whose read
    by name raises, with the exception of that read; the entries listed
    before it have been written. *)
Lemma rewrite_items_raised (z : container) sq e :
  forall items (zout zout' : archive) total,
    (forall item, item ∈ items -> item ∈ infolist z) ->
    rewrite_items z sq items zout total = (zout', Raised e) ->
    exists items1 item rest why,
      items = items1 ++ item :: rest /\
      read z (filename item) = Raised e /\ e = raised_by why /\
      (forall it, it ∈ items1 -> exists d, read z (filename it) = Returned d) /\
      infolist zout' = infolist zout ++ map stored_info items1.
Proof.
  induction items as [|item items IH]; intros zout zout' total Hin H;
    simpl in H; [discriminate|].
  destruct (read z (filename item)) as [data|e'] eqn:Hr.
  - destruct (if qualifying (filename item)
              then rewrite_part sq data total
              else (data, total)) as [data' total'].
    apply IH in H; [|intros; apply Hin; now right].
    destruct H as (items1 & it & rest & why & -> & H1 & H2 & H3 & H4).
    exists (item :: items1), it, rest, why. repeat split; auto.
    + intros x Hx. apply elem_of_cons in Hx. destruct Hx as [->|Hx]; eauto.
    + rewrite H4, infolist_writestr, <- app_assoc. reflexivity.
  - injection H as <- ->.
    destruct (read_listed_raised z item e (Hin item ltac:(left)) Hr) as [why ->].
    exists [], item, items, why. repeat split; auto.
    + intros it Hit. inversion Hit.
    + now rewrite app_nil_r.
Qed.

(** The pass changes the file system at the destination path at most,
    and when it returns the destination is a container that it wrote. *)
Lemma normalize_docx_frame fs input_path output_path sq p :
  p <> output_path ->
  snd (normalize_docx fs input_path output_path sq) !! p = fs !! p.
Proof.
  intros Hp. unfold normalize_docx.
  destruct (fs !! input_path) as [[zin|raw]|]; cbn [snd]; try reflexivity.
  cbv zeta.
  destruct (rewrite_items _ sq _ [] 0) as [zout res]. cbn [snd].
  now rewrite lookup_insert_ne.
Qed.

Lemma normalize_docx_returned fs input_path output_path sq n :
  fst (normalize_docx fs input_path output_path sq) = Returned n ->
  exists zout,
    snd (normalize_docx fs input_path output_path sq)
    = <[output_path := ZipFile zout]> fs.
Proof.
  unfold normalize_docx.
  destruct (fs !! input_path) as [[zin|raw]|]; cbn [fst]; try discriminate.
  cbv zeta.
  destruct (rewrite_items _ sq _ [] 0) as [zout res]. cbn [fst snd]. eauto.
Qed.

Lemma detect_tags_lookup (fs1 fs2 : gmap string file) path :
  fs1 !! path = fs2 !! path -> _detect_tags fs1 path = _detect_tags fs2 path.
Proof. intros E. unfold _detect_tags, detect_body. now rewrite E. Qed.

(** Leaving the temporary directory restores a file system in which
    nothing lay below it and nothing changed outside of it. *)
Lemma cleanup_restores td (fs fs1 : gmap string file) :
  (forall p, under td p = true -> fs !! p = None) ->
  (forall p, under td p = false -> fs1 !! p = fs !! p) ->
  cleanup td fs1 = fs.
Proof.
  intros Hfresh Hsame. apply map_eq. intros p. apply option_eq. intros f.
  unfold cleanup. rewrite map_lookup_filter_Some. cbn [fst].
  destruct (under td p) eqn:E.
  - rewrite (Hfresh p E). split; [intros [_ H]; discriminate | discriminate].
  - rewrite (Hsame p E). split; [now intros [H _] | now split].
Qed.

(** ** Further properties of the code *)

(** X1.  For either family, a text that does not hold the opening
    character of the family comes back as it is, with a count of 0. *)
Theorem text_without_opener_untouched (f : family) (t : text) :
  Forall (fun ch => ch <> chr (open_char f)) t -> normalizer f t = (t, 0).
Proof.
  intros H. rewrite normalizer_of. unfold normalize_of, subn.
  rewrite <- (app_nil_r t) at 1. rewrite subn_go_run.
  - change (subn_go (pattern_of f) (repl_of f) 0 []) with (normalize_of f []).
    rewrite normalize_nil. cbn [fst snd]. now rewrite app_nil_r.
  - intros w1 c w2 ->. apply match_family_miss.
    apply Forall_app in H. destruct H as [_ H]. now inversion H.
Qed.

Lemma text_without_opener_untouched_witness :
  normalizer Curly (str "<w:t>a [<b>[x]] c }}</w:t>")
  = (str "<w:t>a [<b>[x]] c }}</w:t>", 0).
Proof.
  apply (text_without_opener_untouched Curly).
  repeat (constructor; [discriminate|]). constructor.
Defined.

(** X2.  For either family, the count returned is the number of matches
    of the family pattern found by the scan, from left to right and
    without overlap; each of them is a stretch of the text made of the
    opening character, a run of tags and white space, the opening
    character, an interior, the closing character, a run of tags and
    white space and the closing character, and its group is the
    interior. *)
Theorem count_is_number_of_candidates (f : family) (t : text) :
  snd (normalizer f t) = length (finditer (pattern_of f) t) /\
  forall m, m ∈ finditer (pattern_of f) t ->
    exists pre n1 inner n4 post,
      t = pre ++ fragment f n1 inner n4 ++ post /\
      noise_seq n1 /\ noise_seq n4 /\
      group0 m = fragment f n1 inner n4 /\ group1 m = Some inner.
Proof.
  split.
  - rewrite normalizer_of. unfold normalize_of, subn, finditer.
    apply subn_go_count.
  - intros m Hm. unfold finditer in Hm. apply finditer_go_at in Hm.
    destruct Hm as (pre & suf & -> & Hm).
    destruct (match_at_cases f suf)
      as [(n1 & inner & n4 & post & -> & H1 & H4 & _ & E) | [E _]];
      rewrite E in Hm; [|discriminate].
    injection Hm as <-. exists pre, n1, inner, n4, post. auto.
Qed.

(** X3.  For either family, the returned text is never longer than the
    text given. *)
Theorem result_never_longer (f : family) (t : text) :
  length (fst (normalizer f t)) <= length t.
Proof. rewrite normalizer_of. apply normalize_shrinks. Qed.

(** X4.  For either family, every character of the returned text is a
    character of the text given: the reconstruction brings in no
    character of its own (the entities decoded while an interior is
    cleaned never reach the result, since a name holds none of the
    characters they stand for). *)
Theorem result_characters_from_input (f : family) (t : text) (ch : N) :
  ch ∈ fst (normalizer f t) -> ch ∈ t.
Proof.
  rewrite normalizer_of. intros H.
  assert (Hall : Forall (fun c => c ∈ t) (fst (normalize_of f t))).
  { apply normalize_members. apply Forall_forall. auto. }
  rewrite Forall_forall in Hall. now apply Hall.
Qed.

Lemma result_characters_from_input_witness :
  chr "9" ∈ fst (normalizer Curly (str "{<b>{a}} 9")) /\
  chr "9" ∈ str "{<b>{a}} 9".
Proof.
  assert (H : chr "9" ∈ fst (normalizer Curly (str "{<b>{a}} 9"))).
  { vm_compute. apply list_elem_of_In. simpl. tauto. }
  split; [exact H|].
  exact (result_characters_from_input Curly _ _ H).
Defined.

(** X5.  The reconstructor and the census fit together: when a text
    starts with a fragmented curly placeholder (the two pairs of braces
    torn apart by runs of tags and white space, an interior without
    closing brace whose cleaned form is an identifier), the census of
    the reconstructed text reports that identifier first, followed by
    what it reports for the reconstruction of the rest. *)
Theorem repaired_placeholder_is_detected (n1 inner n4 name post : text) :
  noise_seq n1 -> noise_seq n4 ->
  Forall (fun ch => ch <> chr "}") inner ->
  clean inner = name -> is_identifier name = true ->
  names_in (fst (_normalize_jinja_curly (fragment Curly n1 inner n4 ++ post)))
  = name :: names_in (fst (_normalize_jinja_curly post)).
Proof. apply names_after_repair. Qed.

Lemma repaired_placeholder_is_detected_witness :
  names_in (fst (_normalize_jinja_curly
                   (fragment Curly (str "<b>") (str "<i>a</i>") (str " ")
                      ++ str " and {{c}}")))
  = str "a" :: names_in (fst (_normalize_jinja_curly (str " and {{c}}"))).
Proof.
  apply (repaired_placeholder_is_detected (str "<b>") (str "<i>a</i>")
           (str " ") (str "a") (str " and {{c}}")).
  - apply (noise_markup (str "b")). reflexivity.
  - apply noise_space; [reflexivity | constructor].
  - repeat (constructor; [discriminate|]). constructor.
  - vm_compute. reflexivity.
  - reflexivity.
Defined.

(** X6.  What the pass writes for a textual part is valid UTF-8, and it
    decodes to the reconstruction of the leniently decoded part:
    encoding loses nothing of the reconstructed text. *)
Theorem written_part_is_utf8 (sq : bool) (data : bytes) (total : nat) :
  valid_utf8 (fst (rewrite_part sq data total)) = true /\
  decode_ignore (fst (rewrite_part sq data total))
  = fst (reconstruct sq (decode_ignore data)).
Proof. rewrite rewrite_part_total. cbn [fst]. apply rewrite_part_decodes. Qed.

(** X7.  A textual part that is valid UTF-8 and in which the
    reconstruction counts no candidate is written back byte for byte,
    and the running total is unchanged. *)
Theorem clean_part_is_copied (sq : bool) (data : bytes) (total : nat) :
  valid_utf8 data = true -> snd (reconstruct sq (decode_ignore data)) = 0 ->
  rewrite_part sq data total = (data, total).
Proof. apply rewrite_part_clean. Qed.

Lemma clean_part_is_copied_witness :
  rewrite_part true sample_plain_part 7 = (sample_plain_part, 7).
Proof.
  apply (clean_part_is_copied true sample_plain_part 7);
    vm_compute; reflexivity.
Defined.

(** X8.  A container whose entries have pairwise distinct names and
    whose textual parts are valid UTF-8 without any candidate is copied
    to a destination path other than the source path: the call returns
    0, and the destination holds the same entries in the same order,
    with the same bytes and with their metadata, an [external_attr] of 0
    apart, which [writestr] replaces by [0o600 << 16].  When no entry
    has an [external_attr] of 0, the destination is the source
    container as it is. *)
Theorem container_without_candidates_is_copied (fs : gmap string file)
  (input_path output_path : string) (sq : bool) (zin : archive) :
  input_path <> output_path ->
  fs !! input_path = Some (ZipFile zin) ->
  NoDup (map (fun e => filename (fst e)) zin) ->
  (forall item data, (item, data) ∈ zin -> qualifying (filename item) = true ->
     valid_utf8 data = true /\ snd (reconstruct sq (decode_ignore data)) = 0) ->
  normalize_docx fs input_path output_path sq
  = (Returned 0,
     <[output_path :=
         ZipFile (map (fun e => (stored_info (fst e), snd e)) zin)]> fs) /\
  (Forall (fun e => external_attr (fst e) <> 0%N) zin ->
   map (fun e => (stored_info (fst e), snd e)) zin = zin).
Proof.
  intros Hne Hin Hnd Hclean. split.
  - rewrite (normalize_docx_zip _ _ _ _ zin Hne Hin). f_equal.
    + f_equal. apply sum_list_zero. intros item Hitem.
      unfold infolist in Hitem. apply list_elem_of_fmap in Hitem.
      destruct Hitem as ([item' data] & -> & He). cbn [fst].
      unfold entry_count.
      destruct (qualifying (filename item')) eqn:Hq; [|reflexivity].
      rewrite (entries_own zin item' data Hnd He).
      now apply (Hclean item' data He Hq).
    + do 2 f_equal. unfold infolist. rewrite map_map. apply map_ext_in.
      intros [item data] He. apply list_elem_of_In in He. cbn [fst snd].
      f_equal. unfold entry_step. rewrite (entries_own zin item data Hnd He).
      destruct (qualifying (filename item)) eqn:Hq; [|reflexivity].
      destruct (Hclean item data He Hq) as [Hv H0].
      now rewrite (rewrite_part_clean sq data 0 Hv H0).
  - intros Hall. rewrite <- (map_id zin) at 2. apply map_ext_in.
    intros [item data] He. cbn [fst snd].
    rewrite Forall_forall in Hall. apply list_elem_of_In in He.
    now rewrite (stored_info_kept item (Hall _ He)).
Qed.

Lemma container_without_candidates_is_copied_witness :
  let fs : gmap string file := {[ "in.docx"%string := ZipFile sample_plain_docx ]} in
  normalize_docx fs "in.docx" "out.docx" true
  = (Returned 0,
     <["out.docx"%string :=
         ZipFile (map (fun e => (stored_info (fst e), snd e))
                    sample_plain_docx)]> fs) /\
  (Forall (fun e => external_attr (fst e) <> 0%N) sample_plain_docx ->
   map (fun e => (stored_info (fst e), snd e)) sample_plain_docx
   = sample_plain_docx).
Proof.
  cbv zeta.
  apply (container_without_candidates_is_copied _ "in.docx" "out.docx" true).
  - discriminate.
  - vm_compute. reflexivity.
  - apply (bool_decide_unpack _). vm_compute. exact I.
  - intros item data Hin Hq. unfold sample_plain_docx in Hin.
    apply elem_of_cons in Hin. destruct Hin as [[= -> ->] | Hin];
      [vm_compute; split; reflexivity|].
    apply elem_of_cons in Hin. destruct Hin as [[= -> ->] | Hin];
      [vm_compute in Hq; discriminate | inversion Hin].
Defined.

(** X9.  When the entries of the source have pairwise distinct names,
    the destination (at a path other than the source path) lists the
    entries of the source in the same order, with their names and their
    metadata (an [external_attr] of 0 apart, which becomes
    [0o600 << 16]), and every entry that is not a textual part keeps its
    bytes. *)
Theorem other_entries_are_copied (fs : gmap string file)
  (input_path output_path : string) (sq : bool) (zin : archive) :
  input_path <> output_path ->
  fs !! input_path = Some (ZipFile zin) ->
  NoDup (map (fun e => filename (fst e)) zin) ->
  exists zout n,
    normalize_docx fs input_path output_path sq
    = (Returned n, <[output_path := ZipFile zout]> fs) /\
    infolist zout = map stored_info (infolist zin) /\
    forall i item data,
      zin !! i = Some (item, data) -> qualifying (filename item) = false ->
      zout !! i = Some (stored_info item, data).
Proof.
  intros Hne Hin Hnd. rewrite (normalize_docx_zip _ _ _ _ zin Hne Hin).
  eexists _, _. split; [reflexivity|].
  destruct (frame_distinct_names zin sq _ _ (rewrite_items_all zin sq)) as [H1 H2].
  split; [exact H1 | exact (H2 Hnd)].
Qed.

Lemma other_entries_are_copied_witness :
  let fs : gmap string file := {[ "in.docx"%string := ZipFile sample_fragmented_docx ]} in
  exists zout n,
    normalize_docx fs "in.docx" "out.docx" false
    = (Returned n, <["out.docx"%string := ZipFile zout]> fs) /\
    infolist zout = map stored_info (infolist sample_fragmented_docx) /\
    forall i item data,
      sample_fragmented_docx !! i = Some (item, data) ->
      qualifying (filename item) = false ->
      zout !! i = Some (stored_info item, data).
Proof.
  cbv zeta.
  apply (other_entries_are_copied _ "in.docx" "out.docx" false).
  - discriminate.
  - vm_compute. reflexivity.
  - apply (bool_decide_unpack _). vm_compute. exact I.
Defined.



(** X11.  In the destination (at a path other than the source path),
    entries of the same name hold the same bytes: what is written for an
    entry is determined by its name alone. *)
Theorem same_name_same_content (fs : gmap string file)
  (input_path output_path : string) (sq : bool) (zin zout : archive)
  (i j : nat) (item1 item2 : ZipInfo) (data1 data2 : bytes) :
  input_path <> output_path ->
  fs !! input_path = Some (ZipFile zin) ->
  snd (normalize_docx fs input_path output_path sq) !! output_path
  = Some (ZipFile zout) ->
  zout !! i = Some (item1, data1) -> zout !! j = Some (item2, data2) ->
  filename item1 = filename item2 -> data1 = data2.
Proof.
  intros Hne Hin Hout H1 H2 E.
  rewrite (normalize_docx_zip _ _ _ _ zin Hne Hin) in Hout. cbn [snd] in Hout.
  rewrite lookup_insert_eq in Hout. unfold ZipFile in Hout.
  injection Hout as Hout. apply intact_inj in Hout. subst zout.
  apply written_by_name in H1, H2. subst data1 data2.
  now apply entry_step_same_name.
Qed.

Lemma same_name_same_content_witness :
  let zin := [(entry_info "word/a.xml", utf8 "{<b>{a}}");
              (entry_info "word/a.xml", utf8 "{<b>{b}}")] in
  let fs : gmap string file := {[ "in.docx"%string := ZipFile zin ]} in
  snd (normalize_docx fs "in.docx" "out.docx" false) !! "out.docx"%string
  = Some (ZipFile [(stored_info (entry_info "word/a.xml"), utf8 "{{b}}");
                   (stored_info (entry_info "word/a.xml"), utf8 "{{b}}")]) /\
  utf8 "{{b}}" = utf8 "{{b}}".
Proof.
  cbv zeta. split; [vm_compute; reflexivity|].
  apply (same_name_same_content
           {[ "in.docx"%string :=
                ZipFile [(entry_info "word/a.xml", utf8 "{<b>{a}}");
                         (entry_info "word/a.xml", utf8 "{<b>{b}}")] ]}
           "in.docx" "out.docx" false
           [(entry_info "word/a.xml", utf8 "{<b>{a}}");
            (entry_info "word/a.xml", utf8 "{<b>{b}}")]
           [(stored_info (entry_info "word/a.xml"), utf8 "{{b}}");
            (stored_info (entry_info "word/a.xml"), utf8 "{{b}}")]
           0 1 (stored_info (entry_info "word/a.xml"))
           (stored_info (entry_info "word/a.xml")));
    [discriminate | vm_compute; reflexivity ..].
Defined.

(** X12.  The normalisation step of [process_document], for an upload
    path other than the path of the normalised copy.  When the upload is
    a zip container whose entries can all be read, the effective
    template is the normalised copy, and the names detected are those of
    the curly reconstruction of its textual parts, in first-seen order;
    the copy lists the entries of the upload (an [external_attr] of 0
    apart, which becomes [0o600 << 16]).  When the pass raises (no
    file, not a container, an entry that cannot be read), the effective
    template is the upload itself and what is detected is what the
    census finds in the upload as it was; the file system is changed at
    the path of the normalised copy at most, where the pass may have
    left a partial copy, and not at all when the upload could not be
    opened, in which case nothing is detected. *)
Theorem upload_is_normalized_then_scanned (fs : gmap string file)
  (file_path normalized_path : string) :
  file_path <> normalized_path ->
  (forall zin : archive,
     fs !! file_path = Some (ZipFile zin) ->
     exists zout,
       infolist zout = map stored_info (infolist zin) /\
       detect_upload fs file_path normalized_path
       = (normalized_path,
          Returned (first_seen
            (flat_map (fun item =>
               if qualifying (filename item)
               then names_in (fst (_normalize_jinja_curly
                                     (decode_ignore (entry_data zin item))))
               else []) (infolist zin))),
          <[normalized_path := ZipFile zout]> fs)) /\
  (forall e,
     fst (normalize_docx fs file_path normalized_path false) = Raised e ->
     exists fs',
       detect_upload fs file_path normalized_path
       = (file_path, fst (_detect_tags fs file_path), fs') /\
       (forall p, p <> normalized_path -> fs' !! p = fs !! p) /\
       ((forall zin, fs !! file_path <> Some (Zip zin)) ->
        fs' = fs /\ fst (_detect_tags fs file_path) = Returned [])).
Proof.
  intros Hne. split.
  - intros zin Hin. rewrite (detect_upload_zip _ _ _ zin Hne Hin).
    eexists. split; [|reflexivity].
    unfold infolist. rewrite !map_map. now apply map_ext.
  - intros e He. unfold detect_upload, normalize_upload.
    pose proof (normalize_docx_frame fs file_path normalized_path false) as Hfr.
    destruct (normalize_docx fs file_path normalized_path false)
      as [res fs'] eqn:En.
    cbn [fst snd] in He, Hfr. subst res.
    exists fs'. split; [|split].
    + now rewrite (detect_tags_lookup fs' fs file_path (Hfr _ Hne)).
    + exact Hfr.
    + intros Hno. unfold normalize_docx in En.
      unfold _detect_tags, detect_body.
      destruct (fs !! file_path) as [[zin|raw]|].
      * now contradiction (Hno zin).
      * injection En as _ <-. now split.
      * injection En as _ <-. now split.
Qed.

Lemma upload_is_normalized_then_scanned_witness :
  let zin : container :=
    [(entry_info "word/document.xml", Data (utf8 "{<b>{a}}"));
     (entry_info "word/media/image1.png", Damaged Corrupt)] in
  let fs : gmap string file := {[ "s/upload.docx"%string := Zip zin ]} in
  detect_upload fs "s/upload.docx" "s/normalized.docx"
  = ("s/upload.docx"%string, Returned [],
     <["s/normalized.docx"%string :=
         ZipFile [(stored_info (entry_info "word/document.xml"),
                   utf8 "{{a}}")]]> fs) /\
  exists fs',
    detect_upload fs "s/upload.docx" "s/normalized.docx"
    = ("s/upload.docx"%string, fst (_detect_tags fs "s/upload.docx"), fs') /\
    (forall p, p <> "s/normalized.docx"%string -> fs' !! p = fs !! p) /\
    ((forall zin, fs !! "s/upload.docx"%string <> Some (Zip zin)) ->
     fs' = fs /\ fst (_detect_tags fs "s/upload.docx") = Returned []).
Proof.
  cbv zeta. split; [vm_compute; reflexivity|].
  apply (proj2 (upload_is_normalized_then_scanned
                  {[ "s/upload.docx"%string :=
                       Zip [(entry_info "word/document.xml",
                             Data (utf8 "{<b>{a}}"));
                            (entry_info "word/media/image1.png",
                             Damaged Corrupt)] ]}
                  "s/upload.docx" "s/normalized.docx" ltac:(discriminate))
           BadZipFile).
  vm_compute. reflexivity.
Defined.

(** X13.  End to end, for an upload path other than the path of the
    normalised copy: when the only entry of an uploaded container is a
    textual part whose text is one fragmented curly placeholder (the two
    pairs of braces torn apart by runs of tags and white space, an
    interior without closing brace whose cleaned form is an
    identifier), the normalisation step of [process_document] detects
    exactly the name of that placeholder, on the normalised copy. *)
Theorem fragmented_upload_is_detected (fs : gmap string file)
  (file_path normalized_path : string) (item : ZipInfo) (data : bytes)
  (n1 inner n4 name : text) :
  file_path <> normalized_path ->
  fs !! file_path = Some (ZipFile [(item, data)]) ->
  qualifying (filename item) = true ->
  decode_ignore data = fragment Curly n1 inner n4 ->
  noise_seq n1 -> noise_seq n4 ->
  Forall (fun ch => ch <> chr "}") inner ->
  clean inner = name -> is_identifier name = true ->
  exists fs',
    detect_upload fs file_path normalized_path
    = (normalized_path, Returned [name], fs').
Proof.
  intros Hne Hin Hq Hd H1 H4 Hi Hc Hn.
  rewrite (detect_upload_zip _ _ _ _ Hne Hin). eexists. do 2 f_equal.
  cbn [infolist map fst flat_map]. rewrite Hq, entry_data_single, Hd.
  rewrite <- (app_nil_r (fragment Curly n1 inner n4)).
  rewrite (names_after_repair n1 inner n4 name []) by assumption.
  reflexivity.
Qed.

Lemma fragmented_upload_is_detected_witness :
  let fs : gmap string file :=
    {[ "s/upload.docx"%string :=
         ZipFile [(entry_info "word/document.xml", utf8 "{<b>{a}}")] ]} in
  fst (_detect_tags fs "s/upload.docx") = Returned [] /\
  exists fs',
    detect_upload fs "s/upload.docx" "s/normalized.docx"
    = ("s/normalized.docx"%string, Returned [str "a"], fs').
Proof.
  cbv zeta. split; [vm_compute; reflexivity|].
  apply (fragmented_upload_is_detected _ "s/upload.docx" "s/normalized.docx"
           (entry_info "word/document.xml") (utf8 "{<b>{a}}")
           (str "<b>") (str "a") [] (str "a")).
  - discriminate.
  - vm_compute. reflexivity.
  - reflexivity.
  - vm_compute. reflexivity.
  - apply (noise_markup (str "b")). reflexivity.
  - constructor.
  - repeat (constructor; [discriminate|]). constructor.
  - vm_compute. reflexivity.
  - reflexivity.
Defined.

(** X14.  The command line, in place.  With [--inplace], for a source
    that is a zip container and a temporary directory that is fresh
    (nothing of the file system lies below it, nor does the source),
    [main] completes, reports the count of the pass, and leaves a file
    system that differs from the initial one at the source path alone,
    which now holds the container written by the pass: nothing of the
    temporary directory is left, and [--output] is not looked at. *)
Theorem main_in_place (td : string) (args : Namespace)
  (fs : gmap string file) (zin : archive) :
  arg_inplace args = true ->
  fs !! arg_input args = Some (ZipFile zin) ->
  under td (arg_input args) = false ->
  (forall p, under td p = true -> fs !! p = None) ->
  exists zout n,
    rewrite_items (intact zin) (arg_enable_square args) (infolist zin) [] 0
    = (zout, Returned n) /\
    main td args fs
    = (Completed, [done_inplace n (arg_input args)],
       <[arg_input args := ZipFile zout]> fs).
Proof.
  intros Hip Hin Hu Hfresh. eexists _, _. split.
  - apply rewrite_items_all.
  - now apply main_in_place_run.
Qed.

Lemma main_in_place_witness :
  let args := {| arg_input := "t.docx"; arg_output := Some "ignored.docx"%string;
                 arg_inplace := true; arg_enable_square := false |} in
  let fs : gmap string file :=
    {[ "t.docx"%string := ZipFile sample_fragmented_docx ]} in
  exists zout n,
    rewrite_items (intact sample_fragmented_docx) false
      (infolist sample_fragmented_docx) [] 0 = (zout, Returned n) /\
    main "/tmp/tmp8k2" args fs
    = (Completed, [done_inplace n "t.docx"],
       <["t.docx"%string := ZipFile zout]> fs).
Proof.
  cbv zeta.
  apply (main_in_place "/tmp/tmp8k2"
           {| arg_input := "t.docx"; arg_output := Some "ignored.docx"%string;
              arg_inplace := true; arg_enable_square := false |}).
  - reflexivity.
  - vm_compute. reflexivity.
  - vm_compute. reflexivity.
  - intros p Hp. apply lookup_singleton_None. intros <-.
    vm_compute in Hp. discriminate.
Defined.

(** X15.  The command line does not harm the source when it fails in
    place.  With [--inplace], or with neither [--inplace] nor a
    non-empty [--output], and for a fresh temporary directory: whenever
    [main] ends otherwise than by returning, the file system is as it
    was.  Either neither option was given (exit status 2, after the
    usage error), or the pass to the temporary file has raised (the
    source does not exist, is not a zip container, or has an entry that
    cannot be read): its exception leaves [main], the source has not
    been touched and nothing of the temporary directory is left, not
    even the partial copy.  When the pass returns, the move finds the
    file it moves. *)
Theorem main_failure_changes_nothing (td : string) (args : Namespace)
  (fs : gmap string file) :
  (forall p, under td p = true -> fs !! p = None) ->
  arg_inplace args = true \/ given (arg_output args) = false ->
  fst (fst (main td args fs)) <> Completed ->
  snd (main td args fs) = fs /\
  ((arg_inplace args = false /\
    main td args fs = (SystemExit 2, [usage_error], fs)) \/
   (arg_inplace args = true /\
    exists e,
      fst (normalize_docx fs (arg_input args)
             (path_join td "normalized.docx") (arg_enable_square args))
      = Raised e /\
      main td args fs = (Uncaught e, [], fs))).
Proof.
  intros Hfresh Hmode. unfold main.
  destruct (arg_inplace args) eqn:Hip.
  - rewrite andb_false_r.
    pose proof (normalize_docx_frame fs (arg_input args)
                  (path_join td "normalized.docx") (arg_enable_square args))
      as Hfr.
    pose proof (normalize_docx_returned fs (arg_input args)
                  (path_join td "normalized.docx") (arg_enable_square args))
      as Hret.
    destruct (normalize_docx fs (arg_input args)
                (path_join td "normalized.docx") (arg_enable_square args))
      as [[count|e] fs1]; cbn [fst snd] in *.
    + destruct (Hret count eq_refl) as [zout ->].
      unfold move. rewrite lookup_insert_eq. cbn [fst].
      intros H. now contradiction H.
    + intros _.
      assert (Hc : cleanup td fs1 = fs).
      { apply cleanup_restores; [assumption|]. intros p Hp. apply Hfr.
        intros ->. rewrite under_join in Hp. discriminate. }
      rewrite Hc. split; [reflexivity|]. right. split; [reflexivity|].
      exists e. now split.
  - destruct Hmode as [Hm|Hg]; [discriminate|]. rewrite Hg. cbn [negb andb].
    intros _. split; [reflexivity|]. now left.
Qed.

Lemma main_failure_changes_nothing_witness :
  let args := {| arg_input := "t.docx"; arg_output := None;
                 arg_inplace := true; arg_enable_square := false |} in
  let fs : gmap string file :=
    {[ "t.docx"%string :=
         Zip [(entry_info "word/document.xml", Data (utf8 "{<b>{a}}"));
              (entry_info "word/media/image1.png", Damaged Encrypted)] ]} in
  main "/tmp/tmp8k2" args fs = (Uncaught RuntimeError, [], fs) /\
  snd (main "/tmp/tmp8k2" args fs) = fs /\
  ((arg_inplace args = false /\
    main "/tmp/tmp8k2" args fs = (SystemExit 2, [usage_error], fs)) \/
   (arg_inplace args = true /\
    exists e,
      fst (normalize_docx fs (arg_input args)
             (path_join "/tmp/tmp8k2" "normalized.docx")
             (arg_enable_square args))
      = Raised e /\
      main "/tmp/tmp8k2" args fs = (Uncaught e, [], fs))).
Proof.
  cbv zeta.
  assert (Hfresh : forall p, under "/tmp/tmp8k2" p = true ->
            ({[ "t.docx"%string :=
                  Zip [(entry_info "word/document.xml", Data (utf8 "{<b>{a}}"));
                       (entry_info "word/media/image1.png", Damaged Encrypted)] ]}
             : gmap string file) !! p = None).
  { intros p Hp. apply lookup_singleton_None. intros <-.
    vm_compute in Hp. discriminate. }
  pose proof (main_failure_changes_nothing "/tmp/tmp8k2"
           {| arg_input := "t.docx"; arg_output := None;
              arg_inplace := true; arg_enable_square := false |}
           _ Hfresh (or_introl eq_refl)) as H.
  assert (Hmain : main "/tmp/tmp8k2"
           {| arg_input := "t.docx"; arg_output := None;
              arg_inplace := true; arg_enable_square := false |}
           {[ "t.docx"%string :=
                Zip [(entry_info "word/document.xml", Data (utf8 "{<b>{a}}"));
                     (entry_info "word/media/image1.png", Damaged Encrypted)] ]}
         = (Uncaught RuntimeError, [],
            {[ "t.docx"%string :=
                Zip [(entry_info "word/document.xml", Data (utf8 "{<b>{a}}"));
                     (entry_info "word/media/image1.png", Damaged Encrypted)] ]})).
  { vm_compute. reflexivity. }
  split; [exact Hmain|].
  apply H. rewrite Hmain. discriminate.
Defined.

(** X16.  The two modes of the command line write the same container
    and report the same count: what [--inplace] leaves at the source
    path is what [--output] writes at the output path, for an output
    path that is given, not empty and not the source path, and a fresh
    temporary directory. *)
Theorem main_modes_agree (td input out : string) (o : option string)
  (sq : bool) (fs : gmap string file) (zin : archive) :
  fs !! input = Some (ZipFile zin) ->
  given (Some out) = true -> out <> input ->
  under td input = false ->
  (forall p, under td p = true -> fs !! p = None) ->
  exists zout n,
    main td {| arg_input := input; arg_output := o;
               arg_inplace := true; arg_enable_square := sq |} fs
    = (Completed, [done_inplace n input], <[input := ZipFile zout]> fs) /\
    main td {| arg_input := input; arg_output := Some out;
               arg_inplace := false; arg_enable_square := sq |} fs
    = (Completed, [done_output n out], <[out := ZipFile zout]> fs).
Proof.
  intros Hin Hg Hne Hu Hfresh.
  exists (map (fun item => (stored_info item, fst (entry_step zin sq item)))
            (infolist zin)),
    (sum_list (map (entry_count zin sq) (infolist zin))).
  split.
  - exact (main_in_place_run td
             {| arg_input := input; arg_output := o;
                arg_inplace := true; arg_enable_square := sq |}
             fs zin eq_refl Hin Hu Hfresh).
  - exact (main_output_run td
             {| arg_input := input; arg_output := Some out;
                arg_inplace := false; arg_enable_square := sq |}
             fs zin out eq_refl eq_refl Hg Hne Hin).
Qed.

Lemma main_modes_agree_witness :
  let fs : gmap string file :=
    {[ "t.docx"%string := ZipFile sample_fragmented_docx ]} in
  exists zout n,
    main "/tmp/tmp8k2"
      {| arg_input := "t.docx"; arg_output := None;
         arg_inplace := true; arg_enable_square := true |} fs
    = (Completed, [done_inplace n "t.docx"], <["t.docx"%string := ZipFile zout]> fs) /\
    main "/tmp/tmp8k2"
      {| arg_input := "t.docx"; arg_output := Some "o.docx"%string;
         arg_inplace := false; arg_enable_square := true |} fs
    = (Completed, [done_output n "o.docx"], <["o.docx"%string := ZipFile zout]> fs).
Proof.
  cbv zeta.
  apply (main_modes_agree "/tmp/tmp8k2" "t.docx" "o.docx" None true _
           sample_fragmented_docx).
  - vm_compute. reflexivity.
  - reflexivity.
  - discriminate.
  - vm_compute. reflexivity.
  - intros p Hp. apply lookup_singleton_None. intros <-.
    vm_compute in Hp. discriminate.
Defined.

(** X17.  Whatever name the client asks for, and whatever the case
    mapping of [str.lower] is, the download name built by
    [process_document] (for a PDF and for a DOCX) and by [merge_pdf] is
    not empty, is neither [.] nor [..], and consists of letters, digits,
    dots, underscores and hyphens only; in particular it holds no path
    separator. *)
Theorem download_names_are_safe (lower : text -> text)
  (requested : option text) :
  safe_name (_build_filename lower requested (str ".pdf") (str "result.pdf")) /\
  safe_name (_build_filename lower requested (str ".docx") (str "result.docx")) /\
  safe_name (_sanitize_filename lower requested).
Proof.
  assert (Hsafe : forall d, d = str "result.pdf" \/ d = str "result.docx"
                            \/ d = str "merged.pdf" -> safe_name d).
  { intros d [-> | [-> | ->]]; repeat split; try discriminate;
      repeat constructor. }
  split; [|split].
  - apply build_filename_safe, Hsafe. auto.
  - apply build_filename_safe, Hsafe. auto.
  - change (_sanitize_filename lower requested)
      with (_build_filename lower requested (str ".pdf") (str "merged.pdf")).
    apply build_filename_safe, Hsafe. auto.
Qed.

(** X18.  The id that the listings show for a stored template is the id
    under which it was stored, for every id without a slash (as the ids
    drawn by [uuid4] are) and every API key. *)
Theorem listed_id_is_stored_id (api_key template_id : text) :
  Forall (fun ch => ch <> chr "/") template_id ->
  listed_id (blob_name api_key template_id) = template_id.
Proof. apply listed_id_blob_name. Qed.

Lemma listed_id_is_stored_id_witness :
  listed_id (blob_name (str "sk_a/b") (str "7f3c-01")) = str "7f3c-01".
Proof.
  apply (listed_id_is_stored_id (str "sk_a/b") (str "7f3c-01")).
  repeat (constructor; [discriminate|]). constructor.
Defined.

(** X19.  Two templates are stored under the same name only when they
    have the same API key and the same id, for ids without a slash. *)
Theorem blob_names_do_not_collide (k1 t1 k2 t2 : text) :
  Forall (fun ch => ch <> chr "/") t1 ->
  Forall (fun ch => ch <> chr "/") t2 ->
  blob_name k1 t1 = blob_name k2 t2 -> k1 = k2 /\ t1 = t2.
Proof.
  intros H1 H2 E.
  assert (Et : t1 = t2).
  { rewrite <- (listed_id_blob_name k1 t1 H1), <- (listed_id_blob_name k2 t2 H2).
    now rewrite E. }
  subst t2. split; [|reflexivity].
  unfold blob_name in E. now apply app_inv_tail in E.
Qed.

Lemma blob_names_do_not_collide_witness :
  str "sk_1" = str "sk_1" /\ str "t1" = str "t1".
Proof.
  apply (blob_names_do_not_collide (str "sk_1") (str "t1") (str "sk_1") (str "t1")).
  - repeat (constructor; [discriminate|]). constructor.
  - repeat (constructor; [discriminate|]). constructor.
  - reflexivity.
Defined.

(** X20.  A key whose plan is a string other than the three plans with a
    quota is never refused for quota, whatever its usage: the check
    passes when the key is active and gives status 403 when it is not. *)
Theorem unknown_plan_has_no_quota (keys : collection) (api_key : string)
  (data : document) (p : string) :
  keys !! api_key = Some data ->
  data !! "plan"%string = Some (VStr p) ->
  p <> "gratuit"%string -> p <> "starter"%string -> p <> "pro"%string ->
  check_quota_or_raise false (Some keys) api_key
  = if truthy (default (VBool true) (data !! "is_active"%string))
    then None else Some (HTTPException 403).
Proof.
  intros Hk Hp H1 H2 H3. unfold check_quota_or_raise.
  rewrite Hk, Hp. cbn [default from_option id].
  rewrite (PLANS_get_other p H1 H2 H3).
  now destruct (truthy _).
Qed.

Lemma unknown_plan_has_no_quota_witness :
  let data : document :=
    {[ "plan"%string := VStr "Pro"; "quota_used"%string := VInt 1000000 ]} in
  let keys : collection := {[ "sk_1"%string := data ]} in
  check_quota_or_raise false (Some keys) "sk_1" = None.
Proof.
  cbv zeta.
  exact (unknown_plan_has_no_quota
           {[ "sk_1"%string :=
                {[ "plan"%string := VStr "Pro";
                   "quota_used"%string := VInt 1000000 ]} ]}
           "sk_1"
           {[ "plan"%string := VStr "Pro"; "quota_used"%string := VInt 1000000 ]}
           "Pro" eq_refl eq_refl
           ltac:(discriminate) ltac:(discriminate) ltac:(discriminate)).
Defined.

(** X21.  A key created through [clients_manager] on a plan with quota
    [q] serves exactly [q] uses: [m] uses in a row (each one the check,
    then the consumption) all succeed and leave the usage at [m] when
    [m] is at most [q]; otherwise the run ends with status 429. *)
Theorem created_key_serves_its_quota (ADMIN_TOKEN token : option string)
  (keys : collection) (uuid_hex : string) (now q : Z)
  (client_api_key plan : option string) (is_active : option bool)
  (name : option string) (m : nat) :
  admin_required ADMIN_TOKEN token = None -> given name = true ->
  PLANS_get (VStr (or_gratuit plan)) = Some q ->
  exists k details keys',
    clients_manager ADMIN_TOKEN token (Some keys) uuid_hex now "create_key"
      client_api_key plan is_active name
    = (inl (created_key k details), Some keys') /\
    if (Z.of_nat m <=? q)%Z
    then exists keys'',
           use_times m keys' k = inl keys'' /\
           key_state keys'' k (or_gratuit plan) (Z.of_nat m)
    else use_times m keys' k = inr (HTTPException 429).
Proof.
  intros HA Hn Hq. eexists _, _, _. split.
  - now apply clients_manager_create.
  - assert (Hk : key_state
                   (<[("sk_" +:+ uuid_hex)%string :=
                        create_key_data (default ""%string name) plan now]> keys)
                   ("sk_" +:+ uuid_hex) (or_gratuit plan) 0).
    { apply (created_key_state _ _ (default ""%string name) plan now).
      apply lookup_insert_eq. }
    pose proof (PLANS_quota_positive _ _ Hq) as Hpos.
    destruct (Z.leb_spec (Z.of_nat m) q) as [Hle|Hgt].
    + destruct (use_times_within q _ _ m _ 0%Z Hk Hq) as (keys'' & E & Hs);
        [lia|]. exists keys''. now split.
    + apply (use_times_beyond q (or_gratuit plan) _ m _ 0%Z); auto; lia.
Qed.

Lemma created_key_serves_its_quota_witness :
  exists k details keys',
    clients_manager (Some "s3cret"%string) (Some "s3cret"%string) (Some ∅)
      "00ff" 0 "create_key" None None None (Some "acme"%string)
    = (inl (created_key k details), Some keys') /\
    use_times 51 keys' k = inr (HTTPException 429).
Proof.
  exact (created_key_serves_its_quota (Some "s3cret"%string)
           (Some "s3cret"%string) ∅ "00ff" 0 50 None None None
           (Some "acme"%string) 51 eq_refl eq_refl eq_refl).
Defined.

(** X22.  A key created through [clients_manager] on the plan without
    quota, or on a plan that [PLANS] does not know, is never exhausted:
    any number of uses in a row succeeds. *)
Theorem unlimited_plan_is_never_exhausted (ADMIN_TOKEN token : option string)
  (keys : collection) (uuid_hex : string) (now : Z)
  (client_api_key plan : option string) (is_active : option bool)
  (name : option string) (m : nat) :
  admin_required ADMIN_TOKEN token = None -> given name = true ->
  PLANS_get (VStr (or_gratuit plan)) = None ->
  exists k details keys' keys'',
    clients_manager ADMIN_TOKEN token (Some keys) uuid_hex now "create_key"
      client_api_key plan is_active name
    = (inl (created_key k details), Some keys') /\
    use_times m keys' k = inl keys'' /\
    key_state keys'' k (or_gratuit plan) (Z.of_nat m).
Proof.
  intros HA Hn Hq.
  assert (Hk : key_state
                 (<[("sk_" +:+ uuid_hex)%string :=
                      create_key_data (default ""%string name) plan now]> keys)
                 ("sk_" +:+ uuid_hex) (or_gratuit plan) 0).
  { apply (created_key_state _ _ (default ""%string name) plan now).
    apply lookup_insert_eq. }
  destruct (use_times_unlimited _ _ m _ 0%Z Hk Hq) as (keys'' & E & Hs).
  eexists _, _, _, keys''. split; [now apply clients_manager_create|].
  now split.
Qed.

Lemma unlimited_plan_is_never_exhausted_witness :
  exists k details keys' keys'',
    clients_manager (Some "s3cret"%string) (Some "s3cret"%string) (Some ∅)
      "00ff" 0 "create_key" None (Some "Starter"%string) None
      (Some "acme"%string)
    = (inl (created_key k details), Some keys') /\
    use_times 600 keys' k = inl keys'' /\
    key_state keys'' k "Starter" 600.
Proof.
  exact (unlimited_plan_is_never_exhausted (Some "s3cret"%string)
           (Some "s3cret"%string) ∅ "00ff" 0 None (Some "Starter"%string) None
           (Some "acme"%string) 600 eq_refl eq_refl eq_refl).
Defined.

(** X23.  [update_key] stores the plan it is given without looking it up
    in [PLANS]: after an update to a plan that [PLANS_get] does not know
    (a misspelt plan, the empty string), the key of an active client is
    served any number of times, whatever its plan and usage were. *)
Theorem unknown_plan_update_lifts_quota (ADMIN_TOKEN token : option string)
  (keys : collection) (uuid_hex : string) (now : Z) (k p p' : string)
  (used : Z) (name : option string) (m : nat) :
  admin_required ADMIN_TOKEN token = None -> given (Some k) = true ->
  key_state keys k p used ->
  PLANS_get (VStr p') = None ->
  exists keys' keys'',
    clients_manager ADMIN_TOKEN token (Some keys) uuid_hex now "update_key"
      (Some k) (Some p') None name
    = (inl (status "updated"), Some keys') /\
    use_times m keys' k = inl keys'' /\
    key_state keys'' k p' (used + Z.of_nat m).
Proof.
  intros HA Hk (d & Hd & Ha & Hp & Hu) Hq.
  pose proof (key_state_update_plan keys k p' used d Hd Ha Hu) as Hs.
  destruct (use_times_unlimited _ _ m _ used Hs Hq) as (keys'' & E & Hs').
  eexists _, keys''.
  split; [exact (clients_manager_update_plan _ _ keys _ _ k p' name d HA Hk Hd)|].
  now split.
Qed.

Lemma unknown_plan_update_lifts_quota_witness :
  let keys : collection :=
    {[ "sk_1"%string :=
         <["quota_used"%string := VInt 50]> (create_key_data "acme" None 0) ]} in
  check_quota_or_raise false (Some keys) "sk_1" = Some (HTTPException 429) /\
  exists keys' keys'',
    clients_manager (Some "s3cret"%string) (Some "s3cret"%string) (Some keys)
      "00ff" 0 "update_key" (Some "sk_1"%string) (Some "Pro"%string) None None
    = (inl (status "updated"), Some keys') /\
    use_times 70 keys' "sk_1" = inl keys'' /\
    key_state keys'' "sk_1" "Pro" (50 + 70).
Proof.
  cbv zeta. split; [vm_compute; reflexivity|].
  apply (unknown_plan_update_lifts_quota (Some "s3cret"%string)
           (Some "s3cret"%string) _ "00ff" 0 "sk_1" "gratuit" "Pro" 50 None 70).
  - reflexivity.
  - reflexivity.
  - eexists. repeat split.
  - reflexivity.
Defined.

(** X24.  [reset_quota] gives an active key its quota back: after it,
    the key is served [m] times in a row for every [m] up to the quota
    of its plan, whatever its usage was. *)
Theorem reset_quota_restores (ADMIN_TOKEN token : option string)
  (keys : collection) (uuid_hex : string) (now : Z) (k p : string)
  (used q : Z) (plan : option string) (is_active : option bool)
  (name : option string) (m : nat) :
  admin_required ADMIN_TOKEN token = None -> given (Some k) = true ->
  key_state keys k p used ->
  PLANS_get (VStr p) = Some q -> (Z.of_nat m <= q)%Z ->
  exists keys' keys'',
    clients_manager ADMIN_TOKEN token (Some keys) uuid_hex now "reset_quota"
      (Some k) plan is_active name
    = (inl (status "quota_reset"), Some keys') /\
    use_times m keys' k = inl keys'' /\
    key_state keys'' k p (Z.of_nat m).
Proof.
  intros HA Hk (d & Hd & Ha & Hp & Hu) Hq Hle.
  pose proof (key_state_reset keys k p d Hd Ha Hp) as Hs.
  destruct (use_times_within q _ _ m _ 0%Z Hs Hq) as (keys'' & E & Hs'); [lia|].
  eexists _, keys''.
  split; [exact (clients_manager_reset _ _ keys _ _ k plan is_active name d HA Hk Hd)|].
  now split.
Qed.

Lemma reset_quota_restores_witness :
  let keys : collection :=
    {[ "sk_1"%string :=
         <["quota_used"%string := VInt 50]> (create_key_data "acme" None 0) ]} in
  check_quota_or_raise false (Some keys) "sk_1" = Some (HTTPException 429) /\
  exists keys' keys'',
    clients_manager (Some "s3cret"%string) (Some "s3cret"%string) (Some keys)
      "00ff" 0 "reset_quota" (Some "sk_1"%string) None None None
    = (inl (status "quota_reset"), Some keys') /\
    use_times 50 keys' "sk_1" = inl keys'' /\
    key_state keys'' "sk_1" "gratuit" 50.
Proof.
  cbv zeta. split; [vm_compute; reflexivity|].
  apply (reset_quota_restores (Some "s3cret"%string)
           (Some "s3cret"%string) _ "00ff" 0 "sk_1" "gratuit" 50 50 None None
           None 50).
  - reflexivity.
  - reflexivity.
  - eexists. repeat split.
  - reflexivity.
  - lia.
Defined.

(** X25.  [clients_manager] leaves the collection as it is unless the
    request carries the configured admin token: whenever the collection
    changes, [ADMIN_TOKEN] is set and not empty, and the header
    [X-Admin-Token] holds exactly that token. *)
Theorem only_admin_changes_keys (ADMIN_TOKEN token : option string)
  (db : option collection) (uuid_hex : string) (now : Z) (action : string)
  (client_api_key plan : option string) (is_active : option bool)
  (name : option string) :
  snd (clients_manager ADMIN_TOKEN token db uuid_hex now action client_api_key
         plan is_active name) <> db ->
  given ADMIN_TOKEN = true /\ token = ADMIN_TOKEN.
Proof.
  intros H. apply admin_required_token.
  unfold clients_manager in H.
  destruct (admin_required ADMIN_TOKEN token); [|reflexivity].
  now contradiction H.
Qed.

Lemma only_admin_changes_keys_witness :
  given (Some "s3cret"%string) = true /\
  Some "s3cret"%string = Some "s3cret"%string.
Proof.
  apply (only_admin_changes_keys (Some "s3cret"%string) (Some "s3cret"%string)
           (Some ∅) "00ff" 0 "create_key" None None None (Some "acme"%string)).
  intros E.
  apply (f_equal (fun o : option collection =>
                    o ≫= fun keys => keys !! "sk_00ff"%string)) in E.
  vm_compute in E. discriminate E.
Defined.

(** X26.  For a case mapping that is the ASCII one on ASCII text, and a
    requested name (or, failing that, the default name) that is ASCII,
    the download name ends with the extension asked for, compared for
    case as the code compares: the extension that is forced on a name
    survives the replacement of unsafe characters.  The extension is
    made of safe characters without capitals, and the default name ends
    with it. *)
Theorem download_name_keeps_extension (lower : text -> text)
  (requested : option text) (ext default_name : text) :
  (forall s, Forall (fun c => (c < 128)%N) s -> lower s = ascii_lower s) ->
  Forall (fun c => is_filename_char c = true /\ in_range 65 90 c = false) ext ->
  ends_with (lower default_name) ext = true ->
  Forall (fun c => (c < 128)%N) (or_default requested default_name) ->
  ends_with (lower (_build_filename lower requested ext default_name)) ext
  = true.
Proof.
  intros H1 H2 H3 H4.
  exact (build_filename_extension lower H1 ext default_name H2 H3 requested H4).
Qed.

Lemma download_name_keeps_extension_witness :
  _build_filename ascii_lower (Some (str " a/My report (v2).PDF "))
    (str ".pdf") (str "result.pdf") = str "My_report_v2_.PDF" /\
  ends_with
    (ascii_lower
       (_build_filename ascii_lower (Some (str " a/My report (v2).PDF "))
          (str ".pdf") (str "result.pdf"))) (str ".pdf") = true.
Proof.
  split; [vm_compute; reflexivity|].
  apply (download_name_keeps_extension ascii_lower
           (Some (str " a/My report (v2).PDF ")) (str ".pdf") (str "result.pdf")).
  - intros s _. reflexivity.
  - repeat (constructor; [split; reflexivity|]). constructor.
  - vm_compute. reflexivity.
  - repeat (constructor; [vm_compute; reflexivity|]). constructor.
Defined.
